(** * ConcurrentHashJoin: a sharded hash join

    Shallow embedding of [Interpreters/ConcurrentHashJoin.cpp]: the shard
    array, the hash-expression routing specs, block dispatch, the build path
    with its try-lock worklist, the probe path with its column-wise
    reassembly, and the bookkeeping operations.

    Blocks are columnar, as in the source: a block is a vector of named,
    typed columns and a column is a vector of fields.  Reference parameters
    that the C++ mutates are returned explicitly, and the block that
    dispatch changes where it lies is a cell of a memory; exceptions are a
    constructor of [result]. *)

From stdpp Require Import list strings pretty.
From Stdlib Require Import NArith Lia Sorted Ascii.

Local Open Scope string_scope.
Local Open Scope list_scope.
Local Open Scope nat_scope.

(** ** Exceptions and outcomes *)

(** The three codes named by the source, followed by the codes raised by
    the columnar primitives it calls. *)
Inductive ErrorCode :=
| LOGICAL_ERROR
| SET_SIZE_LIMIT_EXCEEDED
| BAD_ARGUMENTS
| NOT_FOUND_COLUMN_IN_BLOCK
| SIZES_OF_COLUMNS_DOESNT_MATCH
| ILLEGAL_TYPE_OF_COLUMN_FOR_FILTER
| POSITION_OUT_OF_BOUND.

(** What a call does: it returns, it throws [Exception(code, message)], it
    runs into behaviour C++ leaves undefined (an unchecked [operator[]] out
    of range, a null dereference), or it is still looping when the fuel
    given to a [while] loop is used up. *)
Inductive result (A : Type) :=
| Ok (a : A)
| Throw (code : ErrorCode) (message : string)
| Undefined
| Spinning.
Arguments Ok {A} a.
Arguments Throw {A} code message.
Arguments Undefined {A}.
Arguments Spinning {A}.

Global Instance result_ret : MRet result := @Ok.

Global Instance result_bind : MBind result := fun A B k r =>
  match r with
  | Ok a => k a
  | Throw c m => Throw c m
  | Undefined => Undefined
  | Spinning => Spinning
  end.

Definition or_else {A} (o : option A) (otherwise : result A) : result A :=
  match o with
  | Some a => Ok a
  | None => otherwise
  end.

(** ** Columns and blocks *)

(** A cell of a column.  [FieldUInt64] also carries the narrower unsigned
    types; a filter column is a [UInt8] column of zeros and ones. *)
Inductive Field :=
| FieldNull
| FieldUInt64 (n : N)
| FieldInt64 (z : Z)
| FieldString (s : string).

Abbreviation DataType := string.
Abbreviation Column := (list Field).

Record ColumnWithTypeAndName := {
  column : Column;
  type : DataType;
  name : string
}.

Abbreviation Block := (list ColumnWithTypeAndName).
Abbreviation NamesAndTypesList := (list (string * DataType)).

(** Modelled from the spec: [Block] is declared outside the sources; a
    batch is "an ordered sequence of named, typed columns, all columns
    equal length".  The members the coordinator calls: [columns], [rows]
    (the size of the first column, zero without columns), [operator bool]
    (the block has columns), [cloneEmpty], [findByName], [getByPosition]
    and [getNamesAndTypesList]. *)
Definition columns (b : Block) : nat := length b.

Definition rows (b : Block) : nat :=
  match b with
  | [] => 0
  | c :: _ => length (column c)
  end.

Definition Block_bool (b : Block) : bool :=
  match b with
  | [] => false
  | _ :: _ => true
  end.

Definition cloneEmptyColumn (c : ColumnWithTypeAndName) : ColumnWithTypeAndName :=
  {| column := []; type := type c; name := name c |}.

Definition cloneEmpty (b : Block) : Block := map cloneEmptyColumn b.

Definition findByName (b : Block) (n : string) : option ColumnWithTypeAndName :=
  find (fun c => String.eqb (name c) n) b.

Definition getByPosition (b : Block) (i : nat) : result ColumnWithTypeAndName :=
  or_else (b !! i) (Throw POSITION_OUT_OF_BOUND "Position out of bound in Block::getByPosition").

Definition getNamesAndTypesList (b : Block) : NamesAndTypesList :=
  map (fun c => (name c, type c)) b.

(** A block as the data model has it: all columns have the same number of
    rows. *)
Definition equal_rows (b : Block) : Prop :=
  Forall (fun c => length (column c) = rows b) b.

(** ** Filtering a column by a mask *)

Fixpoint filter_by_mask (mask : list bool) (col : Column) : Column :=
  match mask, col with
  | m :: mask', x :: col' =>
      if m then x :: filter_by_mask mask' col' else filter_by_mask mask' col'
  | _, _ => []
  end.

(** Modelled from the spec: [FilterDescription] is not among the sources;
    the dispatch "applies a column-wise selection/filter using that per-row
    boolean mask".  The mask is read off a full [UInt8] column, a non-zero
    byte selecting the row; any other cell is not a filter byte. *)
Definition filter_byte (f : Field) : result bool :=
  match f with
  | FieldUInt64 n => Ok (negb (N.eqb n 0))
  | _ => Throw ILLEGAL_TYPE_OF_COLUMN_FOR_FILTER "Illegal type of column for filter"
  end.

Definition FilterDescription (full_column : Column) : result (list bool) :=
  mapM filter_byte full_column.

Definition countBytesInFilter (mask : list bool) : nat :=
  length (List.filter (fun m => m) mask).

(** Modelled from the spec: [FilterDescription::filter] (that is,
    [IColumn::filter]) is not among the sources.  It keeps the rows whose
    mask byte is set, in order; the second argument is only a size hint for
    the result.  A mask of another length than the column is refused. *)
Definition FilterDescription_filter (mask : list bool) (col : Column)
    (result_size_hint : nat) : result Column :=
  if Nat.eqb (length mask) (length col)
  then Ok (filter_by_mask mask col)
  else Throw SIZES_OF_COLUMNS_DOESNT_MATCH "Size of filter doesn't match size of column".

(** ** The hash expressions of a routing spec *)

(** One element of the parsed expression list: the syntax tree of
    [cityHash64(k1,...,km) % slots = index]. *)
Record HashAST := {
  hash_arguments : list string;
  hash_modulus : nat;
  hash_remainder : nat
}.

(** The text [buildHashExpressionAction] writes before parsing it.  Both
    loops put a comma before every item but the first. *)
Fixpoint write_columns (names : list string) (i : nat) (col_buf : string) : string :=
  match names with
  | [] => col_buf
  | n :: names' =>
      let col_buf := if i is 0 then col_buf else col_buf +:+ "," in
      write_columns names' (S i) (col_buf +:+ n)
  end.

Fixpoint write_expressions (col_buf : string) (slots : nat) (indices : list nat)
    (write_buf : string) : string :=
  match indices with
  | [] => write_buf
  | i :: indices' =>
      let write_buf := if i is 0 then write_buf else write_buf +:+ "," in
      write_expressions col_buf slots indices'
        (write_buf +:+ "cityHash64(" +:+ col_buf +:+ ")%" +:+ pretty slots +:+ "=" +:+ pretty i)
  end.

Definition hash_expression_text (slots : nat) (based_columns_names : list string) : string :=
  write_expressions (write_columns based_columns_names 0 EmptyString) slots (seq 0 slots)
    EmptyString.

(** The expressions [cityHash64(columns) % slots = index], one for every
    index below [slots]: what the text written for [slots] shards spells when
    [columns] are the names that stand between its commas. *)
Definition hash_expression_list (slots : nat) (based_columns_names : list string)
    : list HashAST :=
  map (fun i => {| hash_arguments := based_columns_names;
                   hash_modulus := slots;
                   hash_remainder := i |}) (seq 0 slots).

Definition format_separated (items : list string) : string :=
  match items with
  | [] => EmptyString
  | x :: items' => fold_left (fun buf y => buf +:+ "," +:+ y) items' x
  end.

Definition format_expression (e : HashAST) : string :=
  "cityHash64(" +:+ format_separated (hash_arguments e) +:+ ")%"
    +:+ pretty (hash_modulus e) +:+ "=" +:+ pretty (hash_remainder e).

Definition format_expression_list (es : list HashAST) : string :=
  format_separated (map format_expression es).

(** The collaborators of the expression subsystem that the routing specs
    are built from, none of them among the sources: the hash function
    applied to the tuple of key values (a [UInt64], total); [parseQuery]
    with [ParserExpressionList], which reads the children of the expression
    list off the text it is handed, and off nothing else; and
    [IAST::getColumnName], which names the column an expression is computed
    into.  Distinct remainders give distinct names.  The parser is taken as
    returning: what it throws on a text it cannot read is not in the
    sources. *)
Class Functions := {
  cityHash64 : list Field -> N;
  parseQuery : string -> list HashAST;
  getColumnName : HashAST -> string;
  getColumnName_inj : forall names slots i j,
    getColumnName {| hash_arguments := names; hash_modulus := slots; hash_remainder := i |}
    = getColumnName {| hash_arguments := names; hash_modulus := slots; hash_remainder := j |} ->
    i = j
}.

(** ** Evaluating the hash expressions over a block *)

(** The actions that [ActionsVisitor] makes of the parsed list: they
    compute its expressions.  The visitor is not among the sources and is
    taken as returning. *)
Record ExpressionActions := {
  hash_expressions : list HashAST
}.

Record BlockDispatchControlData := {
  hash_expression_actions : ExpressionActions;
  hash_columns_names : list string
}.

Definition UInt8_of_bool (b : bool) : Field :=
  FieldUInt64 (if b then 1 else 0)%N.

(** The value of [cityHash64(V) % slots = index] on the key tuple [V]. *)
Definition evaluate `{Functions} (e : HashAST) (V : list Field) : bool :=
  N.eqb (cityHash64 V mod N.of_nat (hash_modulus e))%N (N.of_nat (hash_remainder e)).

Definition key_columns (block : Block) (names : list string) : result (list Column) :=
  mapM (fun n => or_else (column <$> findByName block n)
                   (Throw NOT_FOUND_COLUMN_IN_BLOCK ("Not found column " +:+ n +:+ " in block")))
       names.

Definition key_tuple (cols : list Column) (r : nat) : result (list Field) :=
  mapM (fun c : Column => or_else (c !! r)
                   (Throw SIZES_OF_COLUMNS_DOESNT_MATCH "Sizes of columns doesn't match"))
       cols.

Definition execute_expression `{Functions} (e : HashAST) (block : Block) (num_rows : nat)
    : result ColumnWithTypeAndName :=
  cols ← key_columns block (hash_arguments e);
  values ← mapM (fun r => V ← key_tuple cols r; mret (UInt8_of_bool (evaluate e V)))
                (seq 0 num_rows);
  mret {| column := values; type := "UInt8"; name := getColumnName e |}.

(** Modelled from the spec: [ExpressionActions::execute] is not among the
    sources.  It "evaluates the routing function over the whole batch at
    once", reading the key columns by name, and leaves the block with its
    columns followed by one computed column per expression. *)
Definition execute `{Functions} (actions : ExpressionActions) (block : Block)
    (num_rows : nat) : result Block :=
  computed ← mapM (fun e => execute_expression e block num_rows) (hash_expressions actions);
  mret (block ++ computed).

(** [ConcurrentHashJoin::buildHashExpressionAction], with the member
    [slots] as first argument.  The key names reach the expressions through
    the text only; the names and types of [block] go to the visitor. *)
Definition buildHashExpressionAction `{Functions} (slots : nat) (block : Block)
    (based_columns_names : list string) : ExpressionActions * list string :=
  let func_ast := parseQuery (hash_expression_text slots based_columns_names) in
  let hash_columns_names := map getColumnName func_ast in
  ({| hash_expressions := func_ast |}, hash_columns_names).

(** ** [ConcurrentHashJoin::dispatchBlock] *)

(** The body of the inner loop: column [i] of the block, filtered. *)
Definition filter_position (filter_desc : list bool) (num_filtered_rows : nat)
    (from_block : Block) (i : nat) : result ColumnWithTypeAndName :=
  from_column ← getByPosition from_block i;
  filtered_column ← FilterDescription_filter filter_desc (column from_column) num_filtered_rows;
  mret {| column := filtered_column; type := type from_column; name := name from_column |}.

(** The loop over [hash_columns_names]; [findByName] returns a null pointer
    for an unknown name, which the source dereferences. *)
Fixpoint dispatch_filters (names : list string) (header from_block : Block)
    (dispatched_blocks : list Block) : result (list Block) :=
  match names with
  | [] => mret dispatched_blocks
  | filter_column_name :: names' =>
      found ← or_else (findByName from_block filter_column_name) Undefined;
      let full_column := column found in
      filter_desc ← FilterDescription full_column;
      let num_filtered_rows := countBytesInFilter filter_desc in
      filtered_block_columns ←
        mapM (filter_position filter_desc num_filtered_rows from_block)
             (seq 0 (columns header));
      dispatch_filters names' header from_block (dispatched_blocks ++ [filtered_block_columns])
  end.

(** [from_block] and [dispatched_blocks] are passed by reference and
    changed; both are returned. *)
Definition dispatchBlock `{Functions} (dispatch_data : BlockDispatchControlData)
    (from_block : Block) (dispatched_blocks : list Block) : result (Block * list Block) :=
  let rows_before_filtration := rows from_block in
  let header := cloneEmpty from_block in
  from_block ← execute (hash_expression_actions dispatch_data) from_block rows_before_filtration;
  dispatched_blocks ←
    dispatch_filters (hash_columns_names dispatch_data) header from_block dispatched_blocks;
  mret (from_block, dispatched_blocks).

(** Blocks passed by reference.  The blocks that exist while a call runs
    are the cells of a memory, a list of blocks, and a [Block &] is the
    position of a cell.  [dispatchBlock] on the block in cell [from_block]:
    the block is changed where it lies. *)
Definition dispatchBlock_at `{Functions} (dispatch_data : BlockDispatchControlData)
    (from_block : nat) (dispatched_blocks : list Block) (memory : list Block)
    : result (list Block * list Block) :=
  block ← or_else (memory !! from_block) Undefined;
  '(block, dispatched_blocks) ← dispatchBlock dispatch_data block dispatched_blocks;
  mret (<[from_block := block]> memory, dispatched_blocks).

(** The first statements of [addJoinedBlock] and of [joinBlock] on the block
    in cell [block]: [Block cloned_block = block] makes a new cell, which is
    dispatched into a new vector. *)
Definition dispatch_clone `{Functions} (dispatch_data : BlockDispatchControlData)
    (block : nat) (memory : list Block) : result (list Block * list Block) :=
  contents ← or_else (memory !! block) Undefined;
  let cloned_block := length memory in
  let memory := memory ++ [contents] in
  let dispatched_blocks := [] in
  dispatchBlock_at dispatch_data cloned_block dispatched_blocks memory.

(** What both callers do with the block they are given by reference:
    the block lies in a cell, it is copied, the copy is dispatched, and the
    sub-blocks are what the caller goes on with. *)
Definition dispatch `{Functions} (dispatch_data : BlockDispatchControlData) (block : Block)
    : result (list Block) :=
  let memory := [block] in
  '(_, dispatched_blocks) ← dispatch_clone dispatch_data 0 memory;
  mret dispatched_blocks.

(** The shards a routing spec sends a key tuple to: the positions of the
    expressions that hold on it. *)
Definition routing_function `{Functions} (dispatch_data : BlockDispatchControlData)
    (V : list Field) : list nat :=
  List.filter
    (fun i => match hash_expressions (hash_expression_actions dispatch_data) !! i with
              | Some e => evaluate e V
              | None => false
              end)
    (seq 0 (length (hash_columns_names dispatch_data))).

(** The routing spec of one side, as the constructor stores it. *)
Definition routing_spec `{Functions} (slots : nat) (block : Block) (names : list string)
    : BlockDispatchControlData :=
  {| hash_expression_actions := fst (buildHashExpressionAction slots block names);
     hash_columns_names := snd (buildHashExpressionAction slots block names) |}.

(** What the parser made of the text written for the key names [names]:
    the [slots] expressions that hash the columns [columns]. *)
Definition reads_as `{Functions} (slots : nat) (names columns : list string) : Prop :=
  parseQuery (hash_expression_text slots names) = hash_expression_list slots columns.

(** The routing spec whose expressions hash the columns [columns]. *)
Definition hashing_spec `{Functions} (slots : nat) (columns : list string)
    : BlockDispatchControlData :=
  {| hash_expression_actions := {| hash_expressions := hash_expression_list slots columns |};
     hash_columns_names := map getColumnName (hash_expression_list slots columns) |}.

(** The shard of a key tuple: its hash modulo the number of shards. *)
Definition shard_of `{Functions} (slots : nat) (V : list Field) : nat :=
  N.to_nat (cityHash64 V mod N.of_nat slots).

(** The key tuple of row [r] of a block: the cells of the key columns, read
    by name. *)
Definition row_tuple (block : Block) (names : list string) (r : nat) : option (list Field) :=
  mapM (fun n => c ← findByName block n; column c !! r) names.

(** The rows of a block that a routing spec assigns to shard [i], in the
    order of the block. *)
Definition rows_routed_to `{Functions} (dispatch_data : BlockDispatchControlData)
    (names : list string) (block : Block) (i : nat) : list nat :=
  List.filter
    (fun r => match row_tuple block names r with
              | Some V => bool_decide (i ∈ routing_function dispatch_data V)
              | None => false
              end)
    (seq 0 (rows block)).

(** The block made of the given rows of a block, in the given order. *)
Definition select_rows (rs : list nat) (block : Block) : Block :=
  map (fun c => {| column := omap (fun r => column c !! r) rs;
                   type := type c;
                   name := name c |}) block.

(** The mask an expression has on a block, row by row, and the column it is
    computed into. *)
Definition row_mask `{Functions} (e : HashAST) (block : Block) : list bool :=
  map (fun r => evaluate e (default [] (row_tuple block (hash_arguments e) r)))
      (seq 0 (rows block)).

Definition computed_column `{Functions} (block : Block) (e : HashAST) : ColumnWithTypeAndName :=
  {| column := map UInt8_of_bool (row_mask e block); type := "UInt8"; name := getColumnName e |}.

(** A block with every column filtered by one mask. *)
Definition filtered_block (mask : list bool) (block : Block) : Block :=
  map (fun c => {| column := filter_by_mask mask (column c);
                   type := type c;
                   name := name c |}) block.

(** The column at a position of a block, empty when the block is
    narrower. *)
Definition column_at (pos : nat) (b : Block) : Column :=
  match b !! pos with
  | Some c => column c
  | None => []
  end.

(** The names of the columns of a block. *)
Definition getNames (b : Block) : list string := map name b.

(** ** The join description *)

(** Modelled from the spec: [ASTTableJoin::Kind], [ASTTableJoin::Strictness]
    and [isRightOrFull] are declared outside the sources; "the join
    kind/strictness enum (inner, left/right/full outer, semi, anti,
    as-of)", with the names the query language gives them. *)
Inductive Kind := Inner | Left | Right | Full | Cross | Comma.

Inductive Strictness := Unspecified | RightAny | Any | All | Asof | Semi | Anti.

Definition isRightOrFull (k : Kind) : bool :=
  match k with
  | Right | Full => true
  | _ => false
  end.

Record JoinOnClause := {
  key_names_left : list string;
  key_names_right : list string
}.

(** The configured limits; [None] is a limit that is not set. *)
Record SizeLimits := {
  max_rows : option N;
  max_bytes : option N
}.

Definition exceeds (limit : option N) (count : N) : bool :=
  match limit with
  | Some m => (m <? count)%N
  | None => false
  end.

(** Modelled from the spec: [SizeLimits::check] is not among the sources.
    The totals are checked "against the configured size limits; exceeding a
    limit fails with a size-limit error naming the join operator and
    current counts". *)
Definition SizeLimits_check (limits : SizeLimits) (rows_count bytes_count : N)
    (what : string) (exception_code : ErrorCode) : result bool :=
  if exceeds (max_rows limits) rows_count
  then Throw exception_code
         ("Limit for " +:+ what +:+ " exceeded, max rows: "
            +:+ pretty (default 0%N (max_rows limits))
            +:+ ", current rows: " +:+ pretty rows_count)
  else if exceeds (max_bytes limits) bytes_count
  then Throw exception_code
         ("Limit for " +:+ what +:+ " exceeded, max bytes: "
            +:+ pretty (default 0%N (max_bytes limits))
            +:+ ", current bytes: " +:+ pretty bytes_count)
  else mret true.

(** Modelled from the spec: [TableJoin] is declared outside the sources;
    it carries "the join kind/strictness enum", the "ordered build-side and
    probe-side key-column name lists" and "the configured size limits".
    [getClauses()] is never empty: its first element is a field of its
    own. *)
Record TableJoin := {
  kind : Kind;
  strictness : Strictness;
  first_clause : JoinOnClause;
  more_clauses : list JoinOnClause;
  sizeLimits : SizeLimits
}.

Definition getClauses (t : TableJoin) : list JoinOnClause :=
  first_clause t :: more_clauses t.

(** ** The single-shard engine *)

(** Modelled from the spec: [ExtraBlock] is declared outside the sources;
    the "unprocessed/overflow rows" of a probe, a block, which is empty
    when it has no columns. *)
Record ExtraBlock := { extra_block : Block }.

Definition ExtraBlock_empty (e : ExtraBlock) : bool := negb (Block_bool (extra_block e)).

(** [HashJoin] is a collaborator, used through these operations only.
    [addJoinedBlock] and [joinBlock] change the engine; [joinBlock] also
    rewrites the block it is given and may set [not_processed]. *)
Class LocalJoinEngine (HashJoin : Type) := {
  HashJoin_new : TableJoin -> Block -> bool -> HashJoin;
  HashJoin_addJoinedBlock : HashJoin -> Block -> bool -> HashJoin;
  HashJoin_joinBlock : HashJoin -> Block -> HashJoin * Block * option ExtraBlock;
  HashJoin_getTotalRowCount : HashJoin -> N;
  HashJoin_getTotalByteCount : HashJoin -> N;
  HashJoin_alwaysReturnsEmptySet : HashJoin -> bool;
  HashJoin_checkTypesOfKeys : HashJoin -> Block -> result unit
}.

(** ** Guards *)

(** A [std::mutex] as one thread sees it: free, locked for as long as this
    call runs, or held by another thread that lets go after [n] more failed
    attempts. *)
Inductive Mutex := Free | Locked | Busy (n : nat).

Global Instance Mutex_eq_dec : EqDecision Mutex.
Proof. solve_decision. Defined.

Definition try_lock (m : Mutex) : bool * Mutex :=
  match m with
  | Free => (true, Locked)
  | Locked => (false, Locked)
  | Busy 0 => (false, Free)
  | Busy (S n) => (false, Busy n)
  end.

Definition unlock (m : Mutex) : Mutex := Free.

(** [lock] blocks until the mutex is free. *)
Definition lock (m : Mutex) : result Mutex :=
  match m with
  | Locked => Spinning
  | Free | Busy _ => mret Locked
  end.

(** ** The coordinator *)

Record InternalHashJoin (HashJoin : Type) := {
  mutex : Mutex;
  data : HashJoin
}.
Arguments mutex {HashJoin} _.
Arguments data {HashJoin} _.

Record ConcurrentHashJoin (HashJoin : Type) := {
  table_join : TableJoin;
  slots : nat;
  hash_joins : list (InternalHashJoin HashJoin);
  totals_mutex : Mutex;
  totals : Block;
  dispatch_datas : list BlockDispatchControlData
}.
Arguments table_join {HashJoin} _.
Arguments slots {HashJoin} _.
Arguments hash_joins {HashJoin} _.
Arguments totals_mutex {HashJoin} _.
Arguments totals {HashJoin} _.
Arguments dispatch_datas {HashJoin} _.

(** What the worklist scan does, in order. *)
Inductive Event :=
| TryLockFailed (shard : nat)
| Acquired (shard : nat)
| Inserted (shard : nat) (block : Block) (check_limits : bool)
| Released (shard : nat).

Definition event_shard (ev : Event) : nat :=
  match ev with
  | TryLockFailed i | Acquired i | Inserted i _ _ | Released i => i
  end.

(** What happened at shard [i]: the events of the shard, in order, the
    failed attempts on its guard included. *)
Definition shard_trace (i : nat) (events : list Event) : list Event :=
  List.filter (fun ev => Nat.eqb (event_shard ev) i) events.

(** The number of attempts on a mutex that fail before one succeeds. *)
Definition patience (m : Mutex) : nat :=
  match m with
  | Free | Locked => 0
  | Busy n => S n
  end.

(** The sum of a list of counts, without wrap-around. *)
Definition sum_counts (counts : list N) : N := fold_right N.add 0%N counts.

(** [size_t] addition. *)
Definition size_t_add (a b : N) : N := ((a + b) mod 2 ^ 64)%N.

(** The outcome of a callee that did not return, as the outcome of its
    caller. *)
Definition rethrow {A B} (r : result A) (otherwise : result B) : result B :=
  match r with
  | Ok _ => otherwise
  | Throw c m => Throw c m
  | Undefined => Undefined
  | Spinning => Spinning
  end.

Section Coordinator.
Context `{Functions} {HashJoin : Type} `{!LocalJoinEngine HashJoin}.

(** The loop of the constructor that fills [hash_joins]. *)
Fixpoint emplace_hash_joins (indices : list nat) (table_join_ : TableJoin)
    (right_sample_block : Block) (any_take_last_row_ : bool)
    (hash_joins : list (InternalHashJoin HashJoin)) : list (InternalHashJoin HashJoin) :=
  match indices with
  | [] => hash_joins
  | _ :: indices' =>
      let inner_hash_join :=
        {| mutex := Free;
           data := HashJoin_new table_join_ right_sample_block any_take_last_row_ |} in
      emplace_hash_joins indices' table_join_ right_sample_block any_take_last_row_
        (hash_joins ++ [inner_hash_join])
  end.

(** [ConcurrentHashJoin::ConcurrentHashJoin].  [dispatch_datas[0]] is the
    left (probe) side, [dispatch_datas[1]] the right (build) side. *)
Definition ConcurrentHashJoin_new (table_join_ : TableJoin) (slots_ : nat)
    (left_sample_block right_sample_block : Block) (any_take_last_row_ : bool)
    : result (ConcurrentHashJoin HashJoin) :=
  if slots_ is 0
  then Throw BAD_ARGUMENTS ("Invalid argument slot : " +:+ pretty slots_)
  else
    let hash_joins :=
      emplace_hash_joins (seq 0 slots_) table_join_ right_sample_block any_take_last_row_ [] in
    let onexpr := first_clause table_join_ in (* getClauses()[0] *)
    let '(left_actions, left_names) :=
      buildHashExpressionAction slots_ left_sample_block (key_names_left onexpr) in
    let '(right_actions, right_names) :=
      buildHashExpressionAction slots_ right_sample_block (key_names_right onexpr) in
    mret {| table_join := table_join_;
            slots := slots_;
            hash_joins := hash_joins;
            totals_mutex := Free;
            totals := [];
            dispatch_datas :=
              [ {| hash_expression_actions := left_actions; hash_columns_names := left_names |};
                {| hash_expression_actions := right_actions;
                   hash_columns_names := right_names |} ] |}.

(** One pass of the [for] loop over [pending_blocks]: what is left of the
    list, the shards and what happened. *)
Fixpoint scan_pending (check_limits : bool) (dispatched_blocks : list Block)
    (pending_blocks : list nat) (hash_joins : list (InternalHashJoin HashJoin))
    : result (list nat * list (InternalHashJoin HashJoin) * list Event) :=
  match pending_blocks with
  | [] => mret ([], hash_joins, [])
  | i :: rest =>
      hash_join ← or_else (hash_joins !! i) Undefined;
      dispatched_block ← or_else (dispatched_blocks !! i) Undefined;
      let '(acquired, m) := try_lock (mutex hash_join) in
      if acquired then
        let data' := HashJoin_addJoinedBlock (data hash_join) dispatched_block check_limits in
        let hash_joins := <[i := {| mutex := unlock m; data := data' |}]> hash_joins in
        '(rest, hash_joins, events) ← scan_pending check_limits dispatched_blocks rest hash_joins;
        mret (rest, hash_joins,
              Acquired i :: Inserted i dispatched_block check_limits :: Released i :: events)
      else
        let hash_joins := <[i := {| mutex := m; data := data hash_join |}]> hash_joins in
        '(rest, hash_joins, events) ← scan_pending check_limits dispatched_blocks rest hash_joins;
        mret (i :: rest, hash_joins, TryLockFailed i :: events)
  end.

(** The [while (!pending_blocks.empty())] loop, at most [fuel] passes. *)
Fixpoint insert_pending (fuel : nat) (check_limits : bool) (dispatched_blocks : list Block)
    (pending_blocks : list nat) (hash_joins : list (InternalHashJoin HashJoin))
    : result (list (InternalHashJoin HashJoin) * list Event) :=
  match pending_blocks with
  | [] => mret (hash_joins, [])
  | _ :: _ =>
      match fuel with
      | 0 => Spinning
      | S fuel' =>
          '(pending_blocks, hash_joins, events) ←
            scan_pending check_limits dispatched_blocks pending_blocks hash_joins;
          '(hash_joins, later) ←
            insert_pending fuel' check_limits dispatched_blocks pending_blocks hash_joins;
          mret (hash_joins, events ++ later)
      end
  end.

Definition getTotalRowCount (this : ConcurrentHashJoin HashJoin) : N :=
  fold_left (fun res hash_join => size_t_add res (HashJoin_getTotalRowCount (data hash_join)))
            (hash_joins this) 0%N.

Definition getTotalByteCount (this : ConcurrentHashJoin HashJoin) : N :=
  fold_left (fun res hash_join => size_t_add res (HashJoin_getTotalByteCount (data hash_join)))
            (hash_joins this) 0%N.

Definition alwaysReturnsEmptySet (this : ConcurrentHashJoin HashJoin) : bool :=
  forallb (fun hash_join => HashJoin_alwaysReturnsEmptySet (data hash_join)) (hash_joins this).

Definition with_hash_joins (this : ConcurrentHashJoin HashJoin)
    (hash_joins' : list (InternalHashJoin HashJoin)) : ConcurrentHashJoin HashJoin :=
  {| table_join := table_join this;
     slots := slots this;
     hash_joins := hash_joins';
     totals_mutex := totals_mutex this;
     totals := totals this;
     dispatch_datas := dispatch_datas this |}.

(** What at most [fuel] passes of the loop leave, whether or not the
    worklist is empty by then: the worklist, the shards and what happened.
    The engines and the guards are changed where they are, so this is what
    the coordinator holds while a call has not returned.  A pass that
    indexes a vector out of range has no defined effect; the passes stop
    before it. *)
Fixpoint run_passes (fuel : nat) (check_limits : bool) (dispatched_blocks : list Block)
    (pending_blocks : list nat) (hash_joins : list (InternalHashJoin HashJoin))
    : list nat * list (InternalHashJoin HashJoin) * list Event :=
  match pending_blocks, fuel with
  | _ :: _, S fuel' =>
      match scan_pending check_limits dispatched_blocks pending_blocks hash_joins with
      | Ok (pending_blocks', hash_joins', events) =>
          let '(pending_blocks'', hash_joins'', later) :=
            run_passes fuel' check_limits dispatched_blocks pending_blocks' hash_joins' in
          (pending_blocks'', hash_joins'', events ++ later)
      | _ => (pending_blocks, hash_joins, [])
      end
  | _, _ => (pending_blocks, hash_joins, [])
  end.

(** What the passes make of the shards when some guards may be held for
    good: the shards outside the worklist are untouched, a shard of the
    worklist whose guard is held for good is as it was, and every other
    shard of the worklist is free, with its block given to its engine. *)
Definition served (check_limits : bool) (dispatched_blocks : list Block)
    (pending_blocks : list nat) (hash_joins hash_joins' : list (InternalHashJoin HashJoin))
    : Prop :=
  length hash_joins' = length hash_joins
  /\ (forall j, j ∉ pending_blocks -> hash_joins' !! j = hash_joins !! j)
  /\ (forall i hash_join db,
        i ∈ pending_blocks ->
        hash_joins !! i = Some hash_join ->
        dispatched_blocks !! i = Some db ->
        hash_joins' !! i
        = Some (if bool_decide (mutex hash_join = Locked)
                then hash_join
                else {| mutex := Free;
                        data := HashJoin_addJoinedBlock (data hash_join) db check_limits |})).

(** What draining a worklist amounts to: the shards outside the worklist
    are untouched and nothing happened at them; every shard of the worklist
    ends up free, with its block given to its engine, and at the shard the
    attempts on its guard failed for as long as it was held elsewhere, then
    the guard was taken once, for one insertion, and released. *)
Definition drained (check_limits : bool) (dispatched_blocks : list Block)
    (pending_blocks : list nat) (hash_joins hash_joins' : list (InternalHashJoin HashJoin))
    (events : list Event) : Prop :=
  length hash_joins' = length hash_joins
  /\ (forall j, j ∉ pending_blocks ->
        hash_joins' !! j = hash_joins !! j /\ shard_trace j events = [])
  /\ (forall i hash_join db,
        i ∈ pending_blocks ->
        hash_joins !! i = Some hash_join ->
        dispatched_blocks !! i = Some db ->
        hash_joins' !! i
        = Some {| mutex := Free;
                  data := HashJoin_addJoinedBlock (data hash_join) db check_limits |}
        /\ shard_trace i events
           = replicate (patience (mutex hash_join)) (TryLockFailed i)
             ++ [Acquired i; Inserted i db check_limits; Released i]).

(** [ConcurrentHashJoin::addJoinedBlock]: the outcome, the coordinator as
    the call leaves it, and what the worklist loop did.  Dispatch works on a
    copy of the block and a vector of its own, so a call that stops there
    leaves the coordinator as it was; a call that is still in the loop after
    [fuel] passes has changed the shards it could take. *)
Definition addJoinedBlock_traced (fuel : nat) (this : ConcurrentHashJoin HashJoin)
    (block : Block) (check_limits : bool)
    : result bool * ConcurrentHashJoin HashJoin * list Event :=
  match (dispatch_data ← or_else (dispatch_datas this !! 1) Undefined;
         dispatch dispatch_data block) with
  | Ok dispatched_blocks =>
      let pending_blocks := seq 0 (length dispatched_blocks) in
      match insert_pending fuel check_limits dispatched_blocks pending_blocks (hash_joins this) with
      | Ok (hash_joins', events) =>
          let this := with_hash_joins this hash_joins' in
          (if check_limits
           then SizeLimits_check (sizeLimits (table_join this))
                  (getTotalRowCount this) (getTotalByteCount this)
                  "JOIN" SET_SIZE_LIMIT_EXCEEDED
           else mret true,
           this, events)
      | stopped =>
          let '(_, hash_joins', events) :=
            run_passes fuel check_limits dispatched_blocks pending_blocks (hash_joins this) in
          (rethrow stopped Undefined, with_hash_joins this hash_joins', events)
      end
  | stopped => (rethrow stopped Undefined, this, [])
  end.

Definition addJoinedBlock (fuel : nat) (this : ConcurrentHashJoin HashJoin) (block : Block)
    (check_limits : bool) : result bool * ConcurrentHashJoin HashJoin :=
  fst (addJoinedBlock_traced fuel this block check_limits).

Definition addJoinedBlock_events (fuel : nat) (this : ConcurrentHashJoin HashJoin)
    (block : Block) (check_limits : bool) : list Event :=
  snd (addJoinedBlock_traced fuel this block check_limits).

(** What the probe of one shard gives: the block as the engine leaves it,
    and whether rows come back unprocessed. *)
Definition probe_output (hash_join : InternalHashJoin HashJoin) (dispatched_block : Block)
    : Block :=
  snd (fst (HashJoin_joinBlock (data hash_join) dispatched_block)).

Definition probe_engine (hash_join : InternalHashJoin HashJoin) (dispatched_block : Block)
    : InternalHashJoin HashJoin :=
  {| mutex := mutex hash_join;
     data := fst (fst (HashJoin_joinBlock (data hash_join) dispatched_block)) |}.

Definition leaves_unprocessed (hash_join : InternalHashJoin HashJoin)
    (dispatched_block : Block) : bool :=
  match snd (HashJoin_joinBlock (data hash_join) dispatched_block) with
  | Some extra => negb (ExtraBlock_empty extra)
  | None => false
  end.

(** The first loop of [joinBlock]: every shard probes its sub-block in
    place; a shard that leaves rows unprocessed stops the call. *)
Fixpoint probe_shards (indices : list nat) (hash_joins : list (InternalHashJoin HashJoin))
    (dispatched_blocks : list Block)
    : result (list Block) * list (InternalHashJoin HashJoin) :=
  match indices with
  | [] => (mret dispatched_blocks, hash_joins)
  | i :: rest =>
      match hash_joins !! i, dispatched_blocks !! i with
      | Some hash_join, Some dispatched_block =>
          let '(data', joined_block, none_extra_block) :=
            HashJoin_joinBlock (data hash_join) dispatched_block in
          let hash_joins := <[i := {| mutex := mutex hash_join; data := data' |}]> hash_joins in
          let dispatched_blocks := <[i := joined_block]> dispatched_blocks in
          if match none_extra_block with
             | Some extra => negb (ExtraBlock_empty extra)
             | None => false
             end
          then (Throw LOGICAL_ERROR "not_processed should be empty", hash_joins)
          else probe_shards rest hash_joins dispatched_blocks
      | _, _ => (Undefined, hash_joins)
      end
  end.

(** The loop over the positions of one dispatched block: a destination
    column is created the first time its position is met, and the whole
    source column is appended to it unless it is empty. *)
Fixpoint append_columns (from_columns : Block) (pos : nat)
    (mutable_final_columns : list Column) : result (list Column) :=
  match from_columns with
  | [] => mret mutable_final_columns
  | from_column :: from_columns' =>
      let mutable_final_columns :=
        if length mutable_final_columns <=? pos
        then mutable_final_columns ++ [column (cloneEmptyColumn from_column)]
        else mutable_final_columns in
      mutable_final_columns ←
        (if negb (bool_decide (column from_column = []))
         then
           destination ← or_else (mutable_final_columns !! pos) Undefined;
           mret (<[pos := destination ++ column from_column]> mutable_final_columns)
         else mret mutable_final_columns);
      append_columns from_columns' (S pos) mutable_final_columns
  end.

Fixpoint append_blocks (dispatched_blocks : list Block)
    (mutable_final_columns : list Column) : result (list Column) :=
  match dispatched_blocks with
  | [] => mret mutable_final_columns
  | dispatched_block :: dispatched_blocks' =>
      mutable_final_columns ← append_columns dispatched_block 0 mutable_final_columns;
      append_blocks dispatched_blocks' mutable_final_columns
  end.

(** The last loop: one final column per name and type of shard 0. *)
Fixpoint name_final_columns (names_and_types : NamesAndTypesList) (i : nat)
    (mutable_final_columns : list Column) (final_columns : Block) : result Block :=
  match names_and_types with
  | [] => mret final_columns
  | (n, t) :: names_and_types' =>
      c ← or_else (mutable_final_columns !! i) Undefined;
      name_final_columns names_and_types' (S i) mutable_final_columns
        (final_columns ++ [{| column := c; type := t; name := n |}])
  end.

Definition reassemble (dispatched_blocks : list Block) : result Block :=
  first ← or_else (dispatched_blocks !! 0) Undefined;
  let names_and_types := getNamesAndTypesList first in
  mutable_final_columns ← append_blocks dispatched_blocks [];
  name_final_columns names_and_types 0 mutable_final_columns [].

(** [ConcurrentHashJoin::joinBlock]: the block it leaves in its argument,
    and the coordinator after the probes. *)
Definition joinBlock (this : ConcurrentHashJoin HashJoin) (block : Block)
    : result Block * ConcurrentHashJoin HashJoin :=
  match (dispatch_data ← or_else (dispatch_datas this !! 0) Undefined;
         dispatch dispatch_data block) with
  | Ok dispatched_blocks =>
      match probe_shards (seq 0 (length dispatched_blocks)) (hash_joins this)
                         dispatched_blocks with
      | (Ok dispatched_blocks, hash_joins') =>
          (reassemble dispatched_blocks, with_hash_joins this hash_joins')
      | (stopped, hash_joins') =>
          (rethrow stopped Undefined, with_hash_joins this hash_joins')
      end
  | stopped => (rethrow stopped Undefined, this)
  end.

Definition checkTypesOfKeys (this : ConcurrentHashJoin HashJoin) (block : Block)
    : result unit :=
  hash_join ← or_else (hash_joins this !! 0) Undefined;
  HashJoin_checkTypesOfKeys (data hash_join) block.

(** [setTotals] and [getTotals]; the [lock_guard] takes [totals_mutex] for
    the assignment only. *)
Definition setTotals (this : ConcurrentHashJoin HashJoin) (block : Block)
    : result (ConcurrentHashJoin HashJoin) :=
  if Block_bool block
  then
    m ← lock (totals_mutex this);
    mret {| table_join := table_join this;
            slots := slots this;
            hash_joins := hash_joins this;
            totals_mutex := unlock m;
            totals := block;
            dispatch_datas := dispatch_datas this |}
  else mret this.

Definition getTotals (this : ConcurrentHashJoin HashJoin) : Block := totals this.

End Coordinator.

(** ** Rows the probe side never matched *)

(** The capability [getNonJoinedBlocks] would hand out. *)
Record NotJoinedBlocks := { not_joined : list Block }.

Global Instance Strictness_eq_dec : EqDecision Strictness.
Proof. solve_decision. Defined.

Definition Kind_name (k : Kind) : string :=
  match k with
  | Inner => "Inner" | Left => "Left" | Right => "Right"
  | Full => "Full" | Cross => "Cross" | Comma => "Comma"
  end.

Definition Strictness_name (s : Strictness) : string :=
  match s with
  | Unspecified => "Unspecified" | RightAny => "RightAny" | Any => "Any" | All => "All"
  | Asof => "Asof" | Semi => "Semi" | Anti => "Anti"
  end.

(** [ConcurrentHashJoin::getNonJoinedBlocks]; it reads [table_join] only and
    ignores its three arguments. *)
Definition getNonJoinedBlocks (table_join : TableJoin)
    (left_sample_block result_sample_block : Block) (max_block_size : N)
    : result (option NotJoinedBlocks) :=
  if bool_decide (strictness table_join = Asof)
     || bool_decide (strictness table_join = Semi)
     || negb (isRightOrFull (kind table_join))
  then mret None
  else Throw LOGICAL_ERROR
         ("Invalid join type. join kind: " +:+ Kind_name (kind table_join)
            +:+ ", strictness: " +:+ Strictness_name (strictness table_join)).

(** ** A small instance to run the definitions on *)

Definition field_weight (f : Field) : N :=
  match f with
  | FieldNull => 0
  | FieldUInt64 n => n
  | FieldInt64 z => Z.to_N (z mod 2 ^ 64)
  | FieldString s => N.of_nat (String.length s)
  end.

(** A stand-in for the hash: the key values added up as [UInt64]. *)
Definition sum_hash (V : list Field) : N :=
  fold_right (fun f acc => ((field_weight f + acc) mod 2 ^ 64)%N) 0%N V.

(** A stand-in for the parser.  It reads expressions
    [cityHash64(k1,...,km)%slots=index] separated by commas, the arguments
    being what stands between the commas; a text it cannot read has no
    expressions. *)
Fixpoint strip_prefix (prefix s : string) : option string :=
  match prefix, s with
  | EmptyString, _ => Some s
  | String a prefix', String b s' => if Ascii.eqb a b then strip_prefix prefix' s' else None
  | String _ _, EmptyString => None
  end.

Fixpoint break_at (c : ascii) (s : string) : option (string * string) :=
  match s with
  | EmptyString => None
  | String a s' =>
      if Ascii.eqb a c then Some (EmptyString, s')
      else match break_at c s' with
           | Some (before, behind) => Some (String a before, behind)
           | None => None
           end
  end.

Fixpoint split_at_commas (s : string) : list string :=
  match s with
  | EmptyString => [EmptyString]
  | String a s' =>
      if Ascii.eqb a ","%char then EmptyString :: split_at_commas s'
      else match split_at_commas s' with
           | x :: l => String a x :: l
           | [] => [String a EmptyString]
           end
  end.

Definition read_arguments (s : string) : list string :=
  match s with
  | EmptyString => []
  | String _ _ => split_at_commas s
  end.

Definition digit_value (a : ascii) : option nat :=
  let n := nat_of_ascii a in
  if (48 <=? n) && (n <=? 57) then Some (n - 48) else None.

Fixpoint read_digits (s : string) (acc : nat) : nat * string :=
  match s with
  | EmptyString => (acc, s)
  | String a s' =>
      match digit_value a with
      | Some d => read_digits s' (10 * acc + d)
      | None => (acc, s)
      end
  end.

Definition read_number (s : string) : option (nat * string) :=
  match s with
  | EmptyString => None
  | String a _ =>
      match digit_value a with
      | Some _ => Some (read_digits s 0)
      | None => None
      end
  end.

Fixpoint read_expressions (fuel : nat) (s : string) : option (list HashAST) :=
  match fuel with
  | 0 => None
  | S fuel' =>
      s ← strip_prefix "cityHash64(" s;
      '(arguments, s) ← break_at ")"%char s;
      s ← strip_prefix "%" s;
      '(modulus, s) ← read_number s;
      s ← strip_prefix "=" s;
      '(remainder, s) ← read_number s;
      let e := {| hash_arguments := read_arguments arguments;
                  hash_modulus := modulus;
                  hash_remainder := remainder |} in
      match s with
      | EmptyString => Some [e]
      | String a s' =>
          if Ascii.eqb a ","%char
          then es ← read_expressions fuel' s'; Some (e :: es)
          else None
      end
  end.

Definition read_expression_list (s : string) : list HashAST :=
  default [] (read_expressions (String.length s) s).

Definition sum_functions : Functions.
Proof.
  refine {| cityHash64 := sum_hash; parseQuery := read_expression_list;
            getColumnName := format_expression; getColumnName_inj := _ |}.
  unfold format_expression; simpl; intros names slots i j E.
  repeat apply String.app_inj in E.
  by apply (inj pretty) in E.
Defined.

(** A stand-in for the engine: it keeps the blocks it was given, and a
    probe handles two rows of its block, returning the other rows as not
    processed. *)
Definition take_rows (n : nat) (b : Block) : Block :=
  map (fun c => {| column := take n (column c); type := type c; name := name c |}) b.

Definition drop_rows (n : nat) (b : Block) : Block :=
  map (fun c => {| column := drop n (column c); type := type c; name := name c |}) b.

Definition block_cells (b : Block) : N :=
  N.of_nat (list_sum (map (fun c => length (column c)) b)).

Definition two_row_engine : LocalJoinEngine (list Block) :=
  {| HashJoin_new := fun _ _ _ => [];
     HashJoin_addJoinedBlock := fun stored b _ => stored ++ [b];
     HashJoin_joinBlock := fun stored b =>
       (stored, take_rows 2 b,
        if rows b <=? 2 then None else Some {| extra_block := drop_rows 2 b |});
     HashJoin_getTotalRowCount := fun stored => N.of_nat (list_sum (map rows stored));
     HashJoin_getTotalByteCount := fun stored =>
       (8 * fold_right N.add 0 (map block_cells stored))%N;
     HashJoin_alwaysReturnsEmptySet := fun stored => forallb (fun b => rows b =? 0) stored;
     HashJoin_checkTypesOfKeys := fun _ _ => Ok tt |}.

Definition key_value_block (keys : list N) (vals : list string) : Block :=
  [ {| column := map FieldUInt64 keys; type := "UInt64"; name := "key" |};
    {| column := map FieldString vals; type := "String"; name := "val" |} ].

Definition key_join (k : Kind) (s : Strictness) (limits : SizeLimits) : TableJoin :=
  {| kind := k;
     strictness := s;
     first_clause := {| key_names_left := ["key"]; key_names_right := ["key"] |};
     more_clauses := [];
     sizeLimits := limits |}.

Definition no_limits : SizeLimits := {| max_rows := None; max_bytes := None |}.

Definition five_rows : Block :=
  key_value_block [1; 2; 3; 4; 6]%N ["a"; "b"; "c"; "d"; "e"].

Definition three_rows : Block := key_value_block [1; 3; 5]%N ["a"; "c"; "e"].

(** Two shards, the second one busy for a while. *)
Definition free_and_busy : list (InternalHashJoin (list Block)) :=
  [ {| mutex := Free; data := [] |}; {| mutex := Busy 2; data := [] |} ].

Definition even_and_odd : list Block :=
  [ key_value_block [2; 4]%N ["b"; "d"]; key_value_block [1]%N ["a"] ].

(** A coordinator of two shards over the stand-ins, as the constructor
    makes it. *)
Definition two_shards (limits : SizeLimits) : ConcurrentHashJoin (list Block) :=
  {| table_join := key_join Inner All limits;
     slots := 2;
     hash_joins := replicate 2 {| mutex := Free; data := [] |};
     totals_mutex := Free;
     totals := [];
     dispatch_datas :=
       [ routing_spec (H := sum_functions) 2 five_rows ["key"];
         routing_spec (H := sum_functions) 2 five_rows ["key"] ] |}.

Definition four_rows : Block := key_value_block [1; 2; 3; 4]%N ["a"; "b"; "c"; "d"].

Definition one_row_limit : SizeLimits := {| max_rows := Some 1%N; max_bytes := None |}.

Definition two_rows : Block := key_value_block [1; 2]%N ["a"; "b"].

(** A right join of every matching row, over the key. *)
Definition right_all_join : TableJoin := key_join Right All no_limits.

(** ** Notions for the further properties *)

(** The rows of a block in the order in which reassembly leaves them:
    shard after shard, and in block order within a shard. *)
Definition shard_order `{Functions} (dispatch_data : BlockDispatchControlData)
    (names : list string) (block : Block) : list nat :=
  concat (map (rows_routed_to dispatch_data names block)
              (seq 0 (length (hash_columns_names dispatch_data)))).

(** A routing spec for [slots] shards whose column names are the names of
    its expressions. *)
Definition coherent `{Functions} (dispatch_data : BlockDispatchControlData) (slots : nat)
    : Prop :=
  hash_columns_names dispatch_data
  = map getColumnName (hash_expressions (hash_expression_actions dispatch_data))
  /\ length (hash_columns_names dispatch_data) = slots.

(** The shape the constructor gives a coordinator: at least one shard, as
    many shards as [slots] says, and a routing spec for that many shards on
    either side. *)
Definition well_formed `{Functions} {HashJoin : Type} (this : ConcurrentHashJoin HashJoin)
    : Prop :=
  1 <= slots this
  /\ length (hash_joins this) = slots this
  /\ exists left_data right_data,
       dispatch_datas this = [left_data; right_data]
       /\ coherent left_data (slots this)
       /\ coherent right_data (slots this).

(** The two shards with the second one busy for a while. *)
Definition second_busy : ConcurrentHashJoin (list Block) :=
  with_hash_joins (two_shards no_limits) free_and_busy.

(** A block with a single column whose name holds a comma, and a block with
    the two columns that this name spells. *)
Definition comma_block : Block :=
  [ {| column := [FieldUInt64 1; FieldUInt64 2]; type := "UInt64"; name := "a,b" |} ].

Definition pair_block : Block :=
  [ {| column := [FieldUInt64 1; FieldUInt64 2]; type := "UInt64"; name := "a" |};
    {| column := [FieldUInt64 3; FieldUInt64 3]; type := "UInt64"; name := "b" |} ].

(** The two shards with the guard of the second one held for good. *)
Definition second_locked : ConcurrentHashJoin (list Block) :=
  with_hash_joins (two_shards no_limits)
    [ {| mutex := Free; data := [] |}; {| mutex := Locked; data := [] |} ].

(** * Properties *)

(** ** The outcome monad *)

Lemma mapM_Ok_map {A B} (f : A -> result B) (g : A -> B) (l : list A) :
  (forall x, x ∈ l -> f x = Ok (g x)) -> mapM f l = Ok (map g l).
Proof.
  induction l as [|a l IH]; intros Hf; [done|].
  cbn. rewrite (Hf a) by left. cbn.
  rewrite IH by (intros x Hx; apply Hf; by right). done.
Qed.

Lemma mapM_cons_Ok {A B} (f : A -> result B) a l b bs :
  f a = Ok b -> mapM f l = Ok bs -> mapM f (a :: l) = Ok (b :: bs).
Proof. intros Ha Hl. cbn. rewrite Ha. cbn. by rewrite Hl. Qed.

Lemma mapM_cons_Some {A B} (f : A -> option B) a l b bs :
  f a = Some b -> mapM f l = Some bs -> mapM f (a :: l) = Some (b :: bs).
Proof. intros Ha Hl. cbn. rewrite Ha. cbn. by rewrite Hl. Qed.

(** ** The text that is parsed *)

Lemma string_app_assoc (s1 s2 s3 : string) : (s1 +:+ s2) +:+ s3 = s1 +:+ s2 +:+ s3.
Proof.
  induction s1 as [|a s1 IH]; [done|].
  change (String a ((s1 +:+ s2) +:+ s3) = String a (s1 +:+ s2 +:+ s3)).
  by rewrite IH.
Qed.

Lemma write_columns_later names i col_buf :
  write_columns names (S i) col_buf = fold_left (fun buf y => buf +:+ "," +:+ y) names col_buf.
Proof.
  revert i col_buf; induction names as [|n names IH]; intros i col_buf; [done|].
  cbn. rewrite IH. by rewrite string_app_assoc.
Qed.

Lemma write_columns_format names :
  write_columns names 0 EmptyString = format_separated names.
Proof. destruct names as [|n names]; [done|]. cbn. by rewrite write_columns_later. Qed.

Lemma write_expressions_later col_buf slots indices write_buf :
  Forall (fun i => i <> 0) indices ->
  write_expressions col_buf slots indices write_buf
  = fold_left (fun buf y => buf +:+ "," +:+ y)
      (map (fun i => "cityHash64(" +:+ col_buf +:+ ")%" +:+ pretty slots +:+ "=" +:+ pretty i)
           indices)
      write_buf.
Proof.
  intros Hnz; revert write_buf; induction Hnz as [|i indices Hi _ IH]; intros write_buf; [done|].
  cbn. destruct i as [|i]; [done|]. rewrite IH. by rewrite string_app_assoc.
Qed.

(** The expression list of a routing spec, printed, is the text the
    source hands to the parser. *)
Lemma hash_expression_text_format slots names :
  hash_expression_text slots names
  = format_expression_list (hash_expression_list slots names).
Proof.
  unfold hash_expression_text, format_expression_list, hash_expression_list.
  rewrite write_columns_format.
  destruct slots as [|slots]; [done|].
  cbn [seq map write_expressions format_separated].
  rewrite write_expressions_later.
  - rewrite map_map. done.
  - apply Forall_forall. intros i Hi%list_elem_of_In%in_seq. lia.
Qed.

Example hash_expression_text_3 :
  hash_expression_text 3 ["a"; "b"]
  = "cityHash64(a,b)%3=0,cityHash64(a,b)%3=1,cityHash64(a,b)%3=2".
Proof. reflexivity. Qed.

(** ** Routing *)

Section Routing.
Context `{Functions}.

Lemma shard_of_lt slots V : 1 <= slots -> shard_of slots V < slots.
Proof.
  intros Hs. unfold shard_of.
  assert (cityHash64 V mod N.of_nat slots < N.of_nat slots)%N by (apply N.mod_lt; lia).
  lia.
Qed.

Lemma hash_expression_list_lookup slots names i :
  i < slots ->
  hash_expression_list slots names !! i
  = Some {| hash_arguments := names; hash_modulus := slots; hash_remainder := i |}.
Proof.
  intros Hi. unfold hash_expression_list.
  change (map ?f ?l) with (f <$> l).
  by rewrite list_lookup_fmap, lookup_seq_lt.
Qed.

Lemma hash_expression_list_length slots names :
  length (hash_expression_list slots names) = slots.
Proof. unfold hash_expression_list. by rewrite length_map, length_seq. Qed.

Lemma evaluate_shard_of names slots i V :
  1 <= slots -> i < slots ->
  evaluate {| hash_arguments := names; hash_modulus := slots; hash_remainder := i |} V
  = bool_decide (shard_of slots V = i).
Proof.
  intros Hs Hi. unfold evaluate, shard_of; cbn.
  destruct (N.eqb_spec (cityHash64 V mod N.of_nat slots) (N.of_nat i)) as [E|E].
  - rewrite E, Nat2N.id. by rewrite bool_decide_eq_true_2.
  - rewrite bool_decide_eq_false_2; [done|]. intros <-. apply E. by rewrite N2Nat.id.
Qed.

Lemma filter_seq_singleton (k a n : nat) :
  List.filter (fun i => bool_decide (k = i)) (seq a n)
  = if bool_decide (a <= k < a + n) then [k] else [].
Proof.
  revert a; induction n as [|n IH]; intros a; cbn.
  - rewrite bool_decide_eq_false_2; [done|lia].
  - rewrite IH. destruct (decide (k = a)) as [->|Hne].
    + rewrite bool_decide_eq_true_2 by done.
      rewrite (bool_decide_eq_false_2 (S a <= a < _)) by lia.
      rewrite bool_decide_eq_true_2; [done|lia].
    + rewrite (bool_decide_eq_false_2 (k = a)) by done.
      apply (f_equal (fun b : bool => if b then [k] else [])).
      apply bool_decide_ext. lia.
Qed.

Lemma routing_function_spec slots names V :
  1 <= slots ->
  routing_function (hashing_spec slots names) V = [shard_of slots V].
Proof.
  intros Hs. unfold routing_function, hashing_spec; cbn.
  rewrite length_map, hash_expression_list_length.
  rewrite (filter_ext_in _ (fun i => bool_decide (shard_of slots V = i))).
  - rewrite filter_seq_singleton.
    rewrite bool_decide_eq_true_2; [done|]. pose proof (shard_of_lt slots V Hs). lia.
  - intros i [_ Hi]%in_seq. cbn in Hi.
    rewrite hash_expression_list_lookup by done.
    by apply evaluate_shard_of.
Qed.

(** The routing spec the code builds is the spec over the columns that the
    parser read in the text. *)
Lemma routing_spec_reads slots (sample : Block) names columns :
  reads_as slots names columns ->
  routing_spec slots sample names = hashing_spec slots columns.
Proof.
  unfold reads_as, routing_spec, hashing_spec, buildHashExpressionAction.
  cbn [fst snd]. by intros ->.
Qed.

End Routing.

(** ** Construction *)

Section Construction.
Context `{Functions} {HashJoin : Type} `{!LocalJoinEngine HashJoin}.

Lemma emplace_hash_joins_spec indices table_join_ right_sample_block any_take_last_row_
    (hash_joins : list (InternalHashJoin HashJoin)) :
  emplace_hash_joins indices table_join_ right_sample_block any_take_last_row_ hash_joins
  = hash_joins
    ++ replicate (length indices)
         {| mutex := Free;
            data := HashJoin_new table_join_ right_sample_block any_take_last_row_ |}.
Proof.
  revert hash_joins; induction indices as [|i indices IH]; intros hash_joins; cbn.
  - by rewrite app_nil_r.
  - rewrite IH. by rewrite <- app_assoc.
Qed.

Lemma ConcurrentHashJoin_new_Ok table_join_ slots_ left_sample_block right_sample_block
    any_take_last_row_ :
  1 <= slots_ ->
  ConcurrentHashJoin_new table_join_ slots_ left_sample_block right_sample_block
    any_take_last_row_
  = Ok {| table_join := table_join_;
          slots := slots_;
          hash_joins :=
            replicate slots_
              {| mutex := Free;
                 data := HashJoin_new table_join_ right_sample_block any_take_last_row_ |};
          totals_mutex := Free;
          totals := [];
          dispatch_datas :=
            [ routing_spec slots_ left_sample_block (key_names_left (first_clause table_join_));
              routing_spec slots_ right_sample_block
                (key_names_right (first_clause table_join_)) ] |}.
Proof.
  intros Hs. unfold ConcurrentHashJoin_new.
  destruct slots_ as [|n]; [lia|].
  rewrite emplace_hash_joins_spec, length_seq. done.
Qed.

End Construction.

(** ** Dispatch *)

Lemma findByName_elem block n c : findByName block n = Some c -> c ∈ block /\ name c = n.
Proof.
  unfold findByName. intros [Hin Hn]%find_some.
  split; [by apply list_elem_of_In|]. by apply String.eqb_eq.
Qed.

Lemma findByName_app block1 block2 n :
  findByName (block1 ++ block2) n
  = match findByName block1 n with
    | Some c => Some c
    | None => findByName block2 n
    end.
Proof.
  unfold findByName. induction block1 as [|c block1 IH]; [done|].
  cbn. by destruct (String.eqb (name c) n).
Qed.

Lemma FilterDescription_mask (mask : list bool) :
  FilterDescription (map UInt8_of_bool mask) = Ok mask.
Proof.
  unfold FilterDescription.
  induction mask as [|m mask IH]; [done|].
  cbn. cbn in IH. rewrite IH. by destruct m.
Qed.

Lemma omap_cons {A B} (f : A -> option B) (x : A) (l : list A) :
  omap f (x :: l) = match f x with Some y => y :: omap f l | None => omap f l end.
Proof. reflexivity. Qed.

(** Filtering by a mask computed row by row keeps the rows on which the
    mask holds, in order. *)
Lemma filter_by_mask_select (f : nat -> bool) (col pre : Column) :
  filter_by_mask (map f (seq (length pre) (length col))) col
  = omap (fun r => (pre ++ col) !! r) (List.filter f (seq (length pre) (length col))).
Proof.
  revert pre; induction col as [|x col IH]; intros pre; [done|].
  cbn [length seq map filter_by_mask List.filter].
  specialize (IH (pre ++ [x])).
  rewrite length_app, Nat.add_1_r, <- app_assoc in IH. cbn [app] in IH.
  destruct (f (length pre)).
  - rewrite omap_cons, list_lookup_middle by done. by rewrite IH.
  - done.
Qed.

Lemma filter_position_at mask hint (pre rest : Block) c :
  length (column c) = length mask ->
  filter_position mask hint (pre ++ c :: rest) (length pre)
  = Ok {| column := filter_by_mask mask (column c); type := type c; name := name c |}.
Proof.
  intros Hc. unfold filter_position, getByPosition.
  rewrite list_lookup_middle by done. cbn.
  unfold FilterDescription_filter. by rewrite Hc, Nat.eqb_refl.
Qed.

Lemma filter_positions mask hint (l pre post : Block) :
  Forall (fun c => length (column c) = length mask) l ->
  mapM (filter_position mask hint (pre ++ l ++ post)) (seq (length pre) (length l))
  = Ok (filtered_block mask l).
Proof.
  intros Hl; revert pre; induction Hl as [|c l Hc _ IH]; intros pre; [done|].
  cbn [length seq map]. cbn [mapM].
  rewrite <- app_comm_cons, filter_position_at by done.
  specialize (IH (pre ++ [c])).
  rewrite length_app, Nat.add_1_r, <- app_assoc in IH. cbn [app] in IH.
  cbn. cbn in IH. by rewrite IH.
Qed.

Section Dispatch.
Context `{Functions}.

(** The copy keeps the caller's block out of it: what the caller gets is
    what [dispatchBlock] appends to an empty vector for the block. *)
Lemma dispatch_unfold dispatch_data (block : Block) :
  dispatch dispatch_data block
  = ('(_, dispatched_blocks) ← dispatchBlock dispatch_data block [];
     mret dispatched_blocks).
Proof.
  unfold dispatch, dispatch_clone, dispatchBlock_at.
  cbn [lookup list_lookup or_else mbind result_bind length app].
  by destruct (dispatchBlock dispatch_data block []) as [[from_block subs]| | |].
Qed.

Lemma key_columns_Ok (block : Block) (names : list string) :
  (forall n, n ∈ names -> is_Some (findByName block n)) ->
  exists cols, key_columns block names = Ok cols
    /\ Forall2 (fun n col => column <$> findByName block n = Some col) names cols.
Proof.
  unfold key_columns. induction names as [|n names IH]; intros Hfound.
  - exists []. split; [done|constructor].
  - destruct IH as (cols & Hcols & Hall); [intros; apply Hfound; by right|].
    destruct (Hfound n) as [c Hc]; [by left|].
    exists (column c :: cols). split.
    + apply mapM_cons_Ok; [by rewrite Hc|done].
    + constructor; [by rewrite Hc|done].
Qed.

Lemma key_tuple_row_tuple (block : Block) (names : list string) (cols : list Column) r :
  equal_rows block -> r < rows block ->
  Forall2 (fun n col => column <$> findByName block n = Some col) names cols ->
  exists V, key_tuple cols r = Ok V /\ row_tuple block names r = Some V.
Proof.
  intros Heq Hr Hall. unfold key_tuple, row_tuple.
  induction Hall as [|n col names cols Hn _ (V & HV1 & HV2)].
  - by exists [].
  - destruct (findByName block n) as [c|] eqn:Hc; [|done].
    injection Hn as <-. pose proof Hc as Hc'.
    apply findByName_elem in Hc as [Hc _].
    unfold equal_rows in Heq. rewrite Forall_forall in Heq.
    destruct (lookup_lt_is_Some_2 (column c) r) as [x Hx]; [rewrite (Heq c Hc); lia|].
    exists (x :: V). split.
    + apply mapM_cons_Ok; [by rewrite Hx|done].
    + apply mapM_cons_Some; [|done]. by rewrite Hc'.
Qed.

Lemma execute_expression_Ok (e : HashAST) (block : Block) :
  equal_rows block ->
  (forall n, n ∈ hash_arguments e -> is_Some (findByName block n)) ->
  execute_expression e block (rows block) = Ok (computed_column block e).
Proof.
  intros Heq Hfound. unfold execute_expression.
  destruct (key_columns_Ok block (hash_arguments e) Hfound) as (cols & -> & Hall). cbn.
  rewrite (mapM_Ok_map _
    (fun r => UInt8_of_bool (evaluate e (default [] (row_tuple block (hash_arguments e) r))))).
  - cbn. unfold computed_column, row_mask. by rewrite map_map.
  - intros r [_ Hr]%list_elem_of_In%in_seq. cbn in Hr.
    destruct (key_tuple_row_tuple block _ cols r Heq Hr Hall) as (V & -> & ->). done.
Qed.

Lemma execute_Ok (actions : ExpressionActions) (block : Block) :
  equal_rows block ->
  (forall e n, e ∈ hash_expressions actions -> n ∈ hash_arguments e ->
               is_Some (findByName block n)) ->
  execute actions block (rows block)
  = Ok (block ++ map (computed_column block) (hash_expressions actions)).
Proof.
  intros Heq Hfound. unfold execute.
  rewrite (mapM_Ok_map _ (computed_column block)); [done|].
  intros e He. apply execute_expression_Ok; [done|]. intros n Hn. by apply (Hfound e).
Qed.

Lemma findByName_None (block : Block) n : n ∉ getNames block -> findByName block n = None.
Proof.
  unfold findByName, getNames. induction block as [|c block IH]; intros Hn; [done|].
  cbn. destruct (String.eqb_spec (name c) n) as [E|E].
  - exfalso. apply Hn. rewrite <- E. left.
  - apply IH. intros Hin. apply Hn. by right.
Qed.

Lemma findByName_computed (block : Block) names slots a n j :
  a <= j < a + n ->
  findByName
    (map (computed_column block)
       (map (fun i => {| hash_arguments := names; hash_modulus := slots; hash_remainder := i |})
            (seq a n)))
    (getColumnName {| hash_arguments := names; hash_modulus := slots; hash_remainder := j |})
  = Some (computed_column block
            {| hash_arguments := names; hash_modulus := slots; hash_remainder := j |}).
Proof.
  unfold findByName. revert a; induction n as [|n IH]; intros a Hj; [lia|].
  cbn. destruct (String.eqb_spec
    (getColumnName {| hash_arguments := names; hash_modulus := slots; hash_remainder := a |})
    (getColumnName {| hash_arguments := names; hash_modulus := slots; hash_remainder := j |}))
    as [E|E].
  - apply getColumnName_inj in E as ->. done.
  - apply IH. destruct (decide (a = j)) as [->|]; [done|lia].
Qed.

Lemma findByName_hash_column (block : Block) names slots j :
  j < slots ->
  findByName (map (computed_column block) (hash_expression_list slots names))
    (getColumnName {| hash_arguments := names; hash_modulus := slots; hash_remainder := j |})
  = Some (computed_column block
            {| hash_arguments := names; hash_modulus := slots; hash_remainder := j |}).
Proof. intros Hj. unfold hash_expression_list. apply findByName_computed. lia. Qed.

Lemma row_mask_length e (block : Block) : length (row_mask e block) = rows block.
Proof. unfold row_mask. by rewrite length_map, length_seq. Qed.

Lemma dispatch_filters_Ok (block : Block) names slots js (acc : list Block) :
  equal_rows block ->
  (forall j, j ∈ js -> j < slots) ->
  (forall n, n ∈ map getColumnName (hash_expression_list slots names) -> n ∉ getNames block) ->
  dispatch_filters
    (map (fun j => getColumnName
                     {| hash_arguments := names; hash_modulus := slots; hash_remainder := j |}) js)
    (cloneEmpty block)
    (block ++ map (computed_column block) (hash_expression_list slots names))
    acc
  = Ok (acc ++ map (fun j => filtered_block
                    (row_mask {| hash_arguments := names; hash_modulus := slots;
                                 hash_remainder := j |} block) block) js).
Proof.
  intros Heq Hjs Hfresh. revert acc; induction js as [|j js IH]; intros acc.
  - cbn. by rewrite app_nil_r.
  - cbn [map dispatch_filters].
    assert (j < slots) as Hj by (apply Hjs; by left).
    rewrite findByName_app, findByName_None.
    2:{ apply Hfresh. apply list_elem_of_In, in_map, in_map, in_seq. lia. }
    rewrite findByName_hash_column by done. cbn.
    rewrite FilterDescription_mask. cbn.
    unfold columns, cloneEmpty. rewrite length_map.
    pose proof (filter_positions
      (row_mask {| hash_arguments := names; hash_modulus := slots; hash_remainder := j |} block)
      (countBytesInFilter (row_mask {| hash_arguments := names; hash_modulus := slots;
                                       hash_remainder := j |} block))
      block [] (map (computed_column block) (hash_expression_list slots names))) as Hpos.
    cbn [app length] in Hpos. rewrite Hpos.
    2:{ rewrite row_mask_length. exact Heq. }
    cbn. rewrite IH by (intros; apply Hjs; by right).
    by rewrite <- app_assoc.
Qed.

Lemma dispatch_Ok slots (block : Block) names :
  equal_rows block ->
  (forall n, n ∈ names -> is_Some (findByName block n)) ->
  (forall n, n ∈ hash_columns_names (hashing_spec slots names) -> n ∉ getNames block) ->
  dispatch (hashing_spec slots names) block
  = Ok (map (fun j => filtered_block
                (row_mask {| hash_arguments := names; hash_modulus := slots;
                             hash_remainder := j |} block) block) (seq 0 slots)).
Proof.
  intros Heq Hfound Hfresh. rewrite dispatch_unfold. unfold dispatchBlock.
  rewrite execute_Ok; [|done|].
  2:{ cbn. intros e n He Hn. apply Hfound.
      unfold hash_expression_list in He. apply list_elem_of_In, in_map_iff in He as (i & <- & _).
      done. }
  cbn [mbind result_bind hashing_spec hash_expression_actions hash_columns_names
       hash_expressions].
  assert (map getColumnName (hash_expression_list slots names)
          = map (fun j => getColumnName {| hash_arguments := names; hash_modulus := slots;
                                           hash_remainder := j |}) (seq 0 slots)) as ->
    by (unfold hash_expression_list; by rewrite map_map).
  rewrite dispatch_filters_Ok; [done|done| |done].
  intros j [_ Hj]%list_elem_of_In%in_seq. done.
Qed.

Lemma row_tuple_Some (block : Block) names r :
  equal_rows block ->
  (forall n, n ∈ names -> is_Some (findByName block n)) ->
  r < rows block ->
  is_Some (row_tuple block names r).
Proof.
  intros Heq Hfound Hr.
  destruct (key_columns_Ok block names Hfound) as (cols & _ & Hall).
  destruct (key_tuple_row_tuple block names cols r Heq Hr Hall) as (V & _ & ->). done.
Qed.

Lemma routed_by_mask slots (block : Block) names j :
  1 <= slots -> j < slots ->
  equal_rows block ->
  (forall n, n ∈ names -> is_Some (findByName block n)) ->
  List.filter
    (fun r => evaluate {| hash_arguments := names; hash_modulus := slots; hash_remainder := j |}
                (default [] (row_tuple block names r)))
    (seq 0 (rows block))
  = rows_routed_to (hashing_spec slots names) names block j.
Proof.
  intros Hs Hj Heq Hfound. unfold rows_routed_to.
  apply filter_ext_in. intros r [_ Hr]%in_seq. cbn in Hr.
  destruct (row_tuple_Some block names r Heq Hfound Hr) as [V ->].
  cbn -[hashing_spec routing_function evaluate].
  rewrite evaluate_shard_of, routing_function_spec by done.
  apply bool_decide_ext. rewrite list_elem_of_singleton. done.
Qed.

Lemma filtered_block_select (f : nat -> bool) (block : Block) :
  equal_rows block ->
  filtered_block (map f (seq 0 (rows block))) block
  = select_rows (List.filter f (seq 0 (rows block))) block.
Proof.
  intros Heq. unfold filtered_block, select_rows.
  apply map_ext_in. intros c Hc%list_elem_of_In.
  unfold equal_rows in Heq. rewrite Forall_forall in Heq.
  rewrite <- (Heq c Hc). f_equal.
  apply (filter_by_mask_select f (column c) []).
Qed.

Lemma filter_seq_sorted (f : nat -> bool) a n : StronglySorted lt (List.filter f (seq a n)).
Proof.
  revert a; induction n as [|n IH]; intros a; cbn; [constructor|].
  destruct (f a); [|apply IH].
  constructor; [apply IH|].
  apply Forall_forall. intros r [Hr%in_seq _]%list_elem_of_In%filter_In. lia.
Qed.

Lemma rows_routed_to_elem slots (block : Block) names i r :
  1 <= slots ->
  r ∈ rows_routed_to (hashing_spec slots names) names block i
  <-> r < rows block /\ exists V, row_tuple block names r = Some V /\ i = shard_of slots V.
Proof.
  intros Hs. unfold rows_routed_to.
  rewrite list_elem_of_In, filter_In, in_seq.
  destruct (row_tuple block names r) as [V|].
  - rewrite routing_function_spec by done.
    rewrite bool_decide_eq_true, list_elem_of_singleton.
    split.
    + intros [[_ Hr] ->]. split; [done|]. by exists V.
    + intros [Hr (V' & [= <-] & ->)]. split; [|done]. lia.
  - split; [by intros [_ ?]|]. by intros [_ (V & ? & _)].
Qed.

Lemma select_rows_names_and_types rs (block : Block) :
  getNamesAndTypesList (select_rows rs block) = getNamesAndTypesList block.
Proof. unfold getNamesAndTypesList, select_rows. by rewrite map_map. Qed.

Lemma dispatch_selects slots (block : Block) names :
  1 <= slots ->
  equal_rows block ->
  (forall n, n ∈ names -> is_Some (findByName block n)) ->
  (forall n, n ∈ hash_columns_names (hashing_spec slots names) -> n ∉ getNames block) ->
  dispatch (hashing_spec slots names) block
  = Ok (map (fun i => select_rows
                        (rows_routed_to (hashing_spec slots names) names block i) block)
            (seq 0 slots)).
Proof.
  intros Hs Heq Hfound Hfresh. rewrite dispatch_Ok by done. f_equal.
  apply map_ext_in. intros i [_ Hi]%in_seq.
  unfold row_mask. cbn [hash_arguments].
  rewrite filtered_block_select by done. f_equal. by apply routed_by_mask.
Qed.

(** The sub-blocks as lists of rows of the block: the list of a shard holds
    the rows whose key tuple hashes to the shard. *)
Lemma dispatch_row_lists slots (block : Block) names :
  1 <= slots ->
  equal_rows block ->
  (forall n, n ∈ names -> is_Some (findByName block n)) ->
  (forall n, n ∈ hash_columns_names (hashing_spec slots names) -> n ∉ getNames block) ->
  exists lists,
    dispatch (hashing_spec slots names) block
    = Ok (map (fun rs => select_rows rs block) lists)
    /\ length lists = slots
    /\ forall i rs r V,
         lists !! i = Some rs -> r < rows block -> row_tuple block names r = Some V ->
         r ∈ rs <-> i = shard_of slots V.
Proof.
  intros Hs Heq Hfound Hfresh.
  exists (map (rows_routed_to (hashing_spec slots names) names block) (seq 0 slots)).
  split; [by rewrite dispatch_selects, map_map|].
  split; [by rewrite length_map, length_seq|].
  intros i rs r V Hrs Hr HV.
  change (map ?f ?l) with (f <$> l) in Hrs. rewrite list_lookup_fmap in Hrs.
  destruct (seq 0 slots !! i) as [k|] eqn:Hk; [|done].
  apply lookup_seq in Hk as [-> _]. injection Hrs as <-. cbn [Nat.add].
  rewrite rows_routed_to_elem by done. split.
  - intros (_ & V' & HV' & ->). congruence.
  - intros ->. split; [done|]. by exists V.
Qed.

(** C2. For a shard count of at least one and a routing spec built from
    key names whose text the parser read as the hash expressions over
    [columns], dispatching a block (equal column lengths, the columns
    [columns] present, no column named like a computed hash column) returns
    exactly [slots] sub-blocks.  Sub-block [i] is the block restricted to
    the rows the routing function assigns to shard [i], in their original
    order, with the names and types of the block; every row of the block is
    assigned to exactly one shard; and a block without rows gives [slots]
    empty blocks with the columns of the input. *)
Theorem dispatch_partitions (slots : nat) (sample block : Block)
    (names columns : list string) :
  1 <= slots ->
  reads_as slots names columns ->
  equal_rows block ->
  (forall n, n ∈ columns -> is_Some (findByName block n)) ->
  (forall n, n ∈ hash_columns_names (routing_spec slots sample names) -> n ∉ getNames block) ->
  exists subs,
    dispatch (routing_spec slots sample names) block = Ok subs
    /\ length subs = slots
    /\ (forall i, i < slots ->
          subs !! i
          = Some (select_rows
                    (rows_routed_to (routing_spec slots sample names) columns block i) block))
    /\ (forall r, r < rows block ->
          exists i, i < slots
            /\ r ∈ rows_routed_to (routing_spec slots sample names) columns block i
            /\ forall i', r ∈ rows_routed_to (routing_spec slots sample names) columns block i' ->
                         i' = i)
    /\ (forall i r, r ∈ rows_routed_to (routing_spec slots sample names) columns block i ->
                    r < rows block)
    /\ (forall i, StronglySorted lt
                    (rows_routed_to (routing_spec slots sample names) columns block i))
    /\ (forall i sub, subs !! i = Some sub ->
                      getNamesAndTypesList sub = getNamesAndTypesList block)
    /\ (rows block = 0 -> subs = replicate slots (cloneEmpty block)).
Proof.
  intros Hs Hreads Heq Hfound Hfresh.
  rewrite (routing_spec_reads slots sample names columns Hreads) in *.
  assert (forall i, i < slots ->
            filtered_block
              (row_mask {| hash_arguments := columns; hash_modulus := slots;
                           hash_remainder := i |} block) block
            = select_rows (rows_routed_to (hashing_spec slots columns) columns block i)
                          block) as Hsub.
  { intros i Hi. unfold row_mask. cbn [hash_arguments].
    rewrite filtered_block_select by done. f_equal. by apply routed_by_mask. }
  eexists. split; [by apply dispatch_Ok|].
  assert (forall i, i < slots ->
            map (fun j => filtered_block
                   (row_mask {| hash_arguments := columns; hash_modulus := slots;
                                hash_remainder := j |} block) block) (seq 0 slots) !! i
            = Some (select_rows
                      (rows_routed_to (hashing_spec slots columns) columns block i) block))
    as Hlookup.
  { intros i Hi. change (map ?f ?l) with (f <$> l).
    rewrite list_lookup_fmap, lookup_seq_lt by done. cbn. f_equal. by apply Hsub. }
  split; [by rewrite length_map, length_seq|].
  split; [done|].
  split.
  { intros r Hr. destruct (row_tuple_Some block columns r Heq Hfound Hr) as [V HV].
    exists (shard_of slots V). split; [by apply shard_of_lt|]. split.
    - apply rows_routed_to_elem; [done|]. split; [done|]. by exists V.
    - intros i' (_ & V' & HV' & ->)%rows_routed_to_elem; [|done]. congruence. }
  split; [intros i r Hr%rows_routed_to_elem; [tauto|done]|].
  split; [intros i; apply filter_seq_sorted|].
  split.
  { intros i sub Hi.
    assert (i < slots) as Hlt.
    { apply lookup_lt_Some in Hi. by rewrite length_map, length_seq in Hi. }
    rewrite Hlookup in Hi by done. injection Hi as <-.
    apply select_rows_names_and_types. }
  intros Hrows. apply list_eq. intros i.
  destruct (decide (i < slots)) as [Hi|Hi].
  - rewrite Hlookup by done. rewrite lookup_replicate_2 by done. f_equal.
    unfold rows_routed_to. rewrite Hrows. done.
  - rewrite !lookup_ge_None_2; [done|rewrite length_replicate; lia|].
    rewrite length_map, length_seq. lia.
Qed.

End Dispatch.

(** ** The two sides *)

Section Sides.
Context `{Functions} {HashJoin : Type} `{!LocalJoinEngine HashJoin}.

(** C1. For a shard count of at least one, when the parser read the text
    written for the key names of either side as the hash expressions over
    the columns of that side, the constructor returns a coordinator whose
    build-side and probe-side routing specs send every key tuple to the same
    single shard, an index below the shard count.  For blocks this means: a
    row of a probe block and a row of a build block whose key columns hold
    the same tuple are dispatched into the sub-blocks of that one index, the
    probe row by the probe-side spec and the build row by the build-side
    spec, and into no other sub-block. *)
Theorem routing_build_probe_agree (table_join_ : TableJoin) (slots_ : nat)
    (left_sample_block right_sample_block : Block) (any_take_last_row_ : bool)
    (columns_left columns_right : list string) (V : list Field) :
  1 <= slots_ ->
  reads_as slots_ (key_names_left (first_clause table_join_)) columns_left ->
  reads_as slots_ (key_names_right (first_clause table_join_)) columns_right ->
  exists (this : ConcurrentHashJoin HashJoin) build probe shard,
    ConcurrentHashJoin_new table_join_ slots_ left_sample_block right_sample_block
      any_take_last_row_ = Ok this
    /\ dispatch_datas this !! 1 = Some build
    /\ dispatch_datas this !! 0 = Some probe
    /\ shard < slots_
    /\ routing_function build V = [shard]
    /\ routing_function probe V = [shard]
    /\ forall (probe_block build_block : Block) (probe_row build_row : nat),
         equal_rows probe_block ->
         equal_rows build_block ->
         (forall n, n ∈ columns_left -> is_Some (findByName probe_block n)) ->
         (forall n, n ∈ columns_right -> is_Some (findByName build_block n)) ->
         (forall n, n ∈ hash_columns_names probe -> n ∉ getNames probe_block) ->
         (forall n, n ∈ hash_columns_names build -> n ∉ getNames build_block) ->
         probe_row < rows probe_block ->
         build_row < rows build_block ->
         row_tuple probe_block columns_left probe_row = Some V ->
         row_tuple build_block columns_right build_row = Some V ->
         exists probe_lists build_lists,
           dispatch probe probe_block
           = Ok (map (fun rs => select_rows rs probe_block) probe_lists)
           /\ dispatch build build_block
              = Ok (map (fun rs => select_rows rs build_block) build_lists)
           /\ length probe_lists = slots_
           /\ length build_lists = slots_
           /\ (forall i rs, probe_lists !! i = Some rs -> probe_row ∈ rs <-> i = shard)
           /\ (forall i rs, build_lists !! i = Some rs -> build_row ∈ rs <-> i = shard).
Proof.
  intros Hs Hleft Hright.
  exists {| table_join := table_join_;
            slots := slots_;
            hash_joins :=
              replicate slots_
                {| mutex := Free;
                   data := HashJoin_new table_join_ right_sample_block any_take_last_row_ |};
            totals_mutex := Free;
            totals := [];
            dispatch_datas :=
              [ hashing_spec slots_ columns_left; hashing_spec slots_ columns_right ] |},
         (hashing_spec slots_ columns_right), (hashing_spec slots_ columns_left),
         (shard_of slots_ V).
  split.
  { rewrite ConcurrentHashJoin_new_Ok by done.
    by rewrite (routing_spec_reads _ _ _ _ Hleft), (routing_spec_reads _ _ _ _ Hright). }
  split; [done|]. split; [done|]. split; [by apply shard_of_lt|].
  split; [by apply routing_function_spec|]. split; [by apply routing_function_spec|].
  intros probe_block build_block probe_row build_row Heqp Heqb Hfoundp Hfoundb Hfreshp Hfreshb
         Hrp Hrb HVp HVb.
  destruct (dispatch_row_lists slots_ probe_block columns_left Hs Heqp Hfoundp Hfreshp)
    as (probe_lists & Hprobe & Hlenp & Hinp).
  destruct (dispatch_row_lists slots_ build_block columns_right Hs Heqb Hfoundb Hfreshb)
    as (build_lists & Hbuild & Hlenb & Hinb).
  exists probe_lists, build_lists.
  split; [done|]. split; [done|]. split; [done|]. split; [done|]. split.
  - intros i rs Hrs. by apply (Hinp i rs probe_row V).
  - intros i rs Hrs. by apply (Hinb i rs build_row V).
Qed.

End Sides.

(** ** The build path *)

Section Build.
Context `{Functions} {HashJoin : Type} `{!LocalJoinEngine HashJoin}.

Lemma shard_trace_other i ev events :
  event_shard ev <> i -> shard_trace i (ev :: events) = shard_trace i events.
Proof.
  intros Hne. unfold shard_trace. cbn [List.filter].
  by rewrite (proj2 (Nat.eqb_neq _ _) Hne).
Qed.

Lemma shard_trace_here i ev events :
  event_shard ev = i -> shard_trace i (ev :: events) = ev :: shard_trace i events.
Proof. intros <-. unfold shard_trace. cbn [List.filter]. by rewrite Nat.eqb_refl. Qed.

Lemma shard_trace_app i events later :
  shard_trace i (events ++ later) = shard_trace i events ++ shard_trace i later.
Proof. unfold shard_trace. apply List.filter_app. Qed.

Lemma shard_trace_elem i ev events : ev ∈ shard_trace i events <-> ev ∈ events /\ event_shard ev = i.
Proof.
  unfold shard_trace. rewrite !list_elem_of_In, filter_In, Nat.eqb_eq. done.
Qed.

(** One pass over a worklist of distinct shards: every free shard gets its
    block and leaves the list, every other shard is tried once, in vain,
    and stays. *)
Lemma scan_pending_spec check_limits (dispatched_blocks : list Block) pending
    (hash_joins : list (InternalHashJoin HashJoin)) :
  NoDup pending ->
  (forall i, i ∈ pending -> i < length hash_joins /\ i < length dispatched_blocks) ->
  exists rest hash_joins' events,
    scan_pending check_limits dispatched_blocks pending hash_joins
    = Ok (rest, hash_joins', events)
    /\ length hash_joins' = length hash_joins
    /\ NoDup rest
    /\ (forall j, j ∈ rest -> j ∈ pending)
    /\ (forall j, j ∉ pending ->
          hash_joins' !! j = hash_joins !! j /\ shard_trace j events = [])
    /\ (forall i hash_join db,
          i ∈ pending -> hash_joins !! i = Some hash_join -> dispatched_blocks !! i = Some db ->
          if bool_decide (mutex hash_join = Free)
          then ((i ∉ rest)
               /\ hash_joins' !! i
                  = Some {| mutex := Free;
                            data := HashJoin_addJoinedBlock (data hash_join) db check_limits |}
               /\ shard_trace i events
                  = [Acquired i; Inserted i db check_limits; Released i])
          else ((i ∈ rest)
               /\ hash_joins' !! i
                  = Some {| mutex := snd (try_lock (mutex hash_join)); data := data hash_join |}
               /\ shard_trace i events = [TryLockFailed i])).
Proof.
  intros Hnd; revert hash_joins; induction Hnd as [|i pending Hi Hnd IH]; intros hash_joins Hin.
  { exists [], hash_joins, []. repeat split; try done; [constructor|].
    intros i ? ? Hi. by inversion Hi. }
  destruct (Hin i) as [Hi1 Hi2]; [by left|].
  destruct (lookup_lt_is_Some_2 _ _ Hi1) as [hash_join Hhj].
  destruct (lookup_lt_is_Some_2 _ _ Hi2) as [db Hdb].
  cbn [scan_pending]. rewrite Hhj, Hdb. cbn [or_else mbind result_bind].
  destruct (try_lock (mutex hash_join)) as [acquired m] eqn:Htry.
  destruct acquired.
  - assert (mutex hash_join = Free) as Hfree
      by (destruct (mutex hash_join) as [| |[|n]]; by cbn in Htry).
    set (updated := <[i := {| mutex := unlock m;
                             data := HashJoin_addJoinedBlock (data hash_join) db check_limits |}]>
                    hash_joins).
    destruct (IH updated) as (rest & hash_joins' & events & -> & Hlen & Hnd' & Hsub & Hout & Hpend).
    { intros j Hj. unfold updated. rewrite length_insert. apply Hin. by right. }
    cbn [mbind result_bind mret result_ret].
    eexists _, _, _. split; [done|].
    split; [by rewrite Hlen; unfold updated; rewrite length_insert|].
    split; [done|].
    split; [intros j Hj; right; by apply Hsub|].
    split.
    + intros j Hj. apply not_elem_of_cons in Hj as [Hne Hj].
      destruct (Hout j Hj) as [-> Hev]. unfold updated.
      rewrite list_lookup_insert_ne by done. split; [done|].
      rewrite !shard_trace_other by (cbn; congruence). done.
    + intros k hj' db' Hk Hhj' Hdb'. apply elem_of_cons in Hk as [->|Hk].
      * rewrite Hhj in Hhj'. rewrite Hdb in Hdb'. simplify_eq.
        rewrite bool_decide_eq_true_2 by done.
        destruct (Hout i Hi) as [-> Hev]. unfold updated.
        rewrite list_lookup_insert_eq by done.
        split; [intros Hr; apply Hi; by apply Hsub|].
        split; [done|]. by rewrite !shard_trace_here, Hev.
      * assert (k <> i) as Hne by (intros ->; done).
        specialize (Hpend k hj' db' Hk).
        unfold updated in Hpend. rewrite list_lookup_insert_ne in Hpend by done.
        specialize (Hpend Hhj' Hdb').
        rewrite !shard_trace_other by (cbn; congruence).
        done.
  - assert (mutex hash_join <> Free) as Hbusy by (intros E; rewrite E in Htry; done).
    set (updated := <[i := {| mutex := m; data := data hash_join |}]> hash_joins).
    destruct (IH updated) as (rest & hash_joins' & events & -> & Hlen & Hnd' & Hsub & Hout & Hpend).
    { intros j Hj. unfold updated. rewrite length_insert. apply Hin. by right. }
    cbn [mbind result_bind mret result_ret].
    eexists _, _, _. split; [done|].
    split; [by rewrite Hlen; unfold updated; rewrite length_insert|].
    split; [constructor; [intros Hr; apply Hi; by apply Hsub|done]|].
    split; [intros j [->|Hj]%elem_of_cons; [left|right; by apply Hsub]|].
    split.
    + intros j Hj. apply not_elem_of_cons in Hj as [Hne Hj].
      destruct (Hout j Hj) as [-> Hev]. unfold updated.
      rewrite list_lookup_insert_ne by done. split; [done|].
      by rewrite shard_trace_other by (cbn; congruence).
    + intros k hj' db' Hk Hhj' Hdb'. apply elem_of_cons in Hk as [->|Hk].
      * rewrite Hhj in Hhj'. rewrite Hdb in Hdb'. simplify_eq.
        rewrite bool_decide_eq_false_2 by done.
        destruct (Hout i Hi) as [-> Hev]. unfold updated.
        rewrite list_lookup_insert_eq by done.
        split; [left|]. rewrite Htry. split; [done|].
        by rewrite shard_trace_here, Hev.
      * assert (k <> i) as Hne by (intros ->; done).
        specialize (Hpend k hj' db' Hk).
        unfold updated in Hpend. rewrite list_lookup_insert_ne in Hpend by done.
        specialize (Hpend Hhj' Hdb').
        rewrite shard_trace_other by (cbn; congruence).
        destruct (bool_decide (mutex hj' = Free));
          [|by destruct Hpend as (? & ? & ?); repeat split; try right].
        destruct Hpend as (Hr & ? & ?). repeat split; try done.
        intros [->|Hr']%elem_of_cons; done.
Qed.

Lemma try_lock_patience (m : Mutex) p :
  m <> Free -> m <> Locked -> patience m <= S p ->
  snd (try_lock m) <> Locked /\ patience (snd (try_lock m)) <= p.
Proof.
  destruct m as [| |[|n]]; cbn; intros ? ? ?; try done.
  - split; [done|lia].
  - split; [done|lia].
Qed.

Lemma try_lock_waits (m : Mutex) :
  m <> Free -> m <> Locked -> patience m = S (patience (snd (try_lock m))).
Proof. by destruct m as [| |[|n]]. Qed.

(** A pass followed by the draining of what the pass left. *)
Lemma insert_pending_pass check_limits (dispatched_blocks : list Block) pending
    (hash_joins : list (InternalHashJoin HashJoin)) rest hash_joins1 events1
    hash_joins' events2 k :
  scan_pending check_limits dispatched_blocks pending hash_joins
  = Ok (rest, hash_joins1, events1) ->
  (forall fuel, k <= fuel ->
     insert_pending fuel check_limits dispatched_blocks rest hash_joins1
     = Ok (hash_joins', events2)) ->
  forall fuel, S k <= fuel ->
    insert_pending fuel check_limits dispatched_blocks pending hash_joins
    = Ok (hash_joins', match pending with [] => [] | _ => events1 ++ events2 end).
Proof.
  intros Hscan Hrest fuel Hfuel.
  destruct fuel as [|fuel]; [lia|].
  destruct pending as [|i pending].
  - unfold scan_pending, mret, result_ret in Hscan. simplify_eq.
    specialize (Hrest (S fuel)). unfold insert_pending, mret, result_ret in Hrest.
    assert (k <= S fuel) as Hk by lia. specialize (Hrest Hk). by injection Hrest as <- <-.
  - cbn [insert_pending]. rewrite Hscan. cbn [mbind result_bind].
    rewrite Hrest by lia. done.
Qed.

Lemma insert_pending_spec check_limits (dispatched_blocks : list Block) p :
  forall pending (hash_joins : list (InternalHashJoin HashJoin)),
  NoDup pending ->
  (forall i, i ∈ pending -> i < length hash_joins /\ i < length dispatched_blocks) ->
  (forall i hash_join, i ∈ pending -> hash_joins !! i = Some hash_join ->
     mutex hash_join <> Locked /\ patience (mutex hash_join) <= p) ->
  exists hash_joins' events,
    (forall fuel, S p <= fuel ->
       insert_pending fuel check_limits dispatched_blocks pending hash_joins
       = Ok (hash_joins', events))
    /\ drained check_limits dispatched_blocks pending hash_joins hash_joins' events.
Proof.
  induction p as [|p IH]; intros pending hash_joins Hnd Hin Hpat;
    destruct (scan_pending_spec check_limits dispatched_blocks pending hash_joins Hnd Hin)
      as (rest & hash_joins1 & events1 & Hscan & Hlen & Hnd1 & Hsub & Hout & Hpend).
  - (* every guard is free: one pass empties the worklist *)
    assert (rest = []) as ->.
    { destruct rest as [|i rest]; [done|]. exfalso.
      assert (i ∈ pending) as Hi by (apply Hsub; left).
      destruct (Hin i Hi) as [Hi1 Hi2].
      destruct (lookup_lt_is_Some_2 _ _ Hi1) as [hj Hhj].
      destruct (lookup_lt_is_Some_2 _ _ Hi2) as [db Hdb].
      specialize (Hpend i hj db Hi Hhj Hdb). destruct (Hpat i hj Hi Hhj) as [Hnl Hp].
      assert (mutex hj = Free) as Hfree by (destruct (mutex hj); [done|done|cbn in Hp; lia]).
      rewrite bool_decide_eq_true_2 in Hpend by done. destruct Hpend as [Hni _].
      apply Hni. left. }
    exists hash_joins1, (match pending with [] => [] | _ => events1 ++ [] end).
    split.
    { apply (insert_pending_pass _ _ _ _ _ _ _ _ _ 0 Hscan). intros fuel _. by destruct fuel. }
    assert (match pending with [] => [] | _ => events1 ++ [] end = events1) as ->.
    { destruct pending; [|by rewrite app_nil_r].
      unfold scan_pending, mret, result_ret in Hscan. by simplify_eq. }
    split; [done|]. split; [done|].
    intros i hj db Hi Hhj Hdb.
    specialize (Hpend i hj db Hi Hhj Hdb). destruct (Hpat i hj Hi Hhj) as [Hnl Hp].
    assert (mutex hj = Free) as Hfree by (destruct (mutex hj); [done|done|cbn in Hp; lia]).
    rewrite bool_decide_eq_true_2 in Hpend by done. rewrite Hfree.
    by destruct Hpend as (_ & ? & ?).
  - destruct (IH rest hash_joins1) as (hash_joins' & events2 & Hrun & Hlen2 & Hout2 & Hpend2).
    { done. }
    { intros i Hi. rewrite Hlen. apply Hin. by apply Hsub. }
    { intros i hj1 Hi Hhj1.
      assert (i ∈ pending) as Hi' by by apply Hsub.
      destruct (Hin i Hi') as [Hi1 Hi2].
      destruct (lookup_lt_is_Some_2 _ _ Hi1) as [hj Hhj].
      destruct (lookup_lt_is_Some_2 _ _ Hi2) as [db Hdb].
      specialize (Hpend i hj db Hi' Hhj Hdb). destruct (Hpat i hj Hi' Hhj) as [Hnl Hp].
      destruct (decide (mutex hj = Free)) as [Hfree|Hbusy].
      - rewrite bool_decide_eq_true_2 in Hpend by done. by destruct Hpend as [Hni _].
      - rewrite bool_decide_eq_false_2 in Hpend by done. destruct Hpend as (_ & Hhj1' & _).
        rewrite Hhj1 in Hhj1'. injection Hhj1' as ->. cbn [mutex].
        by apply try_lock_patience. }
    exists hash_joins', (match pending with [] => [] | _ => events1 ++ events2 end).
    split; [by apply (insert_pending_pass _ _ _ _ _ _ _ _ _ (S p) Hscan)|].
    assert (forall j, shard_trace j (match pending with [] => [] | _ => events1 ++ events2 end)
                      = shard_trace j events1 ++ shard_trace j events2) as Hev.
    { intros j. destruct pending; [|apply shard_trace_app].
      unfold scan_pending, mret, result_ret in Hscan. simplify_eq.
      destruct (Hout2 j) as [_ ->]; [by intros ?%elem_of_nil|done]. }
    split; [by rewrite Hlen2|]. split.
    + intros j Hj. destruct (Hout j Hj) as [<- Hev1].
      destruct (Hout2 j) as [-> Hev2]; [intros Hr; by apply Hj, Hsub|].
      by rewrite Hev, Hev1, Hev2.
    + intros i hj db Hi Hhj Hdb. rewrite Hev.
      specialize (Hpend i hj db Hi Hhj Hdb).
      destruct (decide (mutex hj = Free)) as [Hfree|Hbusy].
      * rewrite bool_decide_eq_true_2 in Hpend by done. destruct Hpend as (Hni & Hhj1 & ->).
        destruct (Hout2 i Hni) as [-> ->]. by rewrite Hfree, app_nil_r.
      * rewrite bool_decide_eq_false_2 in Hpend by done. destruct Hpend as (Hir & Hhj1 & ->).
        destruct (Hpend2 i _ db Hir Hhj1 Hdb) as [-> ->]. cbn [mutex data].
        destruct (Hpat i hj Hi Hhj) as [Hnl _].
        by rewrite (try_lock_waits (mutex hj) Hbusy Hnl).
Qed.

(** When the loop comes to an end, the worklist is empty and the passes
    have left the shards and the events that it returns. *)
Lemma insert_pending_run_passes check_limits (dispatched_blocks : list Block) fuel :
  forall pending (hash_joins hash_joins' : list (InternalHashJoin HashJoin)) events,
  insert_pending fuel check_limits dispatched_blocks pending hash_joins
  = Ok (hash_joins', events) ->
  run_passes fuel check_limits dispatched_blocks pending hash_joins
  = ([], hash_joins', events).
Proof.
  induction fuel as [|fuel IH]; intros pending hash_joins hash_joins' events.
  { destruct pending; [|done]. unfold insert_pending, mret, result_ret. by intros [= <- <-]. }
  destruct pending as [|i pending].
  { unfold insert_pending, mret, result_ret. by intros [= <- <-]. }
  cbn [insert_pending run_passes].
  destruct (scan_pending _ _ (i :: pending) _) as [[[r h] e]| | |]; try done.
  cbn [mbind result_bind].
  destruct (insert_pending fuel _ _ r h) as [[h' e']| | |] eqn:Hrest; try done.
  cbn [mbind result_bind]. unfold mret, result_ret. intros [= <- <-].
  by rewrite (IH r h h' e' Hrest).
Qed.

(** A guard that is never released keeps the loop going whatever the
    number of passes. *)
Lemma insert_pending_locked_spins check_limits (dispatched_blocks : list Block) fuel :
  forall pending (hash_joins : list (InternalHashJoin HashJoin)) i hash_join,
  NoDup pending ->
  (forall j, j ∈ pending -> j < length hash_joins /\ j < length dispatched_blocks) ->
  i ∈ pending -> hash_joins !! i = Some hash_join -> mutex hash_join = Locked ->
  insert_pending fuel check_limits dispatched_blocks pending hash_joins = Spinning.
Proof.
  induction fuel as [|fuel IH]; intros pending hash_joins i hash_join Hnd Hin Hi Hhj Hlocked.
  - destruct pending; [by apply elem_of_nil in Hi|done].
  - destruct (scan_pending_spec check_limits dispatched_blocks pending hash_joins Hnd Hin)
      as (rest & hash_joins1 & events1 & Hscan & Hlen & Hnd1 & Hsub & Hout & Hpend).
    destruct (Hin i Hi) as [_ Hi2].
    destruct (lookup_lt_is_Some_2 _ _ Hi2) as [db Hdb].
    specialize (Hpend i hash_join db Hi Hhj Hdb).
    rewrite bool_decide_eq_false_2 in Hpend by (rewrite Hlocked; done).
    destruct Hpend as (Hir & Hhj1 & _).
    destruct pending as [|j pending]; [by apply elem_of_nil in Hi|].
    cbn [insert_pending]. rewrite Hscan. cbn [mbind result_bind].
    rewrite (IH rest hash_joins1 i _ Hnd1 (fun k Hk =>
               eq_ind_r (fun n => k < n /\ k < length dispatched_blocks)
                        (Hin k (Hsub k Hk)) Hlen) Hir Hhj1); [done|].
    cbn. by rewrite Hlocked.
Qed.

(** C3. When dispatch has gone through, there is one shard per sub-block
    and no guard is held for good, [addJoinedBlock] comes back once the
    passes outnumber the failed attempts that the busiest guard takes.  By
    then every shard is free and the engine of shard [i] has received
    sub-block [i].  At shard [i] this is all that happened, in this order:
    the attempts on the guard failed for as long as the guard was held
    elsewhere, the guard was taken, sub-block [i] was inserted, the guard
    was released; so no sub-block is left out, none is inserted twice, and
    none is inserted without the guard.  Nothing happened at a shard that has
    no sub-block. *)
Theorem addJoinedBlock_inserts_once (this : ConcurrentHashJoin HashJoin) (block : Block)
    (check_limits : bool) dispatch_data (dispatched_blocks : list Block) :
  dispatch_datas this !! 1 = Some dispatch_data ->
  dispatch dispatch_data block = Ok dispatched_blocks ->
  length (hash_joins this) = length dispatched_blocks ->
  (forall hash_join, hash_join ∈ hash_joins this -> mutex hash_join <> Locked) ->
  exists after events,
    (forall fuel,
       S (max_list (map (fun hash_join => patience (mutex hash_join)) (hash_joins this))) <= fuel ->
       snd (addJoinedBlock fuel this block check_limits) = after
       /\ addJoinedBlock_events fuel this block check_limits = events
       /\ fst (addJoinedBlock fuel this block check_limits) <> Spinning)
    /\ length (hash_joins after) = length (hash_joins this)
    /\ (forall i hash_join db,
          hash_joins this !! i = Some hash_join ->
          dispatched_blocks !! i = Some db ->
          hash_joins after !! i
          = Some {| mutex := Free;
                    data := HashJoin_addJoinedBlock (data hash_join) db check_limits |}
          /\ shard_trace i events
             = replicate (patience (mutex hash_join)) (TryLockFailed i)
               ++ [Acquired i; Inserted i db check_limits; Released i])
    /\ (forall ev, ev ∈ events -> event_shard ev < length dispatched_blocks).
Proof.
  intros Hdd Hdispatch Hlen Hfree.
  destruct (insert_pending_spec check_limits dispatched_blocks
              (max_list (map (fun hash_join => patience (mutex hash_join)) (hash_joins this)))
              (seq 0 (length dispatched_blocks)) (hash_joins this))
    as (hash_joins' & events & Hrun & Hlen' & Hout & Hpend).
  - apply NoDup_seq.
  - intros i [_ Hi]%list_elem_of_In%in_seq. lia.
  - intros i hash_join _ Hhj. split.
    + apply Hfree. by eapply list_elem_of_lookup_2.
    + apply max_list_elem_of_le, list_elem_of_In.
      apply (in_map (fun hash_join => patience (mutex hash_join))).
      apply list_elem_of_In. by eapply list_elem_of_lookup_2.
  - exists (with_hash_joins this hash_joins'), events. split; [|split; [done|split]].
    + intros fuel Hfuel.
      unfold addJoinedBlock, addJoinedBlock_events, addJoinedBlock_traced.
      rewrite Hdd. cbn [or_else mbind result_bind]. rewrite Hdispatch, (Hrun fuel Hfuel).
      cbn [fst snd]. split; [done|]. split; [done|].
      destruct check_limits; [|done].
      unfold SizeLimits_check. by repeat destruct (exceeds _ _).
    + intros i hash_join db Hhj Hdb. apply Hpend; [|done|done].
      apply list_elem_of_In, in_seq. apply lookup_lt_Some in Hdb. lia.
    + intros ev Hev.
      destruct (decide (event_shard ev < length dispatched_blocks)) as [|Hout']; [done|].
      exfalso. destruct (Hout (event_shard ev)) as [_ Hnone].
      { intros [_ ?]%list_elem_of_In%in_seq. lia. }
      assert (ev ∈ shard_trace (event_shard ev) events) as Hin
        by by apply shard_trace_elem.
      rewrite Hnone in Hin. by apply elem_of_nil in Hin.
Qed.

End Build.

(** ** The probe path *)

Section Probe.
Context `{Functions} {HashJoin : Type} `{!LocalJoinEngine HashJoin}.

Lemma probe_shards_step i rest (hash_joins : list (InternalHashJoin HashJoin))
    (dispatched_blocks : list Block) hash_join db :
  hash_joins !! i = Some hash_join ->
  dispatched_blocks !! i = Some db ->
  probe_shards (i :: rest) hash_joins dispatched_blocks
  = if leaves_unprocessed hash_join db
    then (Throw LOGICAL_ERROR "not_processed should be empty",
          <[i := probe_engine hash_join db]> hash_joins)
    else probe_shards rest (<[i := probe_engine hash_join db]> hash_joins)
                      (<[i := probe_output hash_join db]> dispatched_blocks).
Proof.
  intros Hhj Hdb. cbn [probe_shards]. rewrite Hhj, Hdb.
  unfold leaves_unprocessed, probe_engine, probe_output.
  by destruct (HashJoin_joinBlock (data hash_join) db) as [[data' joined] extra].
Qed.

(** The probes go through when no shard leaves rows unprocessed. *)
Lemma probe_shards_Ok indices :
  forall (hash_joins : list (InternalHashJoin HashJoin)) (dispatched_blocks : list Block),
  NoDup indices ->
  (forall i, i ∈ indices -> i < length hash_joins /\ i < length dispatched_blocks) ->
  (forall i hash_join db, i ∈ indices -> hash_joins !! i = Some hash_join ->
     dispatched_blocks !! i = Some db -> leaves_unprocessed hash_join db = false) ->
  exists outs hash_joins',
    probe_shards indices hash_joins dispatched_blocks = (Ok outs, hash_joins')
    /\ length outs = length dispatched_blocks
    /\ length hash_joins' = length hash_joins
    /\ (forall j, j ∉ indices ->
          outs !! j = dispatched_blocks !! j /\ hash_joins' !! j = hash_joins !! j)
    /\ (forall i hash_join db, i ∈ indices -> hash_joins !! i = Some hash_join ->
          dispatched_blocks !! i = Some db ->
          outs !! i = Some (probe_output hash_join db)
          /\ hash_joins' !! i = Some (probe_engine hash_join db)).
Proof.
  induction indices as [|i indices IH]; intros hash_joins dispatched_blocks Hnd Hin Hclean.
  { exists dispatched_blocks, hash_joins.
    split; [done|]. split; [done|]. split; [done|]. split; [done|].
    intros k ? ? Hk. by apply elem_of_nil in Hk. }
  apply NoDup_cons in Hnd as [Hi Hnd].
  destruct (Hin i) as [Hi1 Hi2]; [by left|].
  destruct (lookup_lt_is_Some_2 _ _ Hi1) as [hash_join Hhj].
  destruct (lookup_lt_is_Some_2 _ _ Hi2) as [db Hdb].
  rewrite (probe_shards_step i indices _ _ _ _ Hhj Hdb).
  rewrite (Hclean i hash_join db) by (done || left).
  destruct (IH (<[i := probe_engine hash_join db]> hash_joins)
               (<[i := probe_output hash_join db]> dispatched_blocks))
    as (outs & hash_joins' & -> & Hlen1 & Hlen2 & Hout & Hidx).
  - done.
  - intros j Hj. rewrite !length_insert. apply Hin. by right.
  - intros j hj' db' Hj Hhj' Hdb'.
    assert (j <> i) as Hne by (intros ->; done).
    rewrite list_lookup_insert_ne in Hhj' by done.
    rewrite list_lookup_insert_ne in Hdb' by done.
    apply (Hclean j); [by right|done|done].
  - exists outs, hash_joins'. split; [done|].
    rewrite length_insert in Hlen1. rewrite length_insert in Hlen2.
    split; [done|]. split; [done|]. split.
    + intros j [Hne Hj]%not_elem_of_cons. destruct (Hout j Hj) as [-> ->].
      by rewrite !list_lookup_insert_ne.
    + intros j hj' db' [->|Hj]%elem_of_cons Hhj' Hdb'.
      * rewrite Hhj in Hhj'. rewrite Hdb in Hdb'. simplify_eq.
        destruct (Hout i Hi) as [-> ->]. by rewrite !list_lookup_insert_eq.
      * assert (j <> i) as Hne by (intros ->; done).
        apply Hidx; [done|by rewrite list_lookup_insert_ne|by rewrite list_lookup_insert_ne].
Qed.

(** The probes stop with a logical error as soon as a shard leaves rows
    unprocessed. *)
Lemma probe_shards_Throw indices :
  forall (hash_joins : list (InternalHashJoin HashJoin)) (dispatched_blocks : list Block)
         i hash_join db,
  NoDup indices ->
  (forall j, j ∈ indices -> j < length hash_joins /\ j < length dispatched_blocks) ->
  i ∈ indices -> hash_joins !! i = Some hash_join -> dispatched_blocks !! i = Some db ->
  leaves_unprocessed hash_join db = true ->
  exists hash_joins',
    probe_shards indices hash_joins dispatched_blocks
    = (Throw LOGICAL_ERROR "not_processed should be empty", hash_joins').
Proof.
  induction indices as [|k indices IH];
    intros hash_joins dispatched_blocks i hash_join db Hnd Hin Hi Hhj Hdb Hleft.
  { by apply elem_of_nil in Hi. }
  apply NoDup_cons in Hnd as [Hk Hnd].
  destruct (Hin k) as [Hk1 Hk2]; [by left|].
  destruct (lookup_lt_is_Some_2 _ _ Hk1) as [hjk Hhjk].
  destruct (lookup_lt_is_Some_2 _ _ Hk2) as [dbk Hdbk].
  rewrite (probe_shards_step k indices _ _ _ _ Hhjk Hdbk).
  destruct (leaves_unprocessed hjk dbk) eqn:Hk'; [by eexists|].
  apply elem_of_cons in Hi as [->|Hi].
  { rewrite Hhj in Hhjk. rewrite Hdb in Hdbk. simplify_eq. congruence. }
  assert (i <> k) as Hne by (intros ->; done).
  apply (IH _ _ i hash_join db); try done.
  - intros j Hj. rewrite !length_insert. apply Hin. by right.
  - by rewrite list_lookup_insert_ne.
  - by rewrite list_lookup_insert_ne.
Qed.

(** *** Reassembly *)

Lemma ensure_column (mfc : list Column) pos :
  pos <= length mfc ->
  pos < length (if length mfc <=? pos then mfc ++ [[]] else mfc)
  /\ length (if length mfc <=? pos then mfc ++ [[]] else mfc) = max (length mfc) (S pos)
  /\ forall q, default [] ((if length mfc <=? pos then mfc ++ [[]] else mfc) !! q)
             = default [] (mfc !! q).
Proof.
  intros Hpos. destruct (Nat.leb_spec (length mfc) pos) as [Hle|Hlt].
  - rewrite length_app. cbn. split; [lia|]. split; [lia|].
    intros q. destruct (decide (q < length mfc)) as [Hq|Hq].
    + by rewrite lookup_app_l.
    + rewrite lookup_app_r by lia. rewrite (lookup_ge_None_2 mfc) by lia.
      by destruct (q - length mfc).
  - split; [done|]. split; [lia|done].
Qed.

Lemma append_at (mfc : list Column) pos (col : Column) :
  pos < length mfc ->
  exists mfc',
    (if negb (bool_decide (col = []))
     then destination ← or_else (mfc !! pos) Undefined;
          mret (<[pos := destination ++ col]> mfc)
     else mret mfc) = Ok mfc'
    /\ length mfc' = length mfc
    /\ forall q, default [] (mfc' !! q)
               = default [] (mfc !! q) ++ (if decide (q = pos) then col else []).
Proof.
  intros Hpos. destruct (lookup_lt_is_Some_2 _ _ Hpos) as [dst Hdst].
  destruct (decide (col = [])) as [->|Hne].
  - exists mfc. split; [done|]. split; [done|]. intros q.
    destruct (decide (q = pos)); by rewrite app_nil_r.
  - rewrite bool_decide_eq_false_2 by done. cbn [negb]. rewrite Hdst. cbn.
    eexists. split; [done|]. split; [by rewrite length_insert|].
    intros q. destruct (decide (q = pos)) as [->|Hq].
    + rewrite list_lookup_insert_eq by done. by rewrite Hdst.
    + rewrite list_lookup_insert_ne by done. by rewrite app_nil_r.
Qed.

Lemma column_at_cons_0 c (b : Block) : column_at 0 (c :: b) = column c.
Proof. done. Qed.

Lemma column_at_cons_S q c (b : Block) : column_at (S q) (c :: b) = column_at q b.
Proof. done. Qed.

Lemma append_columns_spec (from_columns : Block) :
  forall pos (mfc : list Column),
  pos <= length mfc ->
  exists mfc',
    append_columns from_columns pos mfc = Ok mfc'
    /\ length mfc' = max (length mfc) (pos + length from_columns)
    /\ forall q, default [] (mfc' !! q)
               = default [] (mfc !! q)
                 ++ (if decide (pos <= q) then column_at (q - pos) from_columns else []).
Proof.
  induction from_columns as [|c from_columns IH]; intros pos mfc Hpos.
  - exists mfc. split; [done|]. split; [cbn; lia|].
    intros q. destruct (decide (pos <= q)); by rewrite app_nil_r.
  - cbn [append_columns cloneEmptyColumn column].
    destruct (ensure_column mfc pos Hpos) as (Hlt & Hlen1 & Hsame).
    destruct (append_at _ pos (column c) Hlt) as (mfc2 & -> & Hlen2 & Hcol).
    cbn [mbind result_bind].
    destruct (IH (S pos) mfc2) as (mfc' & -> & Hlen' & Hall); [lia|].
    exists mfc'. split; [done|]. split; [cbn [length]; lia|].
    intros q. rewrite Hall, Hcol, Hsame, <- app_assoc. f_equal.
    destruct (decide (q = pos)) as [->|Hq].
    + rewrite decide_False by lia. rewrite decide_True by lia.
      rewrite Nat.sub_diag, column_at_cons_0. by rewrite app_nil_r.
    + destruct (decide (S pos <= q)) as [Hle|Hgt].
      * rewrite decide_True by lia.
        replace (q - pos) with (S (q - S pos)) by lia. by rewrite column_at_cons_S.
      * by rewrite decide_False by lia.
Qed.

Lemma append_blocks_spec (dispatched_blocks : list Block) :
  forall (mfc : list Column),
  exists mfc',
    append_blocks dispatched_blocks mfc = Ok mfc'
    /\ length mfc <= length mfc'
    /\ (forall b, b ∈ dispatched_blocks -> columns b <= length mfc')
    /\ forall q, default [] (mfc' !! q)
               = default [] (mfc !! q) ++ concat (map (column_at q) dispatched_blocks).
Proof.
  induction dispatched_blocks as [|b dispatched_blocks IH]; intros mfc.
  - exists mfc. split; [done|]. split; [done|]. split; [by intros ? ?%elem_of_nil|].
    intros q. by rewrite app_nil_r.
  - cbn [append_blocks].
    destruct (append_columns_spec b 0 mfc) as (mfc1 & -> & Hlen1 & Hcol1); [lia|].
    cbn [mbind result_bind].
    destruct (IH mfc1) as (mfc' & -> & Hlen' & Hcols & Hall).
    exists mfc'. split; [done|]. split; [lia|]. split.
    + intros b' [->|Hb]%elem_of_cons; [unfold columns; lia|by apply Hcols].
    + intros q. rewrite Hall, Hcol1. cbn [map concat].
      rewrite decide_True by lia. rewrite Nat.sub_0_r. by rewrite <- app_assoc.
Qed.

Lemma name_final_columns_spec (names_and_types : NamesAndTypesList) :
  forall i (mfc : list Column) (final_columns : Block),
  i + length names_and_types <= length mfc ->
  exists cols,
    name_final_columns names_and_types i mfc final_columns = Ok (final_columns ++ cols)
    /\ length cols = length names_and_types
    /\ forall k n t, names_and_types !! k = Some (n, t) ->
          cols !! k = Some {| column := default [] (mfc !! (i + k)); type := t; name := n |}.
Proof.
  induction names_and_types as [|[n t] names_and_types IH]; intros i mfc final_columns Hlen.
  - exists []. split; [by rewrite app_nil_r|]. split; [done|].
    intros k ? ? Hk. by rewrite lookup_nil in Hk.
  - cbn [name_final_columns]. cbn [length] in Hlen.
    destruct (lookup_lt_is_Some_2 mfc i) as [c Hc]; [lia|].
    rewrite Hc. cbn [or_else mbind result_bind].
    destruct (IH (S i) mfc (final_columns ++ [{| column := c; type := t; name := n |}]))
      as (cols & -> & Hlen' & Hcols); [lia|].
    exists ({| column := c; type := t; name := n |} :: cols).
    split; [by rewrite <- app_assoc|]. split; [cbn; lia|].
    intros [|k] n' t' Hk; cbn in Hk.
    + injection Hk as <- <-. cbn. by rewrite Nat.add_0_r, Hc.
    + rewrite Nat.add_succ_r. exact (Hcols k n' t' Hk).
Qed.

Lemma reassemble_spec (first : Block) (others : list Block) :
  exists result,
    reassemble (first :: others) = Ok result
    /\ getNamesAndTypesList result = getNamesAndTypesList first
    /\ forall pos c, result !! pos = Some c ->
          column c = concat (map (column_at pos) (first :: others)).
Proof.
  unfold reassemble. cbn [lookup list_lookup or_else mbind result_bind].
  destruct (append_blocks_spec (first :: others) []) as (mfc & -> & _ & Hcols & Hall).
  cbn [mbind result_bind].
  destruct (name_final_columns_spec (getNamesAndTypesList first) 0 mfc [])
    as (cols & -> & Hlen & Hk).
  { unfold getNamesAndTypesList. rewrite length_map. cbn. apply (Hcols first). left. }
  cbn [app]. exists cols. split; [done|].
  assert (forall pos c, cols !! pos = Some c ->
            exists fc, first !! pos = Some fc
              /\ c = {| column := default [] (mfc !! pos); type := type fc; name := name fc |})
    as Hcol.
  { intros pos c Hc.
    assert (pos < length first) as Hpos.
    { apply lookup_lt_Some in Hc. unfold getNamesAndTypesList in Hlen.
      rewrite length_map in Hlen. lia. }
    destruct (lookup_lt_is_Some_2 _ _ Hpos) as [fc Hfc]. exists fc. split; [done|].
    specialize (Hk pos (name fc) (type fc)).
    unfold getNamesAndTypesList in Hk. change (map ?f ?l) with (f <$> l) in Hk.
    rewrite list_lookup_fmap, Hfc in Hk. specialize (Hk eq_refl). cbn in Hk. congruence. }
  split.
  - apply list_eq. intros pos. unfold getNamesAndTypesList.
    change (map ?f ?l) with (f <$> l). rewrite !list_lookup_fmap.
    destruct (cols !! pos) as [c|] eqn:Hc.
    + destruct (Hcol pos c Hc) as (fc & -> & ->). done.
    + apply lookup_ge_None in Hc. unfold getNamesAndTypesList in Hlen.
      rewrite length_map in Hlen. rewrite lookup_ge_None_2 by lia. done.
  - intros pos c Hc. destruct (Hcol pos c Hc) as (fc & _ & ->). cbn [column].
    rewrite Hall. by rewrite lookup_nil.
Qed.

(** The probe path goes through when dispatch does, every sub-block has
    its shard, and no shard leaves rows unprocessed. *)
Lemma joinBlock_Ok (this : ConcurrentHashJoin HashJoin) (block : Block) dispatch_data
    (dispatched_blocks : list Block) :
  dispatch_datas this !! 0 = Some dispatch_data ->
  dispatch dispatch_data block = Ok dispatched_blocks ->
  1 <= length dispatched_blocks <= length (hash_joins this) ->
  (forall i hash_join db, hash_joins this !! i = Some hash_join ->
     dispatched_blocks !! i = Some db -> leaves_unprocessed hash_join db = false) ->
  exists outs hash_joins' result,
    joinBlock this block = (Ok result, with_hash_joins this hash_joins')
    /\ length outs = length dispatched_blocks
    /\ (forall i hash_join db, hash_joins this !! i = Some hash_join ->
          dispatched_blocks !! i = Some db ->
          outs !! i = Some (probe_output hash_join db)
          /\ hash_joins' !! i = Some (probe_engine hash_join db))
    /\ (exists first, outs !! 0 = Some first
          /\ getNamesAndTypesList result = getNamesAndTypesList first)
    /\ (forall pos c, result !! pos = Some c -> column c = concat (map (column_at pos) outs)).
Proof.
  intros Hdd Hdispatch Hlen Hclean. unfold joinBlock.
  rewrite Hdd. cbn [or_else mbind result_bind]. rewrite Hdispatch.
  destruct (probe_shards_Ok (seq 0 (length dispatched_blocks)) (hash_joins this)
              dispatched_blocks) as (outs & hash_joins' & -> & Hlen1 & Hlen2 & _ & Hidx).
  - apply NoDup_seq.
  - intros i [_ Hi]%list_elem_of_In%in_seq. lia.
  - intros i hash_join db _. apply Hclean.
  - destruct outs as [|first others]; [cbn in Hlen1; lia|].
    destruct (reassemble_spec first others) as (result & -> & Hnt & Hcols).
    exists (first :: others), hash_joins', result.
    split; [done|]. split; [done|]. split.
    + intros i hash_join db Hhj Hdb. apply Hidx; [|done|done].
      apply list_elem_of_In, in_seq. apply lookup_lt_Some in Hdb. lia.
    + split; [by exists first|done].
Qed.

Lemma probe_shards_length indices :
  forall (hash_joins : list (InternalHashJoin HashJoin)) (dispatched_blocks : list Block),
  length (snd (probe_shards indices hash_joins dispatched_blocks)) = length hash_joins.
Proof.
  induction indices as [|i indices IH]; intros hash_joins dispatched_blocks; [done|].
  cbn [probe_shards].
  destruct (hash_joins !! i) as [hash_join|]; [|done].
  destruct (dispatched_blocks !! i) as [db|]; [|done].
  destruct (HashJoin_joinBlock (data hash_join) db) as [[data' joined] extra].
  destruct (match extra with Some e => negb (ExtraBlock_empty e) | None => false end).
  - cbn. by rewrite length_insert.
  - rewrite IH. by rewrite length_insert.
Qed.

(** C4. When dispatch has gone through and every sub-block has its shard:
    if the probe of some shard leaves a non-empty block of unprocessed
    rows, [joinBlock] throws the logical error "not_processed should be
    empty" and returns no block; if no shard does, [joinBlock] returns a
    block. *)
Theorem joinBlock_unprocessed_rows (this : ConcurrentHashJoin HashJoin) (block : Block)
    dispatch_data (dispatched_blocks : list Block) :
  dispatch_datas this !! 0 = Some dispatch_data ->
  dispatch dispatch_data block = Ok dispatched_blocks ->
  1 <= length dispatched_blocks <= length (hash_joins this) ->
  ((exists i hash_join db,
      hash_joins this !! i = Some hash_join
      /\ dispatched_blocks !! i = Some db
      /\ leaves_unprocessed hash_join db = true) ->
   fst (joinBlock this block) = Throw LOGICAL_ERROR "not_processed should be empty")
  /\ ((forall i hash_join db,
         hash_joins this !! i = Some hash_join ->
         dispatched_blocks !! i = Some db ->
         leaves_unprocessed hash_join db = false) ->
      exists result, fst (joinBlock this block) = Ok result).
Proof.
  intros Hdd Hdispatch Hlen. split.
  - intros (i & hash_join & db & Hhj & Hdb & Hleft).
    unfold joinBlock. rewrite Hdd. cbn [or_else mbind result_bind]. rewrite Hdispatch.
    destruct (probe_shards_Throw (seq 0 (length dispatched_blocks)) (hash_joins this)
                dispatched_blocks i hash_join db) as [hash_joins' ->]; try done.
    + apply NoDup_seq.
    + intros j [_ Hj]%list_elem_of_In%in_seq. lia.
    + apply list_elem_of_In, in_seq. apply lookup_lt_Some in Hdb. lia.
  - intros Hclean.
    destruct (joinBlock_Ok this block dispatch_data dispatched_blocks Hdd Hdispatch Hlen Hclean)
      as (outs & hash_joins' & result & -> & _). by exists result.
Qed.

(** C5. When the probe path goes through, the block it returns has the
    names and types of the output of shard 0, and its column at every
    position is the concatenation, in shard order, of the columns at that
    position of the outputs of the shards, each output being what the
    engine of the shard made of its sub-block. *)
Theorem joinBlock_concatenates (this : ConcurrentHashJoin HashJoin) (block : Block)
    dispatch_data (dispatched_blocks : list Block) :
  dispatch_datas this !! 0 = Some dispatch_data ->
  dispatch dispatch_data block = Ok dispatched_blocks ->
  1 <= length dispatched_blocks <= length (hash_joins this) ->
  (forall i hash_join db, hash_joins this !! i = Some hash_join ->
     dispatched_blocks !! i = Some db -> leaves_unprocessed hash_join db = false) ->
  exists outs result,
    fst (joinBlock this block) = Ok result
    /\ length outs = length dispatched_blocks
    /\ (forall i hash_join db, hash_joins this !! i = Some hash_join ->
          dispatched_blocks !! i = Some db ->
          outs !! i = Some (probe_output hash_join db))
    /\ (exists first, outs !! 0 = Some first
          /\ getNamesAndTypesList result = getNamesAndTypesList first)
    /\ (forall pos c, result !! pos = Some c -> column c = concat (map (column_at pos) outs)).
Proof.
  intros Hdd Hdispatch Hlen Hclean.
  destruct (joinBlock_Ok this block dispatch_data dispatched_blocks Hdd Hdispatch Hlen Hclean)
    as (outs & hash_joins' & result & -> & Hlen' & Hidx & Hfirst & Hcols).
  exists outs, result. split; [done|]. split; [done|]. split; [|done].
  intros i hash_join db Hhj Hdb. by destruct (Hidx i hash_join db Hhj Hdb).
Qed.

End Probe.

(** ** Size limits on the build path *)

Section Limits.
Context `{Functions} {HashJoin : Type} `{!LocalJoinEngine HashJoin}.

Lemma fold_size_t_add {A} (count : A -> N) (l : list A) (res : N) :
  (res < 2 ^ 64)%N ->
  fold_left (fun res x => size_t_add res (count x)) l res
  = ((res + sum_counts (map count l)) mod 2 ^ 64)%N.
Proof.
  revert res; induction l as [|x l IH]; intros res Hres; cbn.
  - rewrite N.add_0_r. by rewrite N.mod_small.
  - rewrite IH by (apply N.mod_lt; lia).
    unfold size_t_add. rewrite N.Div0.add_mod_idemp_l. by rewrite N.add_assoc.
Qed.

(** The totals are the sums over the shards, as [size_t]. *)
Lemma getTotalRowCount_sum (this : ConcurrentHashJoin HashJoin) :
  getTotalRowCount this
  = (sum_counts (map (fun hash_join => HashJoin_getTotalRowCount (data hash_join))
                     (hash_joins this)) mod 2 ^ 64)%N.
Proof. unfold getTotalRowCount. by rewrite fold_size_t_add. Qed.

Lemma getTotalByteCount_sum (this : ConcurrentHashJoin HashJoin) :
  getTotalByteCount this
  = (sum_counts (map (fun hash_join => HashJoin_getTotalByteCount (data hash_join))
                     (hash_joins this)) mod 2 ^ 64)%N.
Proof. unfold getTotalByteCount. by rewrite fold_size_t_add. Qed.

(** C6. When dispatch has gone through, there is one shard per sub-block
    and no guard is held for good, [addJoinedBlock] first gives every shard
    its sub-block.  With [check_limits] set, its outcome is then the check
    of the configured limits against the row and byte totals summed over
    the shards as they are after the insertions: a total above its limit
    makes the call throw [SET_SIZE_LIMIT_EXCEEDED] for "JOIN", and
    otherwise the call returns true.  With [check_limits] unset it returns
    true, whatever the limits. *)
Theorem addJoinedBlock_limits (this : ConcurrentHashJoin HashJoin) (block : Block)
    (check_limits : bool) dispatch_data (dispatched_blocks : list Block) :
  dispatch_datas this !! 1 = Some dispatch_data ->
  dispatch dispatch_data block = Ok dispatched_blocks ->
  length (hash_joins this) = length dispatched_blocks ->
  (forall hash_join, hash_join ∈ hash_joins this -> mutex hash_join <> Locked) ->
  exists passes after,
    length (hash_joins after) = length (hash_joins this)
    /\ (forall i hash_join db,
          hash_joins this !! i = Some hash_join ->
          dispatched_blocks !! i = Some db ->
          hash_joins after !! i
          = Some {| mutex := Free;
                    data := HashJoin_addJoinedBlock (data hash_join) db check_limits |})
    /\ getTotalRowCount after
       = (sum_counts (map (fun hash_join => HashJoin_getTotalRowCount (data hash_join))
                          (hash_joins after)) mod 2 ^ 64)%N
    /\ getTotalByteCount after
       = (sum_counts (map (fun hash_join => HashJoin_getTotalByteCount (data hash_join))
                          (hash_joins after)) mod 2 ^ 64)%N
    /\ forall fuel, passes <= fuel ->
         snd (addJoinedBlock fuel this block check_limits) = after
         /\ fst (addJoinedBlock fuel this block check_limits)
            = (if check_limits
               then SizeLimits_check (sizeLimits (table_join this))
                      (getTotalRowCount after) (getTotalByteCount after)
                      "JOIN" SET_SIZE_LIMIT_EXCEEDED
               else Ok true)
         /\ (check_limits = false -> fst (addJoinedBlock fuel this block check_limits) = Ok true)
         /\ (check_limits = true ->
             forall m, max_rows (sizeLimits (table_join this)) = Some m ->
             (m < getTotalRowCount after)%N ->
             fst (addJoinedBlock fuel this block check_limits)
             = Throw SET_SIZE_LIMIT_EXCEEDED
                 ("Limit for JOIN exceeded, max rows: " +:+ pretty m
                    +:+ ", current rows: " +:+ pretty (getTotalRowCount after)))
         /\ (check_limits = true ->
             forall m, max_bytes (sizeLimits (table_join this)) = Some m ->
             (m < getTotalByteCount after)%N ->
             exists message,
               fst (addJoinedBlock fuel this block check_limits)
               = Throw SET_SIZE_LIMIT_EXCEEDED message)
         /\ (check_limits = true ->
             (forall m, max_rows (sizeLimits (table_join this)) = Some m ->
                        (getTotalRowCount after <= m)%N) ->
             (forall m, max_bytes (sizeLimits (table_join this)) = Some m ->
                        (getTotalByteCount after <= m)%N) ->
             fst (addJoinedBlock fuel this block check_limits) = Ok true).
Proof.
  intros Hdd Hdispatch Hlen Hfree.
  destruct (insert_pending_spec check_limits dispatched_blocks
              (max_list (map (fun hash_join => patience (mutex hash_join)) (hash_joins this)))
              (seq 0 (length dispatched_blocks)) (hash_joins this))
    as (hash_joins' & events & Hrun & Hlen' & _ & Hpend).
  { apply NoDup_seq. }
  { intros i [_ Hi]%list_elem_of_In%in_seq. lia. }
  { intros i hash_join _ Hhj. split.
    - apply Hfree. by eapply list_elem_of_lookup_2.
    - apply max_list_elem_of_le, list_elem_of_In.
      apply (in_map (fun hash_join => patience (mutex hash_join))).
      apply list_elem_of_In. by eapply list_elem_of_lookup_2. }
  eexists _, (with_hash_joins this hash_joins').
  split; [done|]. split.
  { intros i hash_join db Hhj Hdb. apply Hpend; [|done|done].
    apply list_elem_of_In, in_seq. apply lookup_lt_Some in Hdb. lia. }
  split; [apply getTotalRowCount_sum|]. split; [apply getTotalByteCount_sum|].
  intros fuel Hfuel.
  assert (addJoinedBlock fuel this block check_limits
          = (if check_limits
             then SizeLimits_check (sizeLimits (table_join this))
                    (getTotalRowCount (with_hash_joins this hash_joins'))
                    (getTotalByteCount (with_hash_joins this hash_joins'))
                    "JOIN" SET_SIZE_LIMIT_EXCEEDED
             else Ok true,
             with_hash_joins this hash_joins')) as ->.
  { unfold addJoinedBlock, addJoinedBlock_traced. rewrite Hdd. cbn [or_else mbind result_bind].
    rewrite Hdispatch. rewrite (Hrun fuel Hfuel). done. }
  cbn [fst snd]. split; [done|]. split; [done|]. split; [by intros ->|].
  unfold SizeLimits_check, exceeds. split; [|split].
  - intros -> m -> Hm. cbn [default option.from_option id].
    by rewrite (proj2 (N.ltb_lt _ _) Hm).
  - intros -> m -> Hm. rewrite (proj2 (N.ltb_lt _ _) Hm).
    destruct (max_rows _) as [mr|]; [destruct (mr <? _)%N|]; by eexists.
  - intros -> Hrows Hbytes.
    destruct (max_rows _) as [mr|];
      [rewrite (proj2 (N.ltb_ge _ _) (Hrows mr eq_refl))|];
      (destruct (max_bytes _) as [mb|];
         [by rewrite (proj2 (N.ltb_ge _ _) (Hbytes mb eq_refl))|done]).
Qed.

End Limits.

(** ** What the operations leave alone *)

Section Frame.
Context `{Functions} {HashJoin : Type} `{!LocalJoinEngine HashJoin}.

Lemma scan_pending_length check_limits (dispatched_blocks : list Block) pending :
  forall (hash_joins : list (InternalHashJoin HashJoin)) rest hash_joins' events,
  scan_pending check_limits dispatched_blocks pending hash_joins
  = Ok (rest, hash_joins', events) ->
  length hash_joins' = length hash_joins.
Proof.
  induction pending as [|i pending IH]; intros hash_joins rest hash_joins' events.
  { unfold scan_pending, mret, result_ret. by intros [= <- <- <-]. }
  cbn [scan_pending].
  destruct (hash_joins !! i) as [hash_join|]; [|done].
  destruct (dispatched_blocks !! i) as [db|]; [|done].
  cbn [or_else mbind result_bind].
  destruct (try_lock (mutex hash_join)) as [[|] m].
  - destruct (scan_pending _ _ pending _) as [[[r h] e]| | |] eqn:Hscan; try done.
    cbn [mbind result_bind]. unfold mret, result_ret. intros [= <- <- <-].
    apply IH in Hscan. by rewrite length_insert in Hscan.
  - destruct (scan_pending _ _ pending _) as [[[r h] e]| | |] eqn:Hscan; try done.
    cbn [mbind result_bind]. unfold mret, result_ret. intros [= <- <- <-].
    apply IH in Hscan. by rewrite length_insert in Hscan.
Qed.

Lemma insert_pending_length check_limits (dispatched_blocks : list Block) fuel :
  forall pending (hash_joins hash_joins' : list (InternalHashJoin HashJoin)) events,
  insert_pending fuel check_limits dispatched_blocks pending hash_joins
  = Ok (hash_joins', events) ->
  length hash_joins' = length hash_joins.
Proof.
  induction fuel as [|fuel IH]; intros pending hash_joins hash_joins' events.
  { destruct pending; [|done]. unfold insert_pending, mret, result_ret. by intros [= <- <-]. }
  destruct pending as [|i pending].
  { unfold insert_pending, mret, result_ret. by intros [= <- <-]. }
  cbn [insert_pending].
  destruct (scan_pending _ _ (i :: pending) _) as [[[r h] e]| | |] eqn:Hscan; try done.
  cbn [mbind result_bind].
  destruct (insert_pending fuel _ _ r h) as [[h' e']| | |] eqn:Hrest; try done.
  cbn [mbind result_bind]. unfold mret, result_ret. intros [= <- <-].
  apply IH in Hrest. apply scan_pending_length in Hscan. congruence.
Qed.

Lemma run_passes_length check_limits (dispatched_blocks : list Block) fuel :
  forall pending (hash_joins : list (InternalHashJoin HashJoin)),
  length (snd (fst (run_passes fuel check_limits dispatched_blocks pending hash_joins)))
  = length hash_joins.
Proof.
  induction fuel as [|fuel IH]; intros pending hash_joins; [by destruct pending|].
  destruct pending as [|i pending]; [done|]. cbn [run_passes].
  destruct (scan_pending _ _ (i :: pending) _) as [[[r h] e]| | |] eqn:Hscan; try done.
  specialize (IH r h). apply scan_pending_length in Hscan.
  destruct (run_passes fuel _ _ r h) as [[r' h'] e']. cbn [fst snd] in *. congruence.
Qed.

(** A build changes the engines only. *)
Lemma addJoinedBlock_frame fuel (this : ConcurrentHashJoin HashJoin) (block : Block)
    check_limits :
  slots (snd (addJoinedBlock fuel this block check_limits)) = slots this
  /\ length (hash_joins (snd (addJoinedBlock fuel this block check_limits)))
     = length (hash_joins this)
  /\ dispatch_datas (snd (addJoinedBlock fuel this block check_limits)) = dispatch_datas this
  /\ totals (snd (addJoinedBlock fuel this block check_limits)) = totals this
  /\ table_join (snd (addJoinedBlock fuel this block check_limits)) = table_join this.
Proof.
  unfold addJoinedBlock, addJoinedBlock_traced.
  destruct (_ ≫= _) as [dispatched_blocks| | |]; try done.
  pose proof (run_passes_length check_limits dispatched_blocks fuel
                (seq 0 (length dispatched_blocks)) (hash_joins this)) as Hpasses.
  destruct (run_passes _ _ _ _ _) as [[rest hash_joins''] events''].
  destruct (insert_pending _ _ _ _ _) as [[hash_joins' events]| | |] eqn:Hrun; try done.
  cbn. apply insert_pending_length in Hrun. done.
Qed.

(** A probe changes the engines only. *)
Lemma joinBlock_frame (this : ConcurrentHashJoin HashJoin) (block : Block) :
  slots (snd (joinBlock this block)) = slots this
  /\ length (hash_joins (snd (joinBlock this block))) = length (hash_joins this)
  /\ dispatch_datas (snd (joinBlock this block)) = dispatch_datas this
  /\ totals (snd (joinBlock this block)) = totals this
  /\ table_join (snd (joinBlock this block)) = table_join this.
Proof.
  unfold joinBlock.
  destruct (_ ≫= _) as [dispatched_blocks| | |]; try done.
  pose proof (probe_shards_length (seq 0 (length dispatched_blocks)) (hash_joins this)
                dispatched_blocks) as Hlen.
  destruct (probe_shards _ _ _) as [[outs| | |] hash_joins']; cbn in *; done.
Qed.

(** Storing totals changes the totals and their lock only. *)
Lemma setTotals_frame (this this' : ConcurrentHashJoin HashJoin) (block : Block) :
  setTotals this block = Ok this' ->
  slots this' = slots this
  /\ hash_joins this' = hash_joins this
  /\ dispatch_datas this' = dispatch_datas this
  /\ table_join this' = table_join this
  /\ totals this' = if Block_bool block then block else totals this.
Proof.
  unfold setTotals. destruct (Block_bool block).
  - destruct (lock (totals_mutex this)) as [m| | |]; try done.
    cbn. unfold mret, result_ret. by intros [= <-].
  - unfold mret, result_ret. by intros [= <-].
Qed.

End Frame.

(** ** The coordinator as a whole *)

Section Claims.
Context `{Functions} {HashJoin : Type} `{!LocalJoinEngine HashJoin}.

(** C8. With a shard count of zero the constructor throws [BAD_ARGUMENTS]
    and gives no coordinator; with a shard count of at least one it gives
    a coordinator with that many shards, each with a free guard and an
    engine made for it; and no build, probe or totals update changes the
    number of shards. *)
Theorem shards_fixed_at_construction (table_join_ : TableJoin) (slots_ : nat)
    (left_sample_block right_sample_block : Block) (any_take_last_row_ : bool) :
  (slots_ = 0 ->
   ConcurrentHashJoin_new (HashJoin := HashJoin) table_join_ slots_ left_sample_block
     right_sample_block any_take_last_row_
   = Throw BAD_ARGUMENTS "Invalid argument slot : 0")
  /\ (1 <= slots_ ->
      exists this : ConcurrentHashJoin HashJoin,
        ConcurrentHashJoin_new table_join_ slots_ left_sample_block right_sample_block
          any_take_last_row_ = Ok this
        /\ slots this = slots_
        /\ length (hash_joins this) = slots_
        /\ (forall i, i < slots_ ->
              hash_joins this !! i
              = Some {| mutex := Free;
                        data := HashJoin_new table_join_ right_sample_block
                                  any_take_last_row_ |}))
  /\ (forall (this : ConcurrentHashJoin HashJoin) fuel block check_limits,
        slots (snd (addJoinedBlock fuel this block check_limits)) = slots this
        /\ length (hash_joins (snd (addJoinedBlock fuel this block check_limits)))
           = length (hash_joins this))
  /\ (forall (this : ConcurrentHashJoin HashJoin) block,
        slots (snd (joinBlock this block)) = slots this
        /\ length (hash_joins (snd (joinBlock this block))) = length (hash_joins this))
  /\ (forall (this this' : ConcurrentHashJoin HashJoin) block,
        setTotals this block = Ok this' ->
        slots this' = slots this /\ length (hash_joins this') = length (hash_joins this)).
Proof.
  split; [by intros ->|]. split.
  - intros Hs. eexists. split; [by apply ConcurrentHashJoin_new_Ok|]. cbn.
    split; [done|]. split; [by rewrite length_replicate|].
    intros i Hi. by apply lookup_replicate_2.
  - split; [|split].
    + intros this fuel block check_limits.
      by destruct (addJoinedBlock_frame fuel this block check_limits) as (? & ? & _).
    + intros this block. by destruct (joinBlock_frame this block) as (? & ? & _).
    + intros this this' block Hset.
      destruct (setTotals_frame this this' block Hset) as (? & Hhj & _). by rewrite Hhj.
Qed.

Lemma dispatch_filters_acc names (header from_block : Block) :
  forall acc : list Block,
  dispatch_filters names header from_block acc
  = (subs ← dispatch_filters names header from_block []; mret (acc ++ subs)).
Proof.
  induction names as [|n names IH]; intros acc.
  - cbn. by rewrite app_nil_r.
  - cbn [dispatch_filters].
    destruct (or_else _ _) as [found| | |]; try done. cbn [mbind result_bind].
    destruct (FilterDescription _) as [mask| | |]; try done. cbn [mbind result_bind].
    destruct (mapM _ _) as [filtered| | |]; try done. cbn [mbind result_bind].
    rewrite (IH (acc ++ [filtered])), (IH ([] ++ [filtered])).
    destruct (dispatch_filters names header from_block []) as [subs| | |]; try done.
    cbn. by rewrite <- app_assoc.
Qed.

(** What a call appends to the vector it is given does not depend on what
    the vector holds. *)
Lemma dispatchBlock_acc dispatch_data (block : Block) (acc : list Block) :
  dispatchBlock dispatch_data block acc
  = ('(from_block, subs) ← dispatchBlock dispatch_data block [];
     mret (from_block, acc ++ subs)).
Proof.
  unfold dispatchBlock.
  destruct (execute _ _ _) as [from_block| | |]; try done. cbn [mbind result_bind].
  rewrite dispatch_filters_acc.
  by destruct (dispatch_filters _ _ from_block []) as [subs| | |].
Qed.

(** A call on a cell reads that cell and changes that cell, and no
    other. *)
Lemma dispatchBlock_at_spec dispatch_data from_block (acc : list Block) (memory memory' : list Block)
    (out : list Block) :
  dispatchBlock_at dispatch_data from_block acc memory = Ok (memory', out) ->
  exists contents subs,
    memory !! from_block = Some contents
    /\ dispatch dispatch_data contents = Ok subs
    /\ out = acc ++ subs
    /\ length memory' = length memory
    /\ forall other, other <> from_block -> memory' !! other = memory !! other.
Proof.
  unfold dispatchBlock_at.
  destruct (memory !! from_block) as [contents|] eqn:Hcontents; [|done].
  cbn [or_else mbind result_bind]. rewrite dispatchBlock_acc.
  destruct (dispatchBlock dispatch_data contents []) as [[from_block' subs]| | |] eqn:Hrun;
    try done.
  assert (dispatch dispatch_data contents = Ok subs) as Hsubs
    by (rewrite dispatch_unfold; by rewrite Hrun).
  cbn [mbind result_bind]. unfold mret, result_ret. intros [= <- <-]. exists contents, subs.
  split; [done|]. split; [done|].
  split; [done|]. split; [by rewrite length_insert|].
  intros other Hother. by rewrite list_lookup_insert_ne.
Qed.

Lemma dispatchBlock_at_Ok dispatch_data from_block (acc : list Block) (memory : list Block)
    (contents : Block) (subs : list Block) :
  memory !! from_block = Some contents ->
  dispatch dispatch_data contents = Ok subs ->
  exists memory', dispatchBlock_at dispatch_data from_block acc memory = Ok (memory', acc ++ subs).
Proof.
  intros Hcontents Hsubs. unfold dispatchBlock_at. rewrite Hcontents.
  cbn [or_else mbind result_bind]. rewrite dispatchBlock_acc. rewrite dispatch_unfold in Hsubs.
  destruct (dispatchBlock dispatch_data contents []) as [[from_block' subs']| | |]; try done.
  cbn [mbind result_bind] in *. unfold mret, result_ret in *. injection Hsubs as ->. by eexists.
Qed.

(** C9. Dispatch with blocks passed by reference, as in the source.  A call
    reads the routing spec and the cell of its block and nothing else: what
    it appends is the dispatch of the contents of the cell, whatever the
    vector and the other cells hold, and no other cell is changed.  The call
    does change its own cell, so dispatching a block twice is dispatching
    two cells that hold the block: the second call appends the same
    sub-blocks as the first.  That is how both callers use it: they
    copy their block into a cell of its own first, so what they get is the
    dispatch of their block, and dispatching a caller's block again gives
    the same sub-blocks and leaves every cell that existed before as it
    was.  The spec a side finds in the
    coordinator is the same after any build, probe or totals update. *)
Theorem dispatch_deterministic (this : ConcurrentHashJoin HashJoin) (side : nat)
    (dispatch_data : BlockDispatchControlData) (memory : list Block) :
  (forall from_block acc memory' out,
     dispatchBlock_at dispatch_data from_block acc memory = Ok (memory', out) ->
     exists contents subs,
       memory !! from_block = Some contents
       /\ dispatch dispatch_data contents = Ok subs
       /\ out = acc ++ subs
       /\ length memory' = length memory
       /\ forall other, other <> from_block -> memory' !! other = memory !! other)
  /\ (forall (elsewhere : list Block) from_block acc memory' out,
        elsewhere !! from_block = memory !! from_block ->
        dispatchBlock_at dispatch_data from_block acc memory = Ok (memory', out) ->
        exists elsewhere',
          dispatchBlock_at dispatch_data from_block acc elsewhere = Ok (elsewhere', out))
  /\ (forall first second contents acc1 acc2 memory1 out1,
        first <> second ->
        memory !! first = Some contents ->
        memory !! second = Some contents ->
        dispatchBlock_at dispatch_data first acc1 memory = Ok (memory1, out1) ->
        exists memory2 subs,
          dispatchBlock_at dispatch_data second acc2 memory1 = Ok (memory2, acc2 ++ subs)
          /\ out1 = acc1 ++ subs)
  /\ (forall block memory1 subs,
        dispatch_clone dispatch_data block memory = Ok (memory1, subs) ->
        (exists contents,
           memory !! block = Some contents /\ dispatch dispatch_data contents = Ok subs)
        /\ (forall cell, cell < length memory -> memory1 !! cell = memory !! cell)
        /\ exists memory2,
             dispatch_clone dispatch_data block memory1 = Ok (memory2, subs)
             /\ forall cell, cell < length memory -> memory2 !! cell = memory !! cell)
  /\ (forall fuel built check_limits,
        dispatch_datas (snd (addJoinedBlock fuel this built check_limits)) !! side
        = dispatch_datas this !! side)
  /\ (forall probed,
        dispatch_datas (snd (joinBlock this probed)) !! side = dispatch_datas this !! side)
  /\ (forall block' this',
        setTotals this block' = Ok this' ->
        dispatch_datas this' !! side = dispatch_datas this !! side).
Proof.
  split; [intros from_block acc memory' out; apply dispatchBlock_at_spec|].
  split; [|split; [|split; [|split; [|split]]]].
  - intros elsewhere from_block acc memory' out Hsame Hrun.
    apply dispatchBlock_at_spec in Hrun as (contents & subs & Hc & Hsubs & -> & _).
    apply (dispatchBlock_at_Ok dispatch_data from_block acc elsewhere contents subs);
      [by rewrite Hsame|done].
  - intros first second contents acc1 acc2 memory1 out1 Hne Hfirst Hsecond Hrun.
    apply dispatchBlock_at_spec in Hrun as (contents' & subs & Hc & Hsubs & -> & _ & Hframe).
    rewrite Hfirst in Hc. injection Hc as <-.
    destruct (dispatchBlock_at_Ok dispatch_data second acc2 memory1 contents subs)
      as [memory2 Hrun2]; [by rewrite Hframe|done|].
    by exists memory2, subs.
  - intros block memory1 subs. unfold dispatch_clone.
    destruct (memory !! block) as [contents|] eqn:Hblock; [|done].
    cbn [or_else mbind result_bind]. intros Hrun.
    apply dispatchBlock_at_spec in Hrun as (contents' & subs' & Hc & Hsubs & -> & Hlen & Hframe).
    rewrite lookup_app_r, Nat.sub_diag in Hc by done. injection Hc as <-.
    assert (forall cell, cell < length memory -> memory1 !! cell = memory !! cell) as Hkept.
    { intros cell Hcell. rewrite Hframe by lia. by apply lookup_app_l. }
    cbn [app]. split; [by exists contents|]. split; [done|].
    rewrite Hkept, Hblock by (by eapply lookup_lt_Some). cbn [or_else mbind result_bind].
    destruct (dispatchBlock_at_Ok dispatch_data (length memory1) [] (memory1 ++ [contents])
                contents subs') as [memory2 Hrun2];
      [by rewrite lookup_app_r, Nat.sub_diag|done|].
    exists memory2. split; [done|]. intros cell Hcell.
    apply dispatchBlock_at_spec in Hrun2 as (_ & _ & _ & _ & _ & _ & Hframe2).
    rewrite length_app in Hlen. cbn in Hlen.
    rewrite Hframe2 by lia. rewrite lookup_app_l by lia. by apply Hkept.
  - intros fuel built check_limits.
    by destruct (addJoinedBlock_frame fuel this built check_limits) as (_ & _ & -> & _).
  - intros probed. by destruct (joinBlock_frame this probed) as (_ & _ & -> & _).
  - intros block' this' Hset.
    by destruct (setTotals_frame this this' block' Hset) as (_ & _ & -> & _).
Qed.

(** C10. [setTotals] with a block without columns returns the coordinator
    as it was, so that [getTotals] still gives the totals stored before;
    only a block with columns replaces the totals; and the shards, the
    routing specs and the join description are the same after any call. *)
Theorem setTotals_empty_block (this : ConcurrentHashJoin HashJoin) (block : Block) :
  (Block_bool block = false ->
     setTotals this block = Ok this
     /\ forall this', setTotals this block = Ok this' -> getTotals this' = getTotals this)
  /\ (forall this', setTotals this block = Ok this' ->
        getTotals this' = (if Block_bool block then block else getTotals this)
        /\ slots this' = slots this
        /\ hash_joins this' = hash_joins this
        /\ dispatch_datas this' = dispatch_datas this
        /\ table_join this' = table_join this).
Proof.
  split.
  - intros Hempty. unfold setTotals. rewrite Hempty. split; [done|].
    unfold mret, result_ret. by intros this' [= <-].
  - intros this' Hset.
    destruct (setTotals_frame this this' block Hset) as (? & ? & ? & ? & ?). done.
Qed.

End Claims.

(** C7, as the code has it. [getNonJoinedBlocks] returns the empty
    capability when the strictness is as-of or semi or the kind is neither
    right nor full; for a right or full join of any other strictness it
    throws a logical error; it never returns a capability. *)
Theorem getNonJoinedBlocks_never_provides (table_join : TableJoin)
    (left_sample_block result_sample_block : Block) (max_block_size : N) :
  (strictness table_join = Asof \/ strictness table_join = Semi
   \/ isRightOrFull (kind table_join) = false ->
   getNonJoinedBlocks table_join left_sample_block result_sample_block max_block_size
   = Ok None)
  /\ (strictness table_join <> Asof -> strictness table_join <> Semi ->
      isRightOrFull (kind table_join) = true ->
      exists message,
        getNonJoinedBlocks table_join left_sample_block result_sample_block max_block_size
        = Throw LOGICAL_ERROR message)
  /\ (forall capability,
        getNonJoinedBlocks table_join left_sample_block result_sample_block max_block_size
        <> Ok (Some capability)).
Proof.
  unfold getNonJoinedBlocks. split; [|split].
  - intros [Hs | [Hs | Hk]]; [by rewrite Hs | rewrite Hs | rewrite Hk].
    + by destruct (bool_decide _).
    + cbn. by rewrite !orb_true_r.
  - intros Hasof Hsemi ->.
    rewrite !bool_decide_eq_false_2 by done. cbn. by eexists.
  - intros capability. by destruct (_ || _).
Qed.

(** * Further properties of the code *)

(** ** The text of the hash expressions *)

Lemma format_separated_middle (pre post : list string) (a b : string) :
  format_separated (pre ++ (a +:+ "," +:+ b) :: post)
  = format_separated (pre ++ a :: b :: post).
Proof.
  destruct pre as [|x pre]; cbn [app format_separated]; [done|].
  rewrite !fold_left_app. cbn [fold_left]. by rewrite string_app_assoc.
Qed.

(** The key names are written into the text as they are, without quotes:
    a single key column whose name is [a,b] gives the text of the two key
    columns [a] and [b]. *)
Theorem hash_expression_text_unquoted (slots : nat) (pre post : list string) (a b : string) :
  hash_expression_text slots (pre ++ (a +:+ "," +:+ b) :: post)
  = hash_expression_text slots (pre ++ a :: b :: post).
Proof.
  unfold hash_expression_text. by rewrite !write_columns_format, format_separated_middle.
Qed.

(** ** Dispatch, further *)

Lemma filter_disjoint_app {A} (p q : A -> bool) (l : list A) :
  (forall x, x ∈ l -> p x = true -> q x = false) ->
  List.filter p l ++ List.filter q l ≡ₚ List.filter (fun x => p x || q x) l.
Proof.
  induction l as [|x l IH]; intros Hpq; [done|].
  cbn [List.filter].
  assert (List.filter p l ++ List.filter q l ≡ₚ List.filter (fun x => p x || q x) l) as IH'
    by (apply IH; intros y Hy; apply Hpq; by right).
  destruct (p x) eqn:Hp.
  - rewrite (Hpq x) by (done || left). cbn. by rewrite IH'.
  - destruct (q x); cbn; [|done].
    rewrite <- Permutation_middle. by rewrite IH'.
Qed.

(** The classes of a list under a function into [0, n), one after the
    other, are the list up to the order of its elements. *)
Lemma classes_permutation (f : nat -> nat) (l : list nat) n a :
  concat (map (fun i => List.filter (fun r => bool_decide (f r = i)) l) (seq a n))
  ≡ₚ List.filter (fun r => bool_decide (a <= f r < a + n)) l.
Proof.
  revert a; induction n as [|n IH]; intros a.
  - cbn. rewrite (filter_ext_in _ (fun _ => false)).
    + by induction l.
    + intros r _. apply bool_decide_eq_false_2. lia.
  - cbn [seq map concat]. rewrite IH, filter_disjoint_app.
    + erewrite filter_ext_in; [done|]. intros r _. cbv beta.
      destruct (decide (f r = a)) as [E|E].
      * rewrite (bool_decide_eq_true_2 (f r = a)) by done.
        rewrite (bool_decide_eq_true_2 (a <= f r < a + S n)) by lia. done.
      * rewrite (bool_decide_eq_false_2 (f r = a)) by done.
        apply bool_decide_ext. lia.
    + intros r _ E%bool_decide_eq_true. apply bool_decide_eq_false_2. lia.
Qed.

Lemma filter_all {A} (p : A -> bool) (l : list A) :
  (forall x, x ∈ l -> p x = true) -> List.filter p l = l.
Proof.
  induction l as [|x l IH]; intros Hp; [done|].
  cbn. rewrite (Hp x) by left. f_equal. apply IH. intros y Hy. apply Hp. by right.
Qed.

Section DispatchFurther.
Context `{Functions}.

(** The rows routed to a shard, as the class of the shard under the shard
    of the key tuple. *)
Lemma rows_routed_to_class slots (block : Block) names i :
  1 <= slots -> i < slots ->
  equal_rows block ->
  (forall n, n ∈ names -> is_Some (findByName block n)) ->
  rows_routed_to (hashing_spec slots names) names block i
  = List.filter
      (fun r => bool_decide (shard_of slots (default [] (row_tuple block names r)) = i))
      (seq 0 (rows block)).
Proof.
  intros Hs Hi Heq Hfound. rewrite <- (routed_by_mask slots block names i) by done.
  apply filter_ext_in. intros r _. by apply evaluate_shard_of.
Qed.

Lemma shard_order_permutation slots (block : Block) names :
  1 <= slots ->
  equal_rows block ->
  (forall n, n ∈ names -> is_Some (findByName block n)) ->
  shard_order (hashing_spec slots names) names block ≡ₚ seq 0 (rows block).
Proof.
  intros Hs Heq Hfound. unfold shard_order.
  assert (length (hash_columns_names (hashing_spec slots names)) = slots) as ->.
  { cbn. by rewrite length_map, hash_expression_list_length. }
  rewrite (map_ext_in _
    (fun i => List.filter
       (fun r => bool_decide (shard_of slots (default [] (row_tuple block names r)) = i))
       (seq 0 (rows block)))).
  - rewrite classes_permutation.
    rewrite filter_all; [done|].
    intros r _. apply bool_decide_eq_true_2.
    pose proof (shard_of_lt slots (default [] (row_tuple block names r)) Hs). lia.
  - intros i [_ Hi]%in_seq. by apply rows_routed_to_class.
Qed.

Lemma omap_lookup_length (col : Column) (rs : list nat) :
  (forall r, r ∈ rs -> r < length col) ->
  length (omap (fun r => col !! r) rs) = length rs.
Proof.
  induction rs as [|r rs IH]; intros Hrs; [done|].
  rewrite omap_cons.
  destruct (lookup_lt_is_Some_2 col r) as [x ->]; [apply Hrs; left|].
  cbn. f_equal. apply IH. intros r' Hr'. apply Hrs. by right.
Qed.

Lemma select_rows_equal_rows rs (block : Block) :
  equal_rows block ->
  (forall r, r ∈ rs -> r < rows block) ->
  equal_rows (select_rows rs block)
  /\ rows (select_rows rs block) = if Block_bool block then length rs else 0.
Proof.
  intros Heq Hrs. unfold equal_rows in *. rewrite Forall_forall in Heq.
  assert (forall c, c ∈ block -> length (omap (fun r => column c !! r) rs) = length rs) as Hlen.
  { intros c Hc. apply omap_lookup_length. intros r Hr. rewrite (Heq c Hc). by apply Hrs. }
  assert (rows (select_rows rs block) = if Block_bool block then length rs else 0) as Hrows.
  { destruct block as [|c block]; [done|]. cbn. apply Hlen. left. }
  split; [|done].
  apply Forall_forall. intros c' Hc'.
  unfold select_rows in Hc'. apply list_elem_of_In, in_map_iff in Hc' as (c & <- & Hc%list_elem_of_In).
  cbn [column]. rewrite Hrows, (Hlen c Hc).
  destruct block; [by apply elem_of_nil in Hc|done].
Qed.

Lemma dispatch_conserves_rows_subs slots (block : Block) names :
  1 <= slots ->
  equal_rows block ->
  (forall n, n ∈ names -> is_Some (findByName block n)) ->
  (forall n, n ∈ hash_columns_names (hashing_spec slots names) -> n ∉ getNames block) ->
  exists subs,
    dispatch (hashing_spec slots names) block = Ok subs
    /\ length subs = slots
    /\ Forall equal_rows subs
    /\ sum_list (map rows subs) = rows block.
Proof.
  intros Hs Heq Hfound Hfresh. eexists. split; [by apply dispatch_selects|].
  split; [by rewrite length_map, length_seq|].
  assert (forall i r,
            r ∈ rows_routed_to (hashing_spec slots names) names block i ->
            r < rows block) as Hin.
  { intros i r Hr%rows_routed_to_elem; [tauto|done]. }
  split.
  - apply Forall_forall. intros sub (i & <- & _)%list_elem_of_In%in_map_iff.
    apply select_rows_equal_rows; [done|]. apply Hin.
  - rewrite map_map.
    destruct block as [|c block].
    + cbn. clear. induction (seq 0 slots); [done|]. cbn. done.
    + rewrite (map_ext_in _
        (fun i => length (rows_routed_to (hashing_spec slots names) names (c :: block) i))).
      2:{ intros i _. by destruct (select_rows_equal_rows
                           (rows_routed_to (hashing_spec slots names) names (c :: block) i)
                           (c :: block) Heq (Hin i)) as [_ ->]. }
      transitivity (length (seq 0 (rows (c :: block)))); [|apply length_seq].
      rewrite <- (Permutation_length
                    (shard_order_permutation slots (c :: block) names Hs Heq Hfound)).
      unfold shard_order.
      assert (length (hash_columns_names (hashing_spec slots names)) = slots) as ->.
      { cbn. by rewrite length_map, hash_expression_list_length. }
      rewrite length_concat. change (map ?f ?l) with (f <$> l).
      by rewrite <- list_fmap_compose.
Qed.

(** Dispatch keeps the count of the rows and the shape of a block: when
    the parser read the text of the key names as the hash expressions over
    [columns] and the block holds these columns, the sub-blocks have columns
    of equal length again, and their numbers of rows add up to the number of
    rows of the block. *)
Theorem dispatch_conserves_rows (slots : nat) (sample block : Block)
    (names columns : list string) :
  1 <= slots ->
  reads_as slots names columns ->
  equal_rows block ->
  (forall n, n ∈ columns -> is_Some (findByName block n)) ->
  (forall n, n ∈ hash_columns_names (routing_spec slots sample names) -> n ∉ getNames block) ->
  exists subs,
    dispatch (routing_spec slots sample names) block = Ok subs
    /\ Forall equal_rows subs
    /\ sum_list (map rows subs) = rows block.
Proof.
  intros Hs Hreads Heq Hfound Hfresh.
  rewrite (routing_spec_reads slots sample names columns Hreads) in *.
  destruct (dispatch_conserves_rows_subs slots block columns Hs Heq Hfound Hfresh)
    as (subs & ? & _ & ? & ?).
  by exists subs.
Qed.

Lemma omap_lookup_seq (col pre : Column) :
  omap (fun r => (pre ++ col) !! r) (seq (length pre) (length col)) = col.
Proof.
  revert pre; induction col as [|x col IH]; intros pre; [done|].
  cbn [length seq]. rewrite omap_cons, list_lookup_middle by done.
  f_equal. specialize (IH (pre ++ [x])).
  rewrite length_app, Nat.add_1_r, <- app_assoc in IH. exact IH.
Qed.

Lemma select_all_rows (block : Block) :
  equal_rows block -> select_rows (seq 0 (rows block)) block = block.
Proof.
  intros Heq. unfold select_rows.
  transitivity (map (fun c : ColumnWithTypeAndName => c) block); [|apply map_id].
  apply map_ext_in. intros c Hc%list_elem_of_In.
  unfold equal_rows in Heq. rewrite Forall_forall in Heq. rewrite <- (Heq c Hc).
  assert (omap (fun r => column c !! r) (seq 0 (length (column c))) = column c) as ->
    by exact (omap_lookup_seq (column c) []).
  by destruct c.
Qed.

(** With a single shard, dispatch hands the whole block, as it is, to
    shard 0: whatever columns the parser read in the text of the key names,
    as long as the block holds them. *)
Theorem dispatch_single_shard (sample block : Block) (names columns : list string) :
  reads_as 1 names columns ->
  equal_rows block ->
  (forall n, n ∈ columns -> is_Some (findByName block n)) ->
  (forall n, n ∈ hash_columns_names (routing_spec 1 sample names) -> n ∉ getNames block) ->
  dispatch (routing_spec 1 sample names) block = Ok [block].
Proof.
  intros Hreads Heq Hfound Hfresh.
  rewrite (routing_spec_reads 1 sample names columns Hreads) in *.
  rewrite dispatch_selects by (done || lia).
  cbn [seq map]. do 2 f_equal.
  rewrite rows_routed_to_class by (done || lia).
  rewrite filter_all; [by apply select_all_rows|].
  intros r _. apply bool_decide_eq_true_2.
  pose proof (shard_of_lt 1 (default [] (row_tuple block columns r))). lia.
Qed.

Lemma omap_concat {A B} (g : A -> option B) (ls : list (list A)) :
  omap g (concat ls) = concat (map (omap g) ls).
Proof.
  induction ls as [|l ls IH]; [done|]. cbn [concat map]. by rewrite omap_app, IH.
Qed.

Lemma column_at_select_rows rs (block : Block) pos c :
  block !! pos = Some c ->
  column_at pos (select_rows rs block) = omap (fun r => column c !! r) rs.
Proof.
  intros Hc. unfold column_at, select_rows. change (map ?f ?l) with (f <$> l).
  by rewrite list_lookup_fmap, Hc.
Qed.

(** A block is its names, its types and its columns. *)
Lemma block_ext (b1 b2 : Block) :
  getNamesAndTypesList b1 = getNamesAndTypesList b2 ->
  (forall pos c1 c2, b1 !! pos = Some c1 -> b2 !! pos = Some c2 -> column c1 = column c2) ->
  b1 = b2.
Proof.
  intros Hnt Hcol. apply list_eq. intros pos.
  assert (getNamesAndTypesList b1 !! pos = getNamesAndTypesList b2 !! pos) as Hpos
    by by rewrite Hnt.
  unfold getNamesAndTypesList in Hpos. change (map ?f ?l) with (f <$> l) in Hpos.
  rewrite !list_lookup_fmap in Hpos.
  destruct (b1 !! pos) as [c1|] eqn:H1, (b2 !! pos) as [c2|] eqn:H2; try done.
  specialize (Hcol pos c1 c2 H1 H2). cbn in Hpos.
  destruct c1, c2; cbn in *. congruence.
Qed.

(** Dispatching a block and putting the sub-blocks together again, as the
    probe path does around the engines, gives the block with its rows
    rearranged shard after shard, the shard of a row being that of the tuple
    in the columns the parser read: no row is lost or doubled, the names
    and types are those of the block, and the rows of one shard keep their
    order. *)
Theorem dispatch_reassemble (slots : nat) (sample block : Block)
    (names columns : list string) :
  1 <= slots ->
  reads_as slots names columns ->
  equal_rows block ->
  (forall n, n ∈ columns -> is_Some (findByName block n)) ->
  (forall n, n ∈ hash_columns_names (routing_spec slots sample names) -> n ∉ getNames block) ->
  exists subs,
    dispatch (routing_spec slots sample names) block = Ok subs
    /\ reassemble subs
       = Ok (select_rows (shard_order (routing_spec slots sample names) columns block) block)
    /\ shard_order (routing_spec slots sample names) columns block ≡ₚ seq 0 (rows block).
Proof.
  intros Hs Hreads Heq Hfound Hfresh.
  rewrite (routing_spec_reads slots sample names columns Hreads) in *.
  revert Hfound Hfresh. generalize columns. clear Hreads columns names.
  intros names Hfound Hfresh.
  eexists. split; [by apply dispatch_selects|].
  split; [|by apply shard_order_permutation].
  destruct slots as [|slots]; [lia|]. cbn [seq map].
  destruct (reassemble_spec
    (select_rows (rows_routed_to (hashing_spec (S slots) names) names block 0) block)
    (map (fun i => select_rows
                     (rows_routed_to (hashing_spec (S slots) names) names block i)
                     block) (seq 1 slots))) as (result & -> & Hnt & Hcols).
  f_equal. apply block_ext.
  - by rewrite Hnt, !select_rows_names_and_types.
  - intros pos c1 c2 H1 H2. rewrite (Hcols pos c1 H1).
    unfold select_rows in H2 at 1. change (map ?f ?l) with (f <$> l) in H2.
    rewrite list_lookup_fmap in H2.
    destruct (block !! pos) as [c|] eqn:Hc; [|done]. injection H2 as <-. cbn [column].
    unfold shard_order.
    assert (length (hash_columns_names (hashing_spec (S slots) names)) = S slots) as ->.
    { cbn [hashing_spec hash_columns_names].
      by rewrite length_map, hash_expression_list_length. }
    rewrite omap_concat, map_map. cbn [seq map concat].
    rewrite (column_at_select_rows _ block pos c Hc). f_equal.
    rewrite map_map. f_equal. apply map_ext. intros i.
    by apply column_at_select_rows.
Qed.

End DispatchFurther.

(** ** The probe path, further *)

Section ProbeFurther.
Context `{Functions} {HashJoin : Type} `{!LocalJoinEngine HashJoin}.

Lemma probe_shards_guards indices :
  forall (hash_joins : list (InternalHashJoin HashJoin)) (dispatched_blocks : list Block),
  map mutex (snd (probe_shards indices hash_joins dispatched_blocks)) = map mutex hash_joins.
Proof.
  induction indices as [|i indices IH]; intros hash_joins dispatched_blocks; [done|].
  cbn [probe_shards].
  destruct (hash_joins !! i) as [hash_join|] eqn:Hhj; [|done].
  destruct (dispatched_blocks !! i) as [db|]; [|done].
  destruct (HashJoin_joinBlock (data hash_join) db) as [[data' joined] extra].
  assert (map mutex (<[i := {| mutex := mutex hash_join; data := data' |}]> hash_joins)
          = map mutex hash_joins) as Hsame.
  { change (map ?f ?l) with (f <$> l). rewrite list_fmap_insert. cbn [mutex].
    apply list_insert_id. by rewrite list_lookup_fmap, Hhj. }
  destruct (match extra with Some e => negb (ExtraBlock_empty e) | None => false end).
  - exact Hsame.
  - by rewrite IH.
Qed.

(** The engines decide a probe, the guards play no part in it. *)
Lemma probe_shards_engines indices :
  forall (hash_joins1 hash_joins2 : list (InternalHashJoin HashJoin))
         (dispatched_blocks : list Block),
  map data hash_joins1 = map data hash_joins2 ->
  fst (probe_shards indices hash_joins1 dispatched_blocks)
  = fst (probe_shards indices hash_joins2 dispatched_blocks)
  /\ map data (snd (probe_shards indices hash_joins1 dispatched_blocks))
     = map data (snd (probe_shards indices hash_joins2 dispatched_blocks)).
Proof.
  induction indices as [|i indices IH]; intros hash_joins1 hash_joins2 dispatched_blocks Hdata;
    [done|].
  cbn [probe_shards].
  assert (data <$> hash_joins1 !! i = data <$> hash_joins2 !! i) as Hi.
  { rewrite <- !list_lookup_fmap. change (?f <$> ?l) with (map f l). by rewrite Hdata. }
  destruct (hash_joins1 !! i) as [h1|], (hash_joins2 !! i) as [h2|]; try done.
  cbn in Hi. injection Hi as Hi. rewrite Hi.
  destruct (dispatched_blocks !! i) as [db|]; [|done].
  destruct (HashJoin_joinBlock (data h2) db) as [[data' joined] extra].
  assert (map data (<[i := {| mutex := mutex h1; data := data' |}]> hash_joins1)
          = map data (<[i := {| mutex := mutex h2; data := data' |}]> hash_joins2)) as Hdata'.
  { change (map ?f ?l) with (f <$> l). rewrite !list_fmap_insert. cbn [data].
    change (?f <$> ?l) with (map f l). by rewrite Hdata. }
  destruct (match extra with Some e => negb (ExtraBlock_empty e) | None => false end).
  - done.
  - by apply IH.
Qed.

(** The probe path takes no guard: it leaves the guard of every shard as
    it found it, and what it returns is the same whatever state the guards
    are in, locked ones included. *)
Theorem joinBlock_takes_no_guard (this other : ConcurrentHashJoin HashJoin) (block : Block) :
  dispatch_datas other = dispatch_datas this ->
  map data (hash_joins other) = map data (hash_joins this) ->
  map mutex (hash_joins (snd (joinBlock this block))) = map mutex (hash_joins this)
  /\ fst (joinBlock other block) = fst (joinBlock this block)
  /\ map data (hash_joins (snd (joinBlock other block)))
     = map data (hash_joins (snd (joinBlock this block))).
Proof.
  intros Hdd Hdata. unfold joinBlock. rewrite Hdd.
  destruct (_ ≫= _) as [dispatched_blocks| | |]; try done.
  pose proof (probe_shards_guards (seq 0 (length dispatched_blocks)) (hash_joins this)
                dispatched_blocks) as Hguards.
  destruct (probe_shards_engines (seq 0 (length dispatched_blocks)) (hash_joins other)
              (hash_joins this) dispatched_blocks Hdata) as [Hout Hengines].
  destruct (probe_shards _ (hash_joins this) _) as [out1 hash_joins1].
  destruct (probe_shards _ (hash_joins other) _) as [out2 hash_joins2].
  cbn [fst snd] in *. subst out2.
  by destruct out1.
Qed.

End ProbeFurther.

(** ** The build path, further *)

Section BuildFurther.
Context `{Functions} {HashJoin : Type} `{!LocalJoinEngine HashJoin}.

Lemma locked_shard (hash_join : InternalHashJoin HashJoin) :
  mutex hash_join = Locked -> {| mutex := Locked; data := data hash_join |} = hash_join.
Proof. destruct hash_join as [m d]. cbn. by intros ->. Qed.

(** A pass over shards whose guards are all held for good changes
    nothing. *)
Lemma scan_pending_locked check_limits (dispatched_blocks : list Block) pending
    (hash_joins : list (InternalHashJoin HashJoin)) :
  (forall i, i ∈ pending ->
     i < length dispatched_blocks
     /\ exists hash_join, hash_joins !! i = Some hash_join /\ mutex hash_join = Locked) ->
  scan_pending check_limits dispatched_blocks pending hash_joins
  = Ok (pending, hash_joins, map TryLockFailed pending).
Proof.
  induction pending as [|i pending IH]; intros Hin; [done|].
  destruct (Hin i) as (Hi & hash_join & Hhj & Hlocked); [by left|].
  destruct (lookup_lt_is_Some_2 _ _ Hi) as [db Hdb].
  cbn [scan_pending]. rewrite Hhj, Hdb. cbn [or_else mbind result_bind].
  rewrite Hlocked. cbn [try_lock].
  rewrite (locked_shard hash_join Hlocked).
  rewrite list_insert_id by done.
  rewrite IH by (intros j Hj; apply Hin; by right). done.
Qed.

Lemma run_passes_locked check_limits (dispatched_blocks : list Block) pending
    (hash_joins : list (InternalHashJoin HashJoin)) fuel :
  (forall i, i ∈ pending ->
     i < length dispatched_blocks
     /\ exists hash_join, hash_joins !! i = Some hash_join /\ mutex hash_join = Locked) ->
  snd (fst (run_passes fuel check_limits dispatched_blocks pending hash_joins)) = hash_joins.
Proof.
  intros Hin. induction fuel as [|fuel IH]; [by destruct pending|].
  destruct pending as [|i pending]; [done|].
  cbn [run_passes]. rewrite scan_pending_locked by done.
  by destruct (run_passes fuel _ _ _ _) as [[r h] e].
Qed.

(** Enough passes serve every shard whose guard is not held for good. *)
Lemma run_passes_spec check_limits (dispatched_blocks : list Block) p :
  forall pending (hash_joins : list (InternalHashJoin HashJoin)),
  NoDup pending ->
  (forall i, i ∈ pending -> i < length hash_joins /\ i < length dispatched_blocks) ->
  (forall i hash_join, i ∈ pending -> hash_joins !! i = Some hash_join ->
     mutex hash_join <> Locked -> patience (mutex hash_join) <= p) ->
  forall fuel, S p <= fuel ->
    served check_limits dispatched_blocks pending hash_joins
      (snd (fst (run_passes fuel check_limits dispatched_blocks pending hash_joins))).
Proof.
  induction p as [|p IH]; intros pending hash_joins Hnd Hin Hpat fuel Hfuel;
    (destruct fuel as [|fuel]; [lia|]);
    (destruct pending as [|i0 pending0];
      [split; [done|]; split; [done|]; intros i ? ? Hi; by apply elem_of_nil in Hi|]);
    destruct (scan_pending_spec check_limits dispatched_blocks (i0 :: pending0) hash_joins
                Hnd Hin)
      as (rest & hash_joins1 & events1 & Hscan & Hlen & Hnd1 & Hsub & Hout & Hpend);
    cbn [run_passes]; rewrite Hscan;
    assert (served check_limits dispatched_blocks rest hash_joins1
              (snd (fst (run_passes fuel check_limits dispatched_blocks rest hash_joins1))))
      as (Hlen2 & Hout2 & Hpend2).
  1:{ (* what the first pass leaves is held for good *)
    rewrite run_passes_locked.
    - split; [done|]. split; [done|]. intros i hj1 db Hi Hhj1 Hdb. rewrite Hhj1. f_equal.
      assert (i ∈ i0 :: pending0) as Hi' by by apply Hsub.
      destruct (Hin i Hi') as [Hi1 _].
      destruct (lookup_lt_is_Some_2 _ _ Hi1) as [hj Hhj].
      specialize (Hpend i hj db Hi' Hhj Hdb). specialize (Hpat i hj Hi' Hhj).
      destruct (decide (mutex hj = Free)) as [Hfree|Hbusy].
      + rewrite bool_decide_eq_true_2 in Hpend by done. by destruct Hpend as [Hni _].
      + rewrite bool_decide_eq_false_2 in Hpend by done. destruct Hpend as (_ & Hhj1' & _).
        rewrite Hhj1 in Hhj1'. injection Hhj1' as ->. cbn [mutex].
        destruct (mutex hj) as [| |n]; [done|done|].
        exfalso. assert (S n <= 0) by (apply Hpat; done). lia.
    - intros i Hi. assert (i ∈ i0 :: pending0) as Hi' by by apply Hsub.
      destruct (Hin i Hi') as [Hi1 Hi2]. split; [done|].
      destruct (lookup_lt_is_Some_2 _ _ Hi1) as [hj Hhj].
      destruct (lookup_lt_is_Some_2 _ _ Hi2) as [db Hdb].
      specialize (Hpend i hj db Hi' Hhj Hdb). specialize (Hpat i hj Hi' Hhj).
      destruct (decide (mutex hj = Free)) as [Hfree|Hbusy].
      + rewrite bool_decide_eq_true_2 in Hpend by done. by destruct Hpend as [Hni _].
      + rewrite bool_decide_eq_false_2 in Hpend by done. destruct Hpend as (_ & Hhj1' & _).
        eexists. split; [exact Hhj1'|]. cbn [mutex].
        destruct (mutex hj) as [| |n]; [done|done|].
        exfalso. assert (S n <= 0) by (apply Hpat; done). lia. }
  2:{ apply IH; [done| | |lia].
    - intros i Hi. rewrite Hlen. apply Hin. by apply Hsub.
    - intros i hj1 Hi Hhj1 Hnl1.
      assert (i ∈ i0 :: pending0) as Hi' by by apply Hsub.
      destruct (Hin i Hi') as [Hi1 Hi2].
      destruct (lookup_lt_is_Some_2 _ _ Hi1) as [hj Hhj].
      destruct (lookup_lt_is_Some_2 _ _ Hi2) as [db Hdb].
      specialize (Hpend i hj db Hi' Hhj Hdb). specialize (Hpat i hj Hi' Hhj).
      destruct (decide (mutex hj = Free)) as [Hfree|Hbusy].
      + rewrite bool_decide_eq_true_2 in Hpend by done. by destruct Hpend as [Hni _].
      + rewrite bool_decide_eq_false_2 in Hpend by done. destruct Hpend as (_ & Hhj1' & _).
        rewrite Hhj1 in Hhj1'. injection Hhj1' as ->. cbn [mutex] in *.
        assert (mutex hj <> Locked) as Hnl by (intros E; rewrite E in Hnl1; done).
        by apply try_lock_patience; [| |apply Hpat]. }
  all: destruct (run_passes fuel _ _ rest hash_joins1) as [[rest' hash_joins'] events'];
    cbn [fst snd] in *;
    (split; [congruence|]); split.
  all: try (intros j Hj; destruct (Hout j Hj) as [<- _]; apply Hout2;
            intros Hr; by apply Hj, Hsub).
  all: intros i hj db Hi Hhj Hdb; specialize (Hpend i hj db Hi Hhj Hdb);
    destruct (decide (mutex hj = Free)) as [Hfree|Hbusy];
    [rewrite bool_decide_eq_true_2 in Hpend by done; destruct Hpend as (Hni & Hhj1 & _);
     rewrite (Hout2 i Hni), Hhj1, Hfree; done
    |rewrite bool_decide_eq_false_2 in Hpend by done; destruct Hpend as (Hir & Hhj1 & _);
     rewrite (Hpend2 i _ db Hir Hhj1 Hdb); cbn [mutex data]; f_equal;
     destruct (mutex hj) as [| |[|n]] eqn:Hm; try done;
     cbn [try_lock snd]; rewrite bool_decide_eq_true_2 by done;
     by apply locked_shard].
Qed.

(** A build does not come back for as long as the guard of one of the
    shards stays locked, whatever the number of passes.  It has not waited
    for that shard before serving the others: once the passes outnumber the
    failed attempts that the busiest of the other guards takes, every shard
    whose guard is not held for good is free and has its sub-block in its
    engine, while the call is still in the loop. *)
Theorem addJoinedBlock_spins (this : ConcurrentHashJoin HashJoin) (block : Block)
    (check_limits : bool) dispatch_data (dispatched_blocks : list Block) i hash_join :
  dispatch_datas this !! 1 = Some dispatch_data ->
  dispatch dispatch_data block = Ok dispatched_blocks ->
  length (hash_joins this) = length dispatched_blocks ->
  hash_joins this !! i = Some hash_join ->
  mutex hash_join = Locked ->
  (forall fuel, fst (addJoinedBlock fuel this block check_limits) = Spinning)
  /\ forall fuel,
       S (max_list (map (fun hash_join => patience (mutex hash_join)) (hash_joins this))) <= fuel ->
       length (hash_joins (snd (addJoinedBlock fuel this block check_limits)))
       = length (hash_joins this)
       /\ forall j shard db,
            hash_joins this !! j = Some shard ->
            dispatched_blocks !! j = Some db ->
            hash_joins (snd (addJoinedBlock fuel this block check_limits)) !! j
            = Some (if bool_decide (mutex shard = Locked)
                    then shard
                    else {| mutex := Free;
                            data := HashJoin_addJoinedBlock (data shard) db check_limits |}).
Proof.
  intros Hdd Hdispatch Hlen Hhj Hlocked.
  assert (forall fuel,
            addJoinedBlock fuel this block check_limits
            = (Spinning,
               with_hash_joins this
                 (snd (fst (run_passes fuel check_limits dispatched_blocks
                              (seq 0 (length dispatched_blocks)) (hash_joins this))))))
    as Hspin.
  { intros fuel. unfold addJoinedBlock, addJoinedBlock_traced.
    rewrite Hdd. cbn [or_else mbind result_bind]. rewrite Hdispatch.
    rewrite (insert_pending_locked_spins check_limits dispatched_blocks fuel
               (seq 0 (length dispatched_blocks)) (hash_joins this) i hash_join); try done.
    - by destruct (run_passes _ _ _ _ _) as [[rest hash_joins'] events].
    - apply NoDup_seq.
    - intros j [_ Hj]%list_elem_of_In%in_seq. lia.
    - apply list_elem_of_In, in_seq. apply lookup_lt_Some in Hhj. lia. }
  split; [intros fuel; by rewrite Hspin|].
  intros fuel Hfuel. rewrite Hspin. cbn [snd with_hash_joins hash_joins].
  destruct (run_passes_spec check_limits dispatched_blocks
              (max_list (map (fun hash_join => patience (mutex hash_join)) (hash_joins this)))
              (seq 0 (length dispatched_blocks)) (hash_joins this)) with (fuel := fuel)
    as (Hlen' & _ & Hserved).
  - apply NoDup_seq.
  - intros j [_ Hj]%list_elem_of_In%in_seq. lia.
  - intros j shard _ Hshard _.
    apply max_list_elem_of_le, list_elem_of_In.
    apply (in_map (fun hash_join => patience (mutex hash_join))).
    apply list_elem_of_In. by eapply list_elem_of_lookup_2.
  - done.
  - split; [done|]. intros j shard db Hshard Hdb. apply Hserved; [|done|done].
    apply list_elem_of_In, in_seq. apply lookup_lt_Some in Hdb. lia.
Qed.

Lemma scan_pending_free check_limits (dispatched_blocks : list Block) pending :
  forall hash_joins : list (InternalHashJoin HashJoin),
  (forall i, i ∈ pending -> i < length hash_joins /\ i < length dispatched_blocks) ->
  (forall i hash_join, i ∈ pending -> hash_joins !! i = Some hash_join ->
                       mutex hash_join = Free) ->
  NoDup pending ->
  exists hash_joins',
    scan_pending check_limits dispatched_blocks pending hash_joins
    = Ok ([], hash_joins',
          concat (map (fun i => match dispatched_blocks !! i with
                                | Some db => [Acquired i; Inserted i db check_limits; Released i]
                                | None => []
                                end) pending)).
Proof.
  induction pending as [|i pending IH]; intros hash_joins Hin Hfree Hnd; [by eexists|].
  apply NoDup_cons in Hnd as [Hi Hnd].
  destruct (Hin i) as [Hi1 Hi2]; [by left|].
  destruct (lookup_lt_is_Some_2 _ _ Hi1) as [hash_join Hhj].
  destruct (lookup_lt_is_Some_2 _ _ Hi2) as [db Hdb].
  cbn [scan_pending map concat]. rewrite Hhj, Hdb. cbn [or_else mbind result_bind].
  rewrite (Hfree i hash_join) by (done || left). cbn [try_lock].
  destruct (IH (<[i := {| mutex := unlock Locked;
                         data := HashJoin_addJoinedBlock (data hash_join) db check_limits |}]>
                hash_joins)) as [hash_joins' ->]; [| |done|by eexists].
  - intros j Hj. rewrite length_insert. apply Hin. by right.
  - intros j hj' Hj Hhj'. assert (j <> i) as Hne by (intros ->; done).
    rewrite list_lookup_insert_ne in Hhj' by done. apply (Hfree j); [by right|done].
Qed.

Lemma events_by_position (g : nat -> Block -> list Event) (l pre : list Block) :
  concat (map (fun i => match (pre ++ l) !! i with Some db => g i db | None => [] end)
              (seq (length pre) (length l)))
  = concat (imap (fun k db => g (length pre + k) db) l).
Proof.
  revert pre; induction l as [|db l IH]; intros pre; [done|].
  cbn [length seq map concat]. rewrite imap_cons. cbn [concat].
  rewrite list_lookup_middle by done. rewrite Nat.add_0_r. f_equal.
  specialize (IH (pre ++ [db])).
  rewrite length_app, Nat.add_1_r, <- app_assoc in IH. cbn [app] in IH.
  rewrite IH. f_equal. apply imap_ext. intros k x _. cbn. f_equal. lia.
Qed.

(** Without contention a build needs one pass: when every guard is free,
    any fuel of at least one returns; the shards are served in the order
    of their indices, each guard being taken, used for one insertion and
    released before the next shard is looked at; and every engine has
    received its sub-block. *)
Theorem insert_pending_uncontended (check_limits : bool) (dispatched_blocks : list Block)
    (hash_joins : list (InternalHashJoin HashJoin)) :
  length hash_joins = length dispatched_blocks ->
  (forall hash_join, hash_join ∈ hash_joins -> mutex hash_join = Free) ->
  forall fuel, 1 <= fuel ->
    insert_pending fuel check_limits dispatched_blocks
      (seq 0 (length dispatched_blocks)) hash_joins
    = Ok (zip_with
            (fun hash_join db =>
               {| mutex := Free;
                  data := HashJoin_addJoinedBlock (data hash_join) db check_limits |})
            hash_joins dispatched_blocks,
          concat (imap (fun i db => [Acquired i; Inserted i db check_limits; Released i])
                       dispatched_blocks)).
Proof.
  intros Hlen Hfree fuel Hfuel.
  assert (forall i, i ∈ seq 0 (length dispatched_blocks) ->
                    i < length hash_joins /\ i < length dispatched_blocks) as Hin.
  { intros i [_ Hi]%list_elem_of_In%in_seq. lia. }
  destruct (scan_pending_free check_limits dispatched_blocks
              (seq 0 (length dispatched_blocks)) hash_joins Hin) as [hash_joins' Hscan].
  { intros i hash_join _ Hhj. apply Hfree. by eapply list_elem_of_lookup_2. }
  { apply NoDup_seq. }
  destruct (scan_pending_spec check_limits dispatched_blocks
              (seq 0 (length dispatched_blocks)) hash_joins (NoDup_seq _ _) Hin)
    as (rest & hash_joins1 & events1 & Hscan' & Hlen1 & _ & _ & _ & Hpend).
  rewrite Hscan in Hscan'. injection Hscan' as <- <- <-.
  assert (hash_joins'
          = zip_with (fun hash_join db =>
                        {| mutex := Free;
                           data := HashJoin_addJoinedBlock (data hash_join) db check_limits |})
                     hash_joins dispatched_blocks) as <-.
  { apply list_eq. intros i. rewrite lookup_zip_with.
    destruct (hash_joins !! i) as [hash_join|] eqn:Hhj.
    - destruct (dispatched_blocks !! i) as [db|] eqn:Hdb.
      + specialize (Hpend i hash_join db).
        rewrite bool_decide_eq_true_2 in Hpend
          by (apply Hfree; by eapply list_elem_of_lookup_2).
        destruct Hpend as (_ & -> & _); try done.
        apply list_elem_of_In, in_seq. apply lookup_lt_Some in Hdb. lia.
      + apply lookup_lt_Some in Hhj. apply lookup_ge_None in Hdb. lia.
    - cbn. apply lookup_ge_None. apply lookup_ge_None in Hhj. lia. }
  pose proof (events_by_position
    (fun i db => [Acquired i; Inserted i db check_limits; Released i]) dispatched_blocks [])
    as Hev.
  cbn [app length] in Hev.
  erewrite (imap_ext _ (fun i db => [Acquired i; Inserted i db check_limits; Released i]))
    in Hev by done.
  rewrite <- Hev.
  destruct fuel as [|fuel]; [lia|].
  destruct dispatched_blocks as [|db dispatched_blocks].
  - cbn in Hscan. unfold mret, result_ret in Hscan. by injection Hscan as <-.
  - cbn [length seq insert_pending]. cbn [length seq] in Hscan. rewrite Hscan.
    cbn [mbind result_bind]. destruct fuel; cbn; by rewrite app_nil_r.
Qed.

Lemma sum_counts_app (l1 l2 : list N) :
  sum_counts (l1 ++ l2) = (sum_counts l1 + sum_counts l2)%N.
Proof.
  unfold sum_counts. induction l1 as [|x l1 IH]; [done|].
  cbn. rewrite IH. lia.
Qed.

Lemma sum_counts_inserted (count : HashJoin -> N) check_limits :
  (forall engine b, count (HashJoin_addJoinedBlock engine b check_limits)
                    = (count engine + N.of_nat (rows b))%N) ->
  forall (hash_joins : list (InternalHashJoin HashJoin)) (dispatched_blocks : list Block),
  length hash_joins = length dispatched_blocks ->
  sum_counts
    (map (fun hash_join => count (data hash_join))
       (zip_with (fun hash_join db =>
                    {| mutex := Free;
                       data := HashJoin_addJoinedBlock (data hash_join) db check_limits |})
                 hash_joins dispatched_blocks))
  = (sum_counts (map (fun hash_join => count (data hash_join)) hash_joins)
     + N.of_nat (sum_list (map rows dispatched_blocks)))%N.
Proof.
  intros Hlaw hash_joins.
  induction hash_joins as [|hash_join hash_joins IH]; intros [|db dispatched_blocks] Hlen;
    try done.
  injection Hlen as Hlen. specialize (IH dispatched_blocks Hlen).
  change (sum_list (map rows (db :: dispatched_blocks)))
    with (rows db + sum_list (map rows dispatched_blocks)).
  rewrite Nat2N.inj_add.
  cbn [zip_with map sum_counts fold_right data].
  unfold sum_counts in IH. rewrite IH, Hlaw. lia.
Qed.

(** Row accounting.  When the engine counts the rows it is given, a build
    through a routing spec that the parser read as the hash expressions over
    columns of the block adds the number of rows of the block to the total
    row count of the coordinator (as [size_t]), however the rows are spread
    over the shards and whatever the contention on the guards. *)
Theorem build_adds_rows (this : ConcurrentHashJoin HashJoin) (block : Block)
    (check_limits : bool) (slots : nat) (sample : Block) (names columns : list string) :
  (forall engine b,
     HashJoin_getTotalRowCount (HashJoin_addJoinedBlock engine b check_limits)
     = (HashJoin_getTotalRowCount engine + N.of_nat (rows b))%N) ->
  dispatch_datas this !! 1 = Some (routing_spec slots sample names) ->
  reads_as slots names columns ->
  1 <= slots ->
  length (hash_joins this) = slots ->
  (forall hash_join, hash_join ∈ hash_joins this -> mutex hash_join <> Locked) ->
  equal_rows block ->
  (forall n, n ∈ columns -> is_Some (findByName block n)) ->
  (forall n, n ∈ hash_columns_names (routing_spec slots sample names) -> n ∉ getNames block) ->
  exists passes, forall fuel, passes <= fuel ->
    getTotalRowCount (snd (addJoinedBlock fuel this block check_limits))
    = ((getTotalRowCount this + N.of_nat (rows block)) mod 2 ^ 64)%N.
Proof.
  intros Hlaw Hdd Hreads Hs Hlen Hfree Heq Hfound Hfresh.
  rewrite (routing_spec_reads slots sample names columns Hreads) in *.
  destruct (dispatch_conserves_rows_subs slots block columns Hs Heq Hfound Hfresh)
    as (subs & Hdispatch & Hsubs & _ & Hrows).
  assert (length (hash_joins this) = length subs) as Hlen' by lia.
  destruct (insert_pending_spec check_limits subs
              (max_list (map (fun hash_join => patience (mutex hash_join)) (hash_joins this)))
              (seq 0 (length subs)) (hash_joins this))
    as (hash_joins' & events & Hrun & Hlen1 & _ & Hpend).
  { apply NoDup_seq. }
  { intros i [_ Hi]%list_elem_of_In%in_seq. lia. }
  { intros i hash_join _ Hhj. split.
    - apply Hfree. by eapply list_elem_of_lookup_2.
    - apply max_list_elem_of_le, list_elem_of_In.
      apply (in_map (fun hash_join => patience (mutex hash_join))).
      apply list_elem_of_In. by eapply list_elem_of_lookup_2. }
  assert (hash_joins'
          = zip_with (fun hash_join db =>
                        {| mutex := Free;
                           data := HashJoin_addJoinedBlock (data hash_join) db check_limits |})
                     (hash_joins this) subs) as ->.
  { apply list_eq. intros i. rewrite lookup_zip_with.
    destruct (hash_joins this !! i) as [hash_join|] eqn:Hhj.
    - destruct (subs !! i) as [db|] eqn:Hdb.
      + destruct (Hpend i hash_join db) as [-> _]; try done.
        apply list_elem_of_In, in_seq. apply lookup_lt_Some in Hdb. lia.
      + apply lookup_lt_Some in Hhj. apply lookup_ge_None in Hdb. lia.
    - cbn. apply lookup_ge_None. apply lookup_ge_None in Hhj. lia. }
  eexists. intros fuel Hfuel.
  unfold addJoinedBlock, addJoinedBlock_traced. rewrite Hdd. cbn [or_else mbind result_bind].
  rewrite Hdispatch, (Hrun fuel Hfuel). cbn [fst snd].
  rewrite !getTotalRowCount_sum. cbn [with_hash_joins hash_joins].
  rewrite (sum_counts_inserted HashJoin_getTotalRowCount check_limits Hlaw) by done.
  rewrite Hrows. by rewrite N.Div0.add_mod_idemp_l.
Qed.

End BuildFurther.

(** ** The shape of a coordinator *)

Lemma bind_defined {A B} (r : result A) (k : A -> result B) :
  r <> Undefined -> (forall a, r = Ok a -> k a <> Undefined) -> r ≫= k <> Undefined.
Proof. destruct r; cbn; intros Hr Hk; try done. by apply Hk. Qed.

Lemma mapM_defined {A B} (f : A -> result B) (l : list A) :
  (forall x, x ∈ l -> f x <> Undefined) -> mapM f l <> Undefined.
Proof.
  induction l as [|x l IH]; intros Hf; [done|].
  cbn [mapM]. apply bind_defined; [apply Hf; left|]. intros y _.
  apply bind_defined; [apply IH; intros z Hz; apply Hf; by right|]. done.
Qed.

Lemma mapM_Ok_Forall2 {A B} (f : A -> result B) (l : list A) (k : list B) :
  mapM f l = Ok k -> Forall2 (fun x y => f x = Ok y) l k.
Proof.
  revert k; induction l as [|x l IH]; intros k; cbn [mapM].
  - intros [= <-]. constructor.
  - destruct (f x) as [y| | |] eqn:Hx; try done. cbn [mbind result_bind].
    destruct (mapM f l) as [ys| | |]; try done. cbn. intros [= <-].
    constructor; [done|]. by apply IH.
Qed.

Lemma findByName_Some (block : Block) n : n ∈ getNames block -> is_Some (findByName block n).
Proof.
  unfold findByName, getNames. induction block as [|c block IH]; intros Hn.
  - by apply elem_of_nil in Hn.
  - cbn. destruct (String.eqb_spec (name c) n) as [E|E]; [by eexists|].
    apply IH. cbn in Hn. apply elem_of_cons in Hn as [->|Hn]; done.
Qed.

Section Shape.
Context `{Functions} {HashJoin : Type} `{!LocalJoinEngine HashJoin}.

Lemma execute_expression_name e (block : Block) num_rows c :
  execute_expression e block num_rows = Ok c -> name c = getColumnName e.
Proof.
  unfold execute_expression.
  destruct (key_columns _ _) as [cols| | |]; try done. cbn [mbind result_bind].
  destruct (mapM _ _) as [values| | |]; try done. cbn. by intros [= <-].
Qed.

Lemma execute_expression_defined e (block : Block) num_rows :
  execute_expression e block num_rows <> Undefined.
Proof.
  unfold execute_expression. apply bind_defined.
  - unfold key_columns. apply mapM_defined. intros n _.
    by destruct (findByName block n).
  - intros cols _. apply bind_defined; [|done].
    apply mapM_defined. intros r _. apply bind_defined; [|done].
    unfold key_tuple. apply mapM_defined. intros c _. by destruct (c !! r).
Qed.

(** The block that [execute] leaves: the block it was given, followed by
    columns that bear the names of the expressions. *)
Lemma execute_shape actions (block from_block : Block) num_rows :
  execute actions block num_rows = Ok from_block ->
  exists computed,
    from_block = block ++ computed
    /\ map name computed = map getColumnName (hash_expressions actions).
Proof.
  unfold execute.
  destruct (mapM _ _) as [computed| | |] eqn:Hcomputed; try done. cbn. intros [= <-].
  exists computed. split; [done|].
  apply mapM_Ok_Forall2 in Hcomputed.
  induction Hcomputed as [|e c es cs He _ IH]; [done|].
  cbn. f_equal; [by eapply execute_expression_name|done].
Qed.

Lemma dispatch_filters_length names (header from_block : Block) :
  forall (acc out : list Block),
  dispatch_filters names header from_block acc = Ok out ->
  length out = length acc + length names.
Proof.
  induction names as [|n names IH]; intros acc out.
  - cbn. intros [= <-]. lia.
  - cbn [dispatch_filters].
    destruct (or_else _ _) as [found| | |]; try done. cbn [mbind result_bind].
    destruct (FilterDescription _) as [mask| | |]; try done. cbn [mbind result_bind].
    destruct (mapM _ _) as [filtered| | |]; try done. cbn [mbind result_bind].
    intros Hout%IH. rewrite length_app in Hout. cbn in *. lia.
Qed.

Lemma dispatch_filters_defined names (header from_block : Block) :
  columns header <= columns from_block ->
  (forall n, n ∈ names -> n ∈ getNames from_block) ->
  forall acc : list Block, dispatch_filters names header from_block acc <> Undefined.
Proof.
  intros Hcols. induction names as [|n names IH]; intros Hnames acc; [done|].
  cbn [dispatch_filters].
  destruct (findByName_Some from_block n) as [found ->]; [apply Hnames; left|].
  cbn [or_else mbind result_bind].
  apply bind_defined.
  { unfold FilterDescription. apply mapM_defined. intros f _. by destruct f. }
  intros mask _. apply bind_defined.
  { apply mapM_defined. intros i [_ Hi]%list_elem_of_In%in_seq.
    unfold filter_position, getByPosition.
    destruct (lookup_lt_is_Some_2 from_block i) as [c ->]; [unfold columns in *; lia|].
    cbn [or_else mbind result_bind]. unfold FilterDescription_filter.
    by destruct (_ =? _). }
  intros filtered _. apply IH. intros m Hm. apply Hnames. by right.
Qed.

(** Dispatch with a coherent routing spec: as many sub-blocks as the spec
    has names, and no null pointer followed, no position out of range. *)
Lemma dispatch_coherent dispatch_data slots (block : Block) :
  coherent dispatch_data slots ->
  dispatch dispatch_data block <> Undefined
  /\ forall subs, dispatch dispatch_data block = Ok subs -> length subs = slots.
Proof.
  intros [Hnames Hlen]. rewrite dispatch_unfold. unfold dispatchBlock. split.
  - apply bind_defined; [|by intros [? ?] _].
    apply bind_defined.
    + unfold execute. apply bind_defined; [|done].
      apply mapM_defined. intros e _. apply execute_expression_defined.
    + intros from_block (computed & -> & Hcomputed)%execute_shape.
      apply bind_defined; [|done].
      apply dispatch_filters_defined.
      * unfold columns, cloneEmpty. rewrite length_map, length_app. lia.
      * intros n Hn. unfold getNames. rewrite map_app, Hcomputed, <- Hnames.
        apply elem_of_app. by right.
  - intros subs.
    destruct (execute _ _ _) as [from_block| | |]; try done. cbn [mbind result_bind].
    destruct (dispatch_filters _ _ _ _) as [out| | |] eqn:Hout; try done.
    cbn. intros [= <-]. apply dispatch_filters_length in Hout. cbn in Hout. lia.
Qed.

Lemma insert_pending_returns_or_spins check_limits (dispatched_blocks : list Block) fuel :
  forall pending (hash_joins : list (InternalHashJoin HashJoin)),
  NoDup pending ->
  (forall i, i ∈ pending -> i < length hash_joins /\ i < length dispatched_blocks) ->
  insert_pending fuel check_limits dispatched_blocks pending hash_joins = Spinning
  \/ exists hash_joins' events,
       insert_pending fuel check_limits dispatched_blocks pending hash_joins
       = Ok (hash_joins', events).
Proof.
  induction fuel as [|fuel IH]; intros pending hash_joins Hnd Hin.
  { destruct pending; [right; by eexists _, _|by left]. }
  destruct pending as [|i pending]; [right; by eexists _, _|].
  destruct (scan_pending_spec check_limits dispatched_blocks (i :: pending) hash_joins Hnd Hin)
    as (rest & hash_joins1 & events1 & Hscan & Hlen & Hnd1 & Hsub & _).
  cbn [insert_pending]. rewrite Hscan. cbn [mbind result_bind].
  destruct (IH rest hash_joins1 Hnd1) as [->|(hash_joins' & events & ->)].
  - intros j Hj. rewrite Hlen. apply Hin. by apply Hsub.
  - by left.
  - right. by eexists _, _.
Qed.

Lemma probe_shards_in_range indices :
  forall (hash_joins : list (InternalHashJoin HashJoin)) (dispatched_blocks : list Block),
  (forall i, i ∈ indices -> i < length hash_joins /\ i < length dispatched_blocks) ->
  match fst (probe_shards indices hash_joins dispatched_blocks) with
  | Ok outs => length outs = length dispatched_blocks
  | Throw _ _ => True
  | Undefined | Spinning => False
  end.
Proof.
  induction indices as [|i indices IH]; intros hash_joins dispatched_blocks Hin; [done|].
  destruct (Hin i) as [Hi1 Hi2]; [by left|].
  destruct (lookup_lt_is_Some_2 _ _ Hi1) as [hash_join Hhj].
  destruct (lookup_lt_is_Some_2 _ _ Hi2) as [db Hdb].
  rewrite (probe_shards_step i indices _ _ _ _ Hhj Hdb).
  destruct (leaves_unprocessed hash_join db); [done|].
  specialize (IH (<[i := probe_engine hash_join db]> hash_joins)
                 (<[i := probe_output hash_join db]> dispatched_blocks)).
  rewrite !length_insert in IH. apply IH. intros j Hj. apply Hin. by right.
Qed.

Lemma routing_spec_coherent slots (block : Block) names :
  length (parseQuery (hash_expression_text slots names)) = slots ->
  coherent (routing_spec slots block names) slots.
Proof. intros Hcount. split; [done|]. cbn. by rewrite length_map. Qed.

(** The constructor gives a coordinator its shape when the parser finds
    as many expressions in either text as there are shards, and no build,
    probe or totals update takes the shape away, whatever block is passed
    and however the call ends.  In that shape every dispatch that returns
    gives one sub-block per shard. *)
Theorem well_formed_kept (this : ConcurrentHashJoin HashJoin) :
  (forall table_join_ slots_ left_sample_block right_sample_block any_take_last_row_,
     ConcurrentHashJoin_new table_join_ slots_ left_sample_block right_sample_block
       any_take_last_row_ = Ok this ->
     length (parseQuery (hash_expression_text slots_ (key_names_left (first_clause table_join_))))
     = slots_ ->
     length (parseQuery (hash_expression_text slots_ (key_names_right (first_clause table_join_))))
     = slots_ ->
     well_formed this)
  /\ (well_formed this ->
      (forall fuel block check_limits,
         well_formed (snd (addJoinedBlock fuel this block check_limits)))
      /\ (forall block, well_formed (snd (joinBlock this block)))
      /\ (forall block this', setTotals this block = Ok this' -> well_formed this')
      /\ (forall side dispatch_data block subs,
            dispatch_datas this !! side = Some dispatch_data ->
            dispatch dispatch_data block = Ok subs ->
            length subs = length (hash_joins this))).
Proof.
  split.
  - intros table_join_ slots_ lsb rsb atlr Hnew Hleft Hright.
    destruct slots_ as [|n]; [done|].
    rewrite ConcurrentHashJoin_new_Ok in Hnew by lia. injection Hnew as <-.
    split; [cbn; lia|]. split; [cbn; by rewrite length_replicate|].
    eexists _, _. split; [done|]. split; by apply routing_spec_coherent.
  - intros (Hs & Hlen & left_data & right_data & Hdd & Hleft & Hright).
    split; [|split; [|split]].
    + intros fuel block check_limits.
      destruct (addJoinedBlock_frame fuel this block check_limits) as (Es & El & Ed & _).
      unfold well_formed. rewrite Es, El, Ed. split; [done|]. split; [done|].
      by eexists _, _.
    + intros block. destruct (joinBlock_frame this block) as (Es & El & Ed & _).
      unfold well_formed. rewrite Es, El, Ed. split; [done|]. split; [done|].
      by eexists _, _.
    + intros block this' Hset.
      destruct (setTotals_frame this this' block Hset) as (Es & El & Ed & _).
      unfold well_formed. rewrite Es, El, Ed. split; [done|]. split; [done|].
      by eexists _, _.
    + intros side dispatch_data block subs Hside Hdispatch. rewrite Hlen, Hdd in *.
      destruct side as [|[|side]]; cbn in Hside; [| |done]; injection Hside as <-.
      * by apply (dispatch_coherent left_data (slots this) block Hleft).
      * by apply (dispatch_coherent right_data (slots this) block Hright).
Qed.

(** On a coordinator of that shape no call runs into what C++ leaves
    undefined: no vector is indexed out of range and no null pointer is
    followed, in a build, in a probe or in the check of the key types,
    whatever block is passed. *)
Theorem no_undefined_behaviour (this : ConcurrentHashJoin HashJoin) :
  well_formed this ->
  (forall fuel block check_limits,
     fst (addJoinedBlock fuel this block check_limits) <> Undefined)
  /\ (forall block, fst (joinBlock this block) <> Undefined)
  /\ (forall block,
        (forall engine, HashJoin_checkTypesOfKeys engine block <> Undefined) ->
        checkTypesOfKeys this block <> Undefined).
Proof.
  intros (Hs & Hlen & left_data & right_data & Hdd & Hleft & Hright).
  split; [|split].
  - intros fuel block check_limits. unfold addJoinedBlock, addJoinedBlock_traced.
    rewrite Hdd. cbn [lookup list_lookup or_else mbind result_bind].
    destruct (dispatch_coherent right_data (slots this) block Hright) as [Hdef Hsubs].
    destruct (dispatch right_data block) as [subs| | |]; try done.
    specialize (Hsubs subs eq_refl).
    destruct (insert_pending_returns_or_spins check_limits subs fuel
                (seq 0 (length subs)) (hash_joins this)) as [->|(hash_joins' & events & ->)].
    + apply NoDup_seq.
    + intros i [_ Hi]%list_elem_of_In%in_seq. lia.
    + by destruct (run_passes _ _ _ _ _) as [[rest hash_joins'] events].
    + cbn [fst]. destruct check_limits; [|done].
      unfold SizeLimits_check. by repeat destruct (exceeds _ _).
  - intros block. unfold joinBlock. rewrite Hdd.
    cbn [lookup list_lookup or_else mbind result_bind].
    destruct (dispatch_coherent left_data (slots this) block Hleft) as [Hdef Hsubs].
    destruct (dispatch left_data block) as [subs| | |]; try done.
    specialize (Hsubs subs eq_refl).
    pose proof (probe_shards_in_range (seq 0 (length subs)) (hash_joins this) subs) as Hprobe.
    destruct (probe_shards _ _ _) as [[outs| | |] hash_joins']; cbn [fst] in *.
    + destruct outs as [|first others].
      * exfalso. assert (0 = length subs) as E; [|lia].
        apply Hprobe. intros i [_ Hi]%list_elem_of_In%in_seq. lia.
      * by destruct (reassemble_spec first others) as (result & -> & _).
    + done.
    + exfalso. apply Hprobe. intros i [_ Hi]%list_elem_of_In%in_seq. lia.
    + exfalso. apply Hprobe. intros i [_ Hi]%list_elem_of_In%in_seq. lia.
  - intros block Hengine. unfold checkTypesOfKeys.
    destruct (lookup_lt_is_Some_2 (hash_joins this) 0) as [hash_join ->]; [lia|].
    apply Hengine.
Qed.

End Shape.

(** ** Counts and reports *)

Section Reports.
Context `{Functions} {HashJoin : Type} `{!LocalJoinEngine HashJoin}.

Lemma map_replicate {A B} (f : A -> B) n (x : A) :
  map f (replicate n x) = replicate n (f x).
Proof. induction n as [|n IH]; [done|]. cbn. by rewrite IH. Qed.

Lemma sum_counts_replicate n (x : N) : sum_counts (replicate n x) = (N.of_nat n * x)%N.
Proof.
  unfold sum_counts. induction n as [|n IH]; [done|].
  cbn [replicate fold_right]. rewrite IH. lia.
Qed.

(** A coordinator fresh from the constructor reports what one fresh engine
    reports: it can return rows exactly when a fresh engine can, its key
    type check is that of a fresh engine, its counts are those of a fresh
    engine times the number of shards (as [size_t]), and it holds no
    totals. *)
Theorem fresh_coordinator_reports (table_join_ : TableJoin) (slots_ : nat)
    (left_sample_block right_sample_block : Block) (any_take_last_row_ : bool)
    (this : ConcurrentHashJoin HashJoin) :
  ConcurrentHashJoin_new table_join_ slots_ left_sample_block right_sample_block
    any_take_last_row_ = Ok this ->
  alwaysReturnsEmptySet this
  = HashJoin_alwaysReturnsEmptySet
      (HashJoin_new table_join_ right_sample_block any_take_last_row_)
  /\ (forall block,
        checkTypesOfKeys this block
        = HashJoin_checkTypesOfKeys
            (HashJoin_new table_join_ right_sample_block any_take_last_row_) block)
  /\ getTotalRowCount this
     = ((N.of_nat slots_
         * HashJoin_getTotalRowCount
             (HashJoin_new table_join_ right_sample_block any_take_last_row_))
        mod 2 ^ 64)%N
  /\ getTotalByteCount this
     = ((N.of_nat slots_
         * HashJoin_getTotalByteCount
             (HashJoin_new table_join_ right_sample_block any_take_last_row_))
        mod 2 ^ 64)%N
  /\ getTotals this = [].
Proof.
  intros Hnew. destruct slots_ as [|n]; [done|].
  rewrite ConcurrentHashJoin_new_Ok in Hnew by lia. injection Hnew as <-.
  split; [|split; [|split; [|split]]].
  - unfold alwaysReturnsEmptySet. cbn [hash_joins].
    induction n as [|n IH]; cbn; [by rewrite andb_true_r|].
    cbn in IH. rewrite IH. by destruct (HashJoin_alwaysReturnsEmptySet _).
  - done.
  - rewrite getTotalRowCount_sum. cbn [hash_joins].
    change (?x :: replicate n ?x) with (replicate (S n) x).
    rewrite map_replicate. cbn [data]. by rewrite sum_counts_replicate.
  - rewrite getTotalByteCount_sum. cbn [hash_joins].
    change (?x :: replicate n ?x) with (replicate (S n) x).
    rewrite map_replicate. cbn [data]. by rewrite sum_counts_replicate.
  - done.
Qed.

(** The totals are [size_t] values: they stay below 2^64, they are the
    sums of the counts of the shards whenever these sums fit, and beyond
    that they wrap around. *)
Theorem total_counts_size_t (this : ConcurrentHashJoin HashJoin) :
  (getTotalRowCount this < 2 ^ 64)%N
  /\ (getTotalByteCount this < 2 ^ 64)%N
  /\ ((sum_counts (map (fun hash_join => HashJoin_getTotalRowCount (data hash_join))
                       (hash_joins this)) < 2 ^ 64)%N ->
      getTotalRowCount this
      = sum_counts (map (fun hash_join => HashJoin_getTotalRowCount (data hash_join))
                        (hash_joins this)))
  /\ ((sum_counts (map (fun hash_join => HashJoin_getTotalByteCount (data hash_join))
                       (hash_joins this)) < 2 ^ 64)%N ->
      getTotalByteCount this
      = sum_counts (map (fun hash_join => HashJoin_getTotalByteCount (data hash_join))
                        (hash_joins this)))
  /\ (forall k,
        sum_counts (map (fun hash_join => HashJoin_getTotalRowCount (data hash_join))
                        (hash_joins this)) = (2 ^ 64 + k)%N ->
        (k < 2 ^ 64)%N ->
        getTotalRowCount this = k).
Proof.
  rewrite getTotalRowCount_sum, getTotalByteCount_sum.
  split; [apply N.mod_lt; lia|]. split; [apply N.mod_lt; lia|].
  split; [intros; by apply N.mod_small|]. split; [intros; by apply N.mod_small|].
  intros k -> Hk.
  rewrite <- N.Div0.add_mod_idemp_l, N.Div0.mod_same, N.add_0_l. by apply N.mod_small.
Qed.

End Reports.

(** ** Reassembly *)

Lemma column_at_length (b : Block) pos :
  equal_rows b -> pos < columns b -> length (column_at pos b) = rows b.
Proof.
  intros Heq Hpos. unfold column_at.
  destruct (lookup_lt_is_Some_2 b pos Hpos) as [c Hc]. rewrite Hc.
  unfold equal_rows in Heq. rewrite Forall_forall in Heq.
  apply Heq. by eapply list_elem_of_lookup_2.
Qed.

(** Reassembly keeps the shape of a block: from shard outputs of one width
    with columns of equal length it makes a block of that width with
    columns of equal length, whose number of rows is the sum of theirs. *)
Theorem reassemble_equal_rows (first : Block) (others : list Block) :
  (forall out, out ∈ first :: others -> equal_rows out /\ columns out = columns first) ->
  exists result,
    reassemble (first :: others) = Ok result
    /\ columns result = columns first
    /\ equal_rows result
    /\ (1 <= columns first -> rows result = sum_list (map rows (first :: others))).
Proof.
  intros Houts.
  destruct (reassemble_spec first others) as (result & Hresult & Hnt & Hcols).
  exists result. split; [done|].
  assert (columns result = columns first) as Hwidth.
  { unfold columns. apply (f_equal length) in Hnt.
    unfold getNamesAndTypesList in Hnt. by rewrite !length_map in Hnt. }
  split; [done|].
  assert (forall pos c, result !! pos = Some c ->
            length (column c) = sum_list (map rows (first :: others))) as Hlen.
  { intros pos c Hc. rewrite (Hcols pos c Hc), length_concat.
    f_equal. change (map ?f ?l) with (f <$> l). rewrite <- list_fmap_compose.
    apply list_fmap_ext. intros i out Hout%list_elem_of_lookup_2. cbn.
    destruct (Houts out Hout) as [Heq Hw].
    apply column_at_length; [done|]. rewrite Hw, <- Hwidth.
    by apply lookup_lt_Some in Hc. }
  assert (1 <= columns first -> rows result = sum_list (map rows (first :: others))) as Hrows.
  { intros Hcol. destruct result as [|c result]; [unfold columns in *; cbn in *; lia|].
    apply (Hlen 0 c). done. }
  split; [|done].
  unfold equal_rows. apply Forall_forall. intros c Hc.
  apply list_elem_of_lookup in Hc as [pos Hc].
  rewrite (Hlen pos c Hc), Hrows; [done|].
  apply lookup_lt_Some in Hc. unfold columns in *. lia.
Qed.


(** * The properties on the small instance *)

Section Instances.
Local Existing Instance sum_functions.
Local Existing Instance two_row_engine.

Example two_shards_constructed :
  ConcurrentHashJoin_new (key_join Inner All no_limits) 2 five_rows five_rows false
  = Ok (two_shards no_limits).
Proof. reflexivity. Qed.

Example dispatch_five_rows :
  dispatch (routing_spec 2 five_rows ["key"]) five_rows
  = Ok [ key_value_block [2; 4; 6]%N ["b"; "d"; "e"];
         key_value_block [1; 3]%N ["a"; "c"] ].
Proof. reflexivity. Qed.

(** [dispatchBlock] leaves the computed columns in the block it is given;
    its callers hand it a copy. *)
Example dispatchBlock_two_rows :
  dispatchBlock (routing_spec 2 five_rows ["key"]) two_rows []
  = Ok (two_rows
          ++ [ {| column := [FieldUInt64 0; FieldUInt64 1]; type := "UInt8";
                  name := "cityHash64(key)%2=0" |};
               {| column := [FieldUInt64 1; FieldUInt64 0]; type := "UInt8";
                  name := "cityHash64(key)%2=1" |} ],
        [ key_value_block [2]%N ["b"]; key_value_block [1]%N ["a"] ]).
Proof. reflexivity. Qed.

(** Shard count 2, build rows (1,"a") and (2,"b"): two rows in total. *)
Example build_two_rows :
  let built := snd (addJoinedBlock 1 (two_shards no_limits)
                      (key_value_block [1; 2]%N ["a"; "b"]) false) in
  getTotalRowCount built = 2%N
  /\ hash_joins built
     = [ {| mutex := Free; data := [key_value_block [2]%N ["b"]] |};
         {| mutex := Free; data := [key_value_block [1]%N ["a"]] |} ].
Proof. split; reflexivity. Qed.

(** A limit of one row, two single-row blocks, the second one checked. *)
Example second_row_exceeds_limit :
  let limits := {| max_rows := Some 1%N; max_bytes := None |} in
  let first := addJoinedBlock 1 (two_shards limits) (key_value_block [1]%N ["a"]) false in
  let second := addJoinedBlock 1 (snd first) (key_value_block [2]%N ["b"]) true in
  fst first = Ok true
  /\ fst second
     = Throw SET_SIZE_LIMIT_EXCEEDED "Limit for JOIN exceeded, max rows: 1, current rows: 2"
  /\ getTotalRowCount (snd second) = 2%N.
Proof. repeat split; reflexivity. Qed.

(** Three rows for one shard are more than the stand-in engine handles. *)
Example probe_three_odd_rows :
  fst (joinBlock (two_shards no_limits) three_rows)
  = Throw LOGICAL_ERROR "not_processed should be empty".
Proof. reflexivity. Qed.

Example probe_five_rows :
  fst (joinBlock (two_shards no_limits) (key_value_block [1; 2; 3; 4]%N ["a"; "b"; "c"; "d"]))
  = Ok (key_value_block [2; 4; 1; 3]%N ["b"; "d"; "a"; "c"]).
Proof. reflexivity. Qed.

(** A guard that is never released: the loop is still going after a
    hundred passes. *)
Example locked_shard_spins :
  insert_pending 100 false even_and_odd [0; 1]
    [ {| mutex := Free; data := [] |}; {| mutex := Locked; data := [] |} ]
  = Spinning.
Proof. reflexivity. Qed.

Example busy_shard_waits :
  insert_pending 4 false even_and_odd [0; 1] free_and_busy
  = Ok ([ {| mutex := Free; data := [key_value_block [2; 4]%N ["b"; "d"]] |};
          {| mutex := Free; data := [key_value_block [1]%N ["a"]] |} ],
        [ Acquired 0; Inserted 0 (key_value_block [2; 4]%N ["b"; "d"]) false; Released 0;
          TryLockFailed 1; TryLockFailed 1; TryLockFailed 1;
          Acquired 1; Inserted 1 (key_value_block [1]%N ["a"]) false; Released 1 ]).
Proof. reflexivity. Qed.

(** The stand-in parser reads the text of a plain key name as the
    expressions over that key, and the text of a key name with a comma as
    the expressions over the two columns it spells. *)
Lemma key_reads_as_key : reads_as 2 ["key"] ["key"].
Proof. reflexivity. Defined.

Lemma key_reads_as_key_single : reads_as 1 ["key"] ["key"].
Proof. reflexivity. Defined.

Example comma_name_reads_as_two : reads_as 2 ["a,b"] ["a"; "b"].
Proof. reflexivity. Qed.

Example two_keys_read_as_two : reads_as 3 ["a"; "b"] ["a"; "b"].
Proof. reflexivity. Qed.

(** A key column named [a,b] is not what is hashed: the block that holds
    only this column cannot be dispatched, and on the block with the columns
    [a] and [b] the rows are routed by the pair of the two. *)
Example comma_name_dispatch :
  dispatch (routing_spec 2 comma_block ["a,b"]) comma_block
  = Throw NOT_FOUND_COLUMN_IN_BLOCK "Not found column a in block"
  /\ dispatch (routing_spec 2 comma_block ["a,b"]) pair_block
     = Ok [ select_rows [0] pair_block; select_rows [1] pair_block ].
Proof. split; reflexivity. Qed.

Lemma five_rows_equal_rows : equal_rows five_rows.
Proof. repeat constructor. Defined.

Lemma five_rows_has_key : forall n, n ∈ ["key"] -> is_Some (findByName five_rows n).
Proof. intros n ->%list_elem_of_singleton. by eexists. Defined.

Lemma five_rows_fresh :
  forall n, n ∈ hash_columns_names (routing_spec 2 three_rows ["key"]) ->
            n ∉ getNames five_rows.
Proof.
  intros n Hn.
  assert (Forall (fun n => n ∉ getNames five_rows)
                 ["cityHash64(key)%2=0"; "cityHash64(key)%2=1"]) as Hall.
  { apply List.Forall_cons; [apply (bool_decide_unpack _); by vm_compute|].
    apply List.Forall_cons; [apply (bool_decide_unpack _); by vm_compute|].
    apply List.Forall_nil. }
  exact (proj1 (Forall_forall _ _) Hall n Hn).
Defined.

Lemma three_rows_equal_rows : equal_rows three_rows.
Proof. repeat constructor. Defined.

Lemma three_rows_has_key : forall n, n ∈ ["key"] -> is_Some (findByName three_rows n).
Proof. intros n ->%list_elem_of_singleton. by eexists. Defined.

Lemma three_rows_fresh :
  forall n, n ∈ hash_columns_names (routing_spec 2 three_rows ["key"]) ->
            n ∉ getNames three_rows.
Proof.
  intros n Hn.
  assert (Forall (fun n => n ∉ getNames three_rows)
                 ["cityHash64(key)%2=0"; "cityHash64(key)%2=1"]) as Hall.
  { apply List.Forall_cons; [apply (bool_decide_unpack _); by vm_compute|].
    apply List.Forall_cons; [apply (bool_decide_unpack _); by vm_compute|].
    apply List.Forall_nil. }
  exact (proj1 (Forall_forall _ _) Hall n Hn).
Defined.

Lemma five_rows_fresh_probe :
  forall n, n ∈ hash_columns_names (routing_spec 2 five_rows ["key"]) ->
            n ∉ getNames five_rows.
Proof. exact five_rows_fresh. Defined.

Lemma two_sides_constructed :
  ConcurrentHashJoin_new (key_join Inner All no_limits) 2 five_rows three_rows false
  = Ok {| table_join := key_join Inner All no_limits;
          slots := 2;
          hash_joins := replicate 2 {| mutex := Free; data := ([] : list Block) |};
          totals_mutex := Free;
          totals := [];
          dispatch_datas :=
            [ routing_spec 2 five_rows ["key"]; routing_spec 2 three_rows ["key"] ] |}.
Proof. reflexivity. Defined.

(** Row 2 of [five_rows] and row 1 of [three_rows] hold the key 3: the
    probe side and the build side put them into the sub-blocks of one
    index. *)
Lemma routing_build_probe_agree_witness :
  1 <= 2
  /\ reads_as 2 (key_names_left (first_clause (key_join Inner All no_limits))) ["key"]
  /\ reads_as 2 (key_names_right (first_clause (key_join Inner All no_limits))) ["key"]
  /\ exists shard probe_lists build_lists,
       shard < 2
       /\ routing_function (routing_spec 2 three_rows ["key"]) [FieldUInt64 3] = [shard]
       /\ routing_function (routing_spec 2 five_rows ["key"]) [FieldUInt64 3] = [shard]
       /\ dispatch (routing_spec 2 five_rows ["key"]) five_rows
          = Ok (map (fun rs => select_rows rs five_rows) probe_lists)
       /\ dispatch (routing_spec 2 three_rows ["key"]) three_rows
          = Ok (map (fun rs => select_rows rs three_rows) build_lists)
       /\ (forall i rs, probe_lists !! i = Some rs -> 2 ∈ rs <-> i = shard)
       /\ (forall i rs, build_lists !! i = Some rs -> 1 ∈ rs <-> i = shard).
Proof.
  assert (1 <= 2) as Hslots by lia.
  split; [exact Hslots|]. split; [exact key_reads_as_key|]. split; [exact key_reads_as_key|].
  destruct (routing_build_probe_agree (HashJoin := list Block) (key_join Inner All no_limits) 2
              five_rows three_rows false ["key"] ["key"] [FieldUInt64 3] Hslots
              key_reads_as_key key_reads_as_key)
    as (this & build & probe & shard & Hnew & Hbuild & Hprobe & Hshard & Hrb & Hrp & Hrows).
  rewrite two_sides_constructed in Hnew. injection Hnew as <-.
  injection Hbuild as <-. injection Hprobe as <-.
  destruct (Hrows five_rows three_rows 2 1 five_rows_equal_rows three_rows_equal_rows
              five_rows_has_key three_rows_has_key five_rows_fresh_probe three_rows_fresh
              (le_S _ _ (le_S _ _ (le_n 3))) (le_S _ _ (le_n 2)) eq_refl eq_refl)
    as (probe_lists & build_lists & Hp & Hb & _ & _ & Hpin & Hbin).
  exists shard, probe_lists, build_lists.
  split; [exact Hshard|]. split; [exact Hrb|]. split; [exact Hrp|].
  split; [exact Hp|]. split; [exact Hb|]. split; [exact Hpin|exact Hbin].
Defined.

Lemma dispatch_partitions_witness :
  1 <= 2
  /\ reads_as 2 ["key"] ["key"]
  /\ equal_rows five_rows
  /\ (forall n, n ∈ ["key"] -> is_Some (findByName five_rows n))
  /\ (forall n, n ∈ hash_columns_names (routing_spec 2 three_rows ["key"]) ->
                n ∉ getNames five_rows)
  /\ exists subs,
       dispatch (routing_spec 2 three_rows ["key"]) five_rows = Ok subs
       /\ length subs = 2
       /\ (forall i, i < 2 ->
             subs !! i
             = Some (select_rows
                       (rows_routed_to (routing_spec 2 three_rows ["key"]) ["key"] five_rows i)
                       five_rows))
       /\ (forall r, r < rows five_rows ->
             exists i, i < 2
               /\ r ∈ rows_routed_to (routing_spec 2 three_rows ["key"]) ["key"] five_rows i
               /\ forall i',
                    r ∈ rows_routed_to (routing_spec 2 three_rows ["key"]) ["key"] five_rows i' ->
                    i' = i)
       /\ (forall i r,
             r ∈ rows_routed_to (routing_spec 2 three_rows ["key"]) ["key"] five_rows i ->
             r < rows five_rows)
       /\ (forall i, StronglySorted lt
                       (rows_routed_to (routing_spec 2 three_rows ["key"]) ["key"] five_rows i))
       /\ (forall i sub, subs !! i = Some sub ->
                         getNamesAndTypesList sub = getNamesAndTypesList five_rows)
       /\ (rows five_rows = 0 -> subs = replicate 2 (cloneEmpty five_rows)).
Proof.
  assert (1 <= 2) as Hslots by lia.
  split; [exact Hslots|]. split; [exact key_reads_as_key|].
  split; [exact five_rows_equal_rows|].
  split; [exact five_rows_has_key|]. split; [exact five_rows_fresh|].
  exact (dispatch_partitions 2 three_rows five_rows ["key"] ["key"] Hslots key_reads_as_key
           five_rows_equal_rows five_rows_has_key five_rows_fresh).
Defined.

Lemma two_rows_dispatched :
  dispatch (routing_spec 2 five_rows ["key"]) two_rows
  = Ok [ key_value_block [2]%N ["b"]; key_value_block [1]%N ["a"] ].
Proof. reflexivity. Defined.

Lemma free_and_busy_released :
  forall hash_join, hash_join ∈ free_and_busy -> mutex hash_join <> Locked.
Proof.
  intros hash_join Hin.
  assert (Forall (fun hj : InternalHashJoin (list Block) => mutex hj <> Locked) free_and_busy)
    as Hall.
  { apply List.Forall_cons; [discriminate|].
    apply List.Forall_cons; [discriminate|]. apply List.Forall_nil. }
  exact (proj1 (Forall_forall _ _) Hall hash_join Hin).
Defined.

Lemma addJoinedBlock_inserts_once_witness :
  dispatch_datas second_busy !! 1 = Some (routing_spec 2 five_rows ["key"])
  /\ dispatch (routing_spec 2 five_rows ["key"]) two_rows
     = Ok [ key_value_block [2]%N ["b"]; key_value_block [1]%N ["a"] ]
  /\ length (hash_joins second_busy)
     = length [ key_value_block [2]%N ["b"]; key_value_block [1]%N ["a"] ]
  /\ (forall hash_join, hash_join ∈ hash_joins second_busy -> mutex hash_join <> Locked)
  /\ exists after events,
       (forall fuel, 4 <= fuel ->
          snd (addJoinedBlock fuel second_busy two_rows true) = after
          /\ addJoinedBlock_events fuel second_busy two_rows true = events
          /\ fst (addJoinedBlock fuel second_busy two_rows true) <> Spinning)
       /\ length (hash_joins after) = length (hash_joins second_busy)
       /\ (forall i hash_join db,
             hash_joins second_busy !! i = Some hash_join ->
             [ key_value_block [2]%N ["b"]; key_value_block [1]%N ["a"] ] !! i = Some db ->
             hash_joins after !! i
             = Some {| mutex := Free; data := HashJoin_addJoinedBlock (data hash_join) db true |}
             /\ shard_trace i events
                = replicate (patience (mutex hash_join)) (TryLockFailed i)
                  ++ [Acquired i; Inserted i db true; Released i])
       /\ (forall ev, ev ∈ events -> event_shard ev < 2).
Proof.
  split; [reflexivity|]. split; [exact two_rows_dispatched|]. split; [reflexivity|].
  split; [exact free_and_busy_released|].
  exact (addJoinedBlock_inserts_once second_busy two_rows true
           (routing_spec 2 five_rows ["key"]) _ eq_refl two_rows_dispatched eq_refl
           free_and_busy_released).
Defined.

Lemma two_shards_probe_spec limits :
  dispatch_datas (two_shards limits) !! 0 = Some (routing_spec 2 five_rows ["key"]).
Proof. reflexivity. Defined.

Lemma two_shards_build_spec limits :
  dispatch_datas (two_shards limits) !! 1 = Some (routing_spec 2 five_rows ["key"]).
Proof. reflexivity. Defined.

Lemma three_rows_dispatched :
  dispatch (routing_spec 2 five_rows ["key"]) three_rows
  = Ok [ key_value_block [] []; three_rows ].
Proof. reflexivity. Defined.

Lemma four_rows_dispatched :
  dispatch (routing_spec 2 five_rows ["key"]) four_rows
  = Ok [ key_value_block [2; 4]%N ["b"; "d"]; key_value_block [1; 3]%N ["a"; "c"] ].
Proof. reflexivity. Defined.

Lemma two_sub_blocks_two_shards limits (a b : Block) :
  1 <= length [a; b] <= length (hash_joins (two_shards limits)).
Proof. cbn. lia. Defined.

Lemma joinBlock_unprocessed_rows_witness :
  dispatch_datas (two_shards no_limits) !! 0 = Some (routing_spec 2 five_rows ["key"])
  /\ dispatch (routing_spec 2 five_rows ["key"]) three_rows
     = Ok [ key_value_block [] []; three_rows ]
  /\ 1 <= length [ key_value_block [] []; three_rows ]
       <= length (hash_joins (two_shards no_limits))
  /\ ((exists i hash_join db,
         hash_joins (two_shards no_limits) !! i = Some hash_join
         /\ [ key_value_block [] []; three_rows ] !! i = Some db
         /\ leaves_unprocessed hash_join db = true) ->
      fst (joinBlock (two_shards no_limits) three_rows)
      = Throw LOGICAL_ERROR "not_processed should be empty")
  /\ ((forall i hash_join db,
         hash_joins (two_shards no_limits) !! i = Some hash_join ->
         [ key_value_block [] []; three_rows ] !! i = Some db ->
         leaves_unprocessed hash_join db = false) ->
      exists result, fst (joinBlock (two_shards no_limits) three_rows) = Ok result).
Proof.
  split; [exact (two_shards_probe_spec no_limits)|].
  split; [exact three_rows_dispatched|].
  split; [exact (two_sub_blocks_two_shards no_limits _ _)|].
  exact (joinBlock_unprocessed_rows (two_shards no_limits) three_rows
           (routing_spec 2 five_rows ["key"]) [ key_value_block [] []; three_rows ]
           (two_shards_probe_spec no_limits) three_rows_dispatched
           (two_sub_blocks_two_shards no_limits _ _)).
Defined.

Lemma four_rows_all_processed :
  forall i hash_join db,
    hash_joins (two_shards no_limits) !! i = Some hash_join ->
    [ key_value_block [2; 4]%N ["b"; "d"]; key_value_block [1; 3]%N ["a"; "c"] ] !! i = Some db ->
    leaves_unprocessed hash_join db = false.
Proof.
  intros [|[|i]] hash_join db Hhj Hdb.
  - injection Hhj as <-. injection Hdb as <-. reflexivity.
  - injection Hhj as <-. injection Hdb as <-. reflexivity.
  - discriminate Hdb.
Defined.

Lemma joinBlock_concatenates_witness :
  dispatch_datas (two_shards no_limits) !! 0 = Some (routing_spec 2 five_rows ["key"])
  /\ dispatch (routing_spec 2 five_rows ["key"]) four_rows
     = Ok [ key_value_block [2; 4]%N ["b"; "d"]; key_value_block [1; 3]%N ["a"; "c"] ]
  /\ 1 <= length [ key_value_block [2; 4]%N ["b"; "d"]; key_value_block [1; 3]%N ["a"; "c"] ]
       <= length (hash_joins (two_shards no_limits))
  /\ (forall i hash_join db,
        hash_joins (two_shards no_limits) !! i = Some hash_join ->
        [ key_value_block [2; 4]%N ["b"; "d"]; key_value_block [1; 3]%N ["a"; "c"] ] !! i
        = Some db ->
        leaves_unprocessed hash_join db = false)
  /\ exists outs result,
       fst (joinBlock (two_shards no_limits) four_rows) = Ok result
       /\ length outs
          = length [ key_value_block [2; 4]%N ["b"; "d"]; key_value_block [1; 3]%N ["a"; "c"] ]
       /\ (forall i hash_join db,
             hash_joins (two_shards no_limits) !! i = Some hash_join ->
             [ key_value_block [2; 4]%N ["b"; "d"]; key_value_block [1; 3]%N ["a"; "c"] ] !! i
             = Some db ->
             outs !! i = Some (probe_output hash_join db))
       /\ (exists first, outs !! 0 = Some first
             /\ getNamesAndTypesList result = getNamesAndTypesList first)
       /\ (forall pos c, result !! pos = Some c ->
                         column c = concat (map (column_at pos) outs)).
Proof.
  split; [exact (two_shards_probe_spec no_limits)|].
  split; [exact four_rows_dispatched|].
  split; [exact (two_sub_blocks_two_shards no_limits _ _)|].
  split; [exact four_rows_all_processed|].
  exact (joinBlock_concatenates (two_shards no_limits) four_rows
           (routing_spec 2 five_rows ["key"]) _
           (two_shards_probe_spec no_limits) four_rows_dispatched
           (two_sub_blocks_two_shards no_limits _ _) four_rows_all_processed).
Defined.

Lemma two_shards_one_per_block limits (a b : Block) :
  length (hash_joins (two_shards limits)) = length [a; b].
Proof. reflexivity. Defined.

Lemma two_shards_released limits :
  forall hash_join, hash_join ∈ hash_joins (two_shards limits) -> mutex hash_join <> Locked.
Proof.
  intros hash_join Hin.
  assert (Forall (fun hj : InternalHashJoin (list Block) => mutex hj <> Locked)
                 (hash_joins (two_shards limits))) as Hall.
  { apply List.Forall_cons; [discriminate|].
    apply List.Forall_cons; [discriminate|]. apply List.Forall_nil. }
  exact (proj1 (Forall_forall _ _) Hall hash_join Hin).
Defined.

Lemma addJoinedBlock_limits_witness :
  dispatch_datas (two_shards one_row_limit) !! 1 = Some (routing_spec 2 five_rows ["key"])
  /\ dispatch (routing_spec 2 five_rows ["key"]) two_rows
     = Ok [ key_value_block [2]%N ["b"]; key_value_block [1]%N ["a"] ]
  /\ length (hash_joins (two_shards one_row_limit))
     = length [ key_value_block [2]%N ["b"]; key_value_block [1]%N ["a"] ]
  /\ (forall hash_join, hash_join ∈ hash_joins (two_shards one_row_limit) ->
                        mutex hash_join <> Locked)
  /\ exists passes after,
       length (hash_joins after) = length (hash_joins (two_shards one_row_limit))
       /\ getTotalRowCount after = 2%N
       /\ forall fuel, passes <= fuel ->
            fst (addJoinedBlock fuel (two_shards one_row_limit) two_rows true)
            = Throw SET_SIZE_LIMIT_EXCEEDED
                "Limit for JOIN exceeded, max rows: 1, current rows: 2".
Proof.
  split; [exact (two_shards_build_spec one_row_limit)|].
  split; [exact two_rows_dispatched|].
  split; [exact (two_shards_one_per_block one_row_limit _ _)|].
  split; [exact (two_shards_released one_row_limit)|].
  destruct (addJoinedBlock_limits (two_shards one_row_limit) two_rows true
              (routing_spec 2 five_rows ["key"]) _
              (two_shards_build_spec one_row_limit) two_rows_dispatched
              (two_shards_one_per_block one_row_limit _ _)
              (two_shards_released one_row_limit))
    as (passes & after & Hlen & Hshards & Hrows & _ & Hrun).
  assert (hash_joins after
          = [ {| mutex := Free; data := [key_value_block [2]%N ["b"]] |};
              {| mutex := Free; data := [key_value_block [1]%N ["a"]] |} ]) as Hafter.
  { apply list_eq. intros [|[|i]].
    - exact (Hshards 0 _ _ eq_refl eq_refl).
    - exact (Hshards 1 _ _ eq_refl eq_refl).
    - apply lookup_ge_None_2. rewrite Hlen. cbn. lia. }
  assert (getTotalRowCount after = 2%N) as Htotal by (rewrite Hrows, Hafter; reflexivity).
  exists passes, after. split; [exact Hlen|]. split; [exact Htotal|].
  intros fuel Hfuel.
  destruct (Hrun fuel Hfuel) as (_ & _ & _ & Hexceeded & _).
  rewrite (Hexceeded eq_refl 1%N eq_refl) by (rewrite Htotal; reflexivity).
  rewrite Htotal. reflexivity.
Defined.

(** Asked for the unmatched rows of a right join, the code throws; it
    hands out no capability. *)
Lemma getNonJoinedBlocks_right_join_throws :
  getNonJoinedBlocks right_all_join five_rows five_rows 65536
  = Throw LOGICAL_ERROR "Invalid join type. join kind: Right, strictness: All"
  /\ ~ (exists capability,
          getNonJoinedBlocks right_all_join five_rows five_rows 65536 = Ok (Some capability)).
Proof. split; [reflexivity|]. intros [capability Hcap]. discriminate Hcap. Qed.

Lemma getNonJoinedBlocks_never_provides_witness :
  getNonJoinedBlocks (key_join Left Any no_limits) five_rows five_rows 65536 = Ok None
  /\ (exists message,
        getNonJoinedBlocks (key_join Full Any no_limits) five_rows five_rows 65536
        = Throw LOGICAL_ERROR message).
Proof.
  split.
  - apply (getNonJoinedBlocks_never_provides (key_join Left Any no_limits)).
    right. right. reflexivity.
  - apply (getNonJoinedBlocks_never_provides (key_join Full Any no_limits));
      [discriminate|discriminate|reflexivity].
Defined.

Lemma shards_fixed_at_construction_witness :
  ConcurrentHashJoin_new (HashJoin := list Block) (key_join Inner All no_limits) 0
    five_rows five_rows false
  = Throw BAD_ARGUMENTS "Invalid argument slot : 0"
  /\ exists this : ConcurrentHashJoin (list Block),
       ConcurrentHashJoin_new (key_join Inner All no_limits) 2 five_rows five_rows false
       = Ok this
       /\ slots this = 2
       /\ length (hash_joins this) = 2.
Proof.
  split.
  - apply (shards_fixed_at_construction (HashJoin := list Block)
             (key_join Inner All no_limits) 0 five_rows five_rows false).
    reflexivity.
  - assert (1 <= 2) as Hslots by lia.
    destruct (proj1 (proj2 (shards_fixed_at_construction (HashJoin := list Block)
                              (key_join Inner All no_limits) 2 five_rows five_rows false))
                Hslots) as (this & Hnew & Hs & Hlen & _).
    exists this. split; [exact Hnew|]. split; [exact Hs|exact Hlen].
Defined.

(** A second call on the cell that the first call was given finds the
    hash columns of the first call in the block and cuts its sub-blocks four
    columns wide; the copy that the callers make keeps this away from their
    block. *)
Example dispatchBlock_at_same_cell :
  ('(memory, first) ← dispatchBlock_at (routing_spec 2 five_rows ["key"]) 0 [] [two_rows];
   '(_, second) ← dispatchBlock_at (routing_spec 2 five_rows ["key"]) 0 [] memory;
   mret (map columns first, map columns second))
  = Ok ([2; 2], [4; 4]).
Proof. reflexivity. Qed.

Lemma two_rows_cloned :
  dispatch_clone (routing_spec 2 five_rows ["key"]) 0 [two_rows]
  = Ok ([ two_rows;
          two_rows
            ++ [ {| column := [FieldUInt64 0; FieldUInt64 1]; type := "UInt8";
                    name := "cityHash64(key)%2=0" |};
                 {| column := [FieldUInt64 1; FieldUInt64 0]; type := "UInt8";
                    name := "cityHash64(key)%2=1" |} ] ],
        [ key_value_block [2]%N ["b"]; key_value_block [1]%N ["a"] ]).
Proof. reflexivity. Defined.

Lemma dispatch_deterministic_witness :
  exists memory1 memory2,
    dispatch_clone (routing_spec 2 five_rows ["key"]) 0 [two_rows]
    = Ok (memory1, [ key_value_block [2]%N ["b"]; key_value_block [1]%N ["a"] ])
    /\ memory1 !! 0 = Some two_rows
    /\ dispatch_clone (routing_spec 2 five_rows ["key"]) 0 memory1
       = Ok (memory2, [ key_value_block [2]%N ["b"]; key_value_block [1]%N ["a"] ])
    /\ memory2 !! 0 = Some two_rows.
Proof.
  destruct (proj1 (proj2 (proj2 (proj2
              (dispatch_deterministic (two_shards no_limits) 0
                 (routing_spec 2 five_rows ["key"]) [two_rows]))))
              0 _ _ two_rows_cloned) as (_ & Hkept & memory2 & Hrun & Hkept2).
  eexists _, memory2. split; [exact two_rows_cloned|].
  split; [exact (Hkept 0 (le_n 1))|]. split; [exact Hrun|exact (Hkept2 0 (le_n 1))].
Defined.

Lemma setTotals_empty_block_witness :
  setTotals (two_shards no_limits) [] = Ok (two_shards no_limits)
  /\ forall this', setTotals (two_shards no_limits) two_rows = Ok this' ->
                   getTotals this' = two_rows
                   /\ hash_joins this' = hash_joins (two_shards no_limits).
Proof.
  split.
  - apply (setTotals_empty_block (two_shards no_limits) []). reflexivity.
  - intros this' Hset.
    destruct (proj2 (setTotals_empty_block (two_shards no_limits) two_rows) this' Hset)
      as (Htotals & _ & Hshards & _).
    split; [exact Htotals|exact Hshards].
Defined.


Example shard_order_five_rows :
  shard_order (routing_spec 2 five_rows ["key"]) ["key"] five_rows = [1; 3; 4; 0; 2].
Proof. reflexivity. Qed.

Example text_of_two_keys :
  hash_expression_text 2 ["a"; "b"] = "cityHash64(a,b)%2=0,cityHash64(a,b)%2=1"
  /\ hash_expression_text 2 ["a,b"] = hash_expression_text 2 ["a"; "b"].
Proof. split; reflexivity. Qed.

Lemma dispatch_conserves_rows_witness :
  1 <= 2
  /\ reads_as 2 ["key"] ["key"]
  /\ equal_rows five_rows
  /\ (forall n, n ∈ ["key"] -> is_Some (findByName five_rows n))
  /\ (forall n, n ∈ hash_columns_names (routing_spec 2 three_rows ["key"]) ->
                n ∉ getNames five_rows)
  /\ exists subs,
       dispatch (routing_spec 2 three_rows ["key"]) five_rows = Ok subs
       /\ Forall equal_rows subs
       /\ sum_list (map rows subs) = rows five_rows.
Proof.
  assert (1 <= 2) as Hslots by lia.
  split; [exact Hslots|]. split; [exact key_reads_as_key|].
  split; [exact five_rows_equal_rows|].
  split; [exact five_rows_has_key|]. split; [exact five_rows_fresh|].
  exact (dispatch_conserves_rows 2 three_rows five_rows ["key"] ["key"] Hslots
           key_reads_as_key five_rows_equal_rows five_rows_has_key five_rows_fresh).
Defined.

Lemma five_rows_fresh_single :
  forall n, n ∈ hash_columns_names (routing_spec 1 three_rows ["key"]) ->
            n ∉ getNames five_rows.
Proof.
  intros n Hn.
  assert (Forall (fun n => n ∉ getNames five_rows) ["cityHash64(key)%1=0"]) as Hall.
  { apply List.Forall_cons; [apply (bool_decide_unpack _); by vm_compute|].
    apply List.Forall_nil. }
  exact (proj1 (Forall_forall _ _) Hall n Hn).
Defined.

Lemma dispatch_single_shard_witness :
  reads_as 1 ["key"] ["key"]
  /\ equal_rows five_rows
  /\ (forall n, n ∈ ["key"] -> is_Some (findByName five_rows n))
  /\ (forall n, n ∈ hash_columns_names (routing_spec 1 three_rows ["key"]) ->
                n ∉ getNames five_rows)
  /\ dispatch (routing_spec 1 three_rows ["key"]) five_rows = Ok [five_rows].
Proof.
  split; [exact key_reads_as_key_single|].
  split; [exact five_rows_equal_rows|]. split; [exact five_rows_has_key|].
  split; [exact five_rows_fresh_single|].
  exact (dispatch_single_shard three_rows five_rows ["key"] ["key"] key_reads_as_key_single
           five_rows_equal_rows five_rows_has_key five_rows_fresh_single).
Defined.

Lemma dispatch_reassemble_witness :
  1 <= 2
  /\ reads_as 2 ["key"] ["key"]
  /\ equal_rows five_rows
  /\ (forall n, n ∈ ["key"] -> is_Some (findByName five_rows n))
  /\ (forall n, n ∈ hash_columns_names (routing_spec 2 three_rows ["key"]) ->
                n ∉ getNames five_rows)
  /\ exists subs,
       dispatch (routing_spec 2 three_rows ["key"]) five_rows = Ok subs
       /\ reassemble subs
          = Ok (select_rows (shard_order (routing_spec 2 three_rows ["key"]) ["key"] five_rows)
                            five_rows)
       /\ shard_order (routing_spec 2 three_rows ["key"]) ["key"] five_rows
          ≡ₚ seq 0 (rows five_rows).
Proof.
  assert (1 <= 2) as Hslots by lia.
  split; [exact Hslots|]. split; [exact key_reads_as_key|].
  split; [exact five_rows_equal_rows|].
  split; [exact five_rows_has_key|]. split; [exact five_rows_fresh|].
  exact (dispatch_reassemble 2 three_rows five_rows ["key"] ["key"] Hslots key_reads_as_key
           five_rows_equal_rows five_rows_has_key five_rows_fresh).
Defined.

Lemma joinBlock_takes_no_guard_witness :
  dispatch_datas second_locked = dispatch_datas (two_shards no_limits)
  /\ map data (hash_joins second_locked) = map data (hash_joins (two_shards no_limits))
  /\ map mutex (hash_joins (snd (joinBlock (two_shards no_limits) four_rows)))
     = map mutex (hash_joins (two_shards no_limits))
  /\ fst (joinBlock second_locked four_rows) = fst (joinBlock (two_shards no_limits) four_rows)
  /\ map data (hash_joins (snd (joinBlock second_locked four_rows)))
     = map data (hash_joins (snd (joinBlock (two_shards no_limits) four_rows))).
Proof.
  split; [reflexivity|]. split; [reflexivity|].
  exact (joinBlock_takes_no_guard (two_shards no_limits) second_locked four_rows
           eq_refl eq_refl).
Defined.

(** The second guard is held for good: the build does not come back, and
    shard 0 has its sub-block all the same. *)
Example second_locked_half_built :
  addJoinedBlock 3 second_locked two_rows false
  = (Spinning,
     with_hash_joins second_locked
       [ {| mutex := Free; data := [key_value_block [2]%N ["b"]] |};
         {| mutex := Locked; data := [] |} ]).
Proof. reflexivity. Qed.

Lemma addJoinedBlock_spins_witness :
  dispatch_datas second_locked !! 1 = Some (routing_spec 2 five_rows ["key"])
  /\ dispatch (routing_spec 2 five_rows ["key"]) two_rows
     = Ok [ key_value_block [2]%N ["b"]; key_value_block [1]%N ["a"] ]
  /\ length (hash_joins second_locked)
     = length [ key_value_block [2]%N ["b"]; key_value_block [1]%N ["a"] ]
  /\ hash_joins second_locked !! 1 = Some {| mutex := Locked; data := [] |}
  /\ mutex {| mutex := Locked; data := ([] : list Block) |} = Locked
  /\ (forall fuel, fst (addJoinedBlock fuel second_locked two_rows false) = Spinning)
  /\ forall fuel, 1 <= fuel ->
       length (hash_joins (snd (addJoinedBlock fuel second_locked two_rows false)))
       = length (hash_joins second_locked)
       /\ forall j shard db,
            hash_joins second_locked !! j = Some shard ->
            [ key_value_block [2]%N ["b"]; key_value_block [1]%N ["a"] ] !! j = Some db ->
            hash_joins (snd (addJoinedBlock fuel second_locked two_rows false)) !! j
            = Some (if bool_decide (mutex shard = Locked)
                    then shard
                    else {| mutex := Free;
                            data := HashJoin_addJoinedBlock (data shard) db false |}).
Proof.
  split; [reflexivity|]. split; [exact two_rows_dispatched|]. split; [reflexivity|].
  split; [reflexivity|]. split; [reflexivity|].
  exact (addJoinedBlock_spins second_locked two_rows false
           (routing_spec 2 five_rows ["key"]) _ 1 {| mutex := Locked; data := [] |}
           eq_refl two_rows_dispatched eq_refl eq_refl eq_refl).
Defined.

Lemma two_shards_free limits :
  forall hash_join, hash_join ∈ hash_joins (two_shards limits) -> mutex hash_join = Free.
Proof.
  intros hash_join Hin.
  assert (Forall (fun hj : InternalHashJoin (list Block) => mutex hj = Free)
                 (hash_joins (two_shards limits))) as Hall.
  { apply List.Forall_cons; [reflexivity|].
    apply List.Forall_cons; [reflexivity|]. apply List.Forall_nil. }
  exact (proj1 (Forall_forall _ _) Hall hash_join Hin).
Defined.

Lemma insert_pending_uncontended_witness :
  length (hash_joins (two_shards no_limits)) = length even_and_odd
  /\ (forall hash_join, hash_join ∈ hash_joins (two_shards no_limits) ->
                        mutex hash_join = Free)
  /\ 1 <= 1
  /\ insert_pending 1 false even_and_odd (seq 0 (length even_and_odd))
       (hash_joins (two_shards no_limits))
     = Ok ([ {| mutex := Free; data := [key_value_block [2; 4]%N ["b"; "d"]] |};
             {| mutex := Free; data := [key_value_block [1]%N ["a"]] |} ],
           [ Acquired 0; Inserted 0 (key_value_block [2; 4]%N ["b"; "d"]) false; Released 0;
             Acquired 1; Inserted 1 (key_value_block [1]%N ["a"]) false; Released 1 ]).
Proof.
  assert (1 <= 1) as Hfuel by lia.
  split; [reflexivity|]. split; [exact (two_shards_free no_limits)|].
  split; [exact Hfuel|].
  exact (insert_pending_uncontended false even_and_odd (hash_joins (two_shards no_limits))
           eq_refl (two_shards_free no_limits) 1 Hfuel).
Defined.

Lemma two_row_engine_counts_rows (check_limits : bool) :
  forall (engine : list Block) b,
    HashJoin_getTotalRowCount (HashJoin_addJoinedBlock engine b check_limits)
    = (HashJoin_getTotalRowCount engine + N.of_nat (rows b))%N.
Proof.
  intros engine b. cbn. rewrite map_app, list_sum_app. cbn. lia.
Defined.

Lemma five_rows_fresh_build :
  forall n, n ∈ hash_columns_names (routing_spec 2 five_rows ["key"]) ->
            n ∉ getNames five_rows.
Proof. exact five_rows_fresh. Defined.

Lemma build_adds_rows_witness :
  (forall (engine : list Block) b,
     HashJoin_getTotalRowCount (HashJoin_addJoinedBlock engine b false)
     = (HashJoin_getTotalRowCount engine + N.of_nat (rows b))%N)
  /\ dispatch_datas (two_shards no_limits) !! 1 = Some (routing_spec 2 five_rows ["key"])
  /\ reads_as 2 ["key"] ["key"]
  /\ 1 <= 2
  /\ length (hash_joins (two_shards no_limits)) = 2
  /\ (forall hash_join, hash_join ∈ hash_joins (two_shards no_limits) ->
                        mutex hash_join <> Locked)
  /\ equal_rows five_rows
  /\ (forall n, n ∈ ["key"] -> is_Some (findByName five_rows n))
  /\ (forall n, n ∈ hash_columns_names (routing_spec 2 five_rows ["key"]) ->
                n ∉ getNames five_rows)
  /\ exists passes, forall fuel, passes <= fuel ->
       getTotalRowCount (snd (addJoinedBlock fuel (two_shards no_limits) five_rows false))
       = 5%N.
Proof.
  assert (1 <= 2) as Hslots by lia.
  split; [exact (two_row_engine_counts_rows false)|].
  split; [exact (two_shards_build_spec no_limits)|].
  split; [exact key_reads_as_key|].
  split; [exact Hslots|]. split; [reflexivity|].
  split; [exact (two_shards_released no_limits)|].
  split; [exact five_rows_equal_rows|]. split; [exact five_rows_has_key|].
  split; [exact five_rows_fresh_build|].
  exact (build_adds_rows (two_shards no_limits) five_rows false 2 five_rows ["key"] ["key"]
           (two_row_engine_counts_rows false) (two_shards_build_spec no_limits)
           key_reads_as_key Hslots eq_refl (two_shards_released no_limits)
           five_rows_equal_rows five_rows_has_key five_rows_fresh_build).
Defined.

Lemma two_shards_well_formed limits : well_formed (two_shards limits).
Proof.
  split; [cbn; lia|]. split; [reflexivity|].
  exists (routing_spec 2 five_rows ["key"]), (routing_spec 2 five_rows ["key"]).
  split; [reflexivity|]. split; (split; reflexivity).
Defined.

Lemma well_formed_kept_witness :
  well_formed (two_shards no_limits)
  /\ well_formed (snd (addJoinedBlock 1 (two_shards no_limits) two_rows false))
  /\ well_formed (snd (joinBlock (two_shards no_limits) three_rows))
  /\ forall subs, dispatch (routing_spec 2 five_rows ["key"]) four_rows = Ok subs ->
                  length subs = 2.
Proof.
  destruct (well_formed_kept (two_shards no_limits)) as [Hnew Hkept].
  pose proof (Hnew (key_join Inner All no_limits) 2 five_rows five_rows false
                   two_shards_constructed eq_refl eq_refl) as Hshape.
  destruct (Hkept Hshape) as (Hbuild & Hprobe & _ & Hdispatch).
  split; [exact Hshape|]. split; [exact (Hbuild 1 two_rows false)|].
  split; [exact (Hprobe three_rows)|].
  intros subs Hsubs.
  exact (Hdispatch 0 (routing_spec 2 five_rows ["key"]) four_rows subs
           (two_shards_probe_spec no_limits) Hsubs).
Defined.

Lemma no_undefined_behaviour_witness :
  well_formed (two_shards no_limits)
  /\ fst (addJoinedBlock 1 (two_shards no_limits) [] false) <> Undefined
  /\ fst (joinBlock (two_shards no_limits) []) <> Undefined.
Proof.
  split; [exact (two_shards_well_formed no_limits)|].
  destruct (no_undefined_behaviour (two_shards no_limits) (two_shards_well_formed no_limits))
    as (Hbuild & Hprobe & _).
  split; [exact (Hbuild 1 [] false)|exact (Hprobe [])].
Defined.

Lemma fresh_coordinator_reports_witness :
  ConcurrentHashJoin_new (key_join Inner All no_limits) 2 five_rows five_rows false
  = Ok (two_shards no_limits)
  /\ alwaysReturnsEmptySet (two_shards no_limits) = true
  /\ getTotalRowCount (two_shards no_limits) = 0%N
  /\ getTotals (two_shards no_limits) = [].
Proof.
  split; [exact two_shards_constructed|].
  destruct (fresh_coordinator_reports (key_join Inner All no_limits) 2 five_rows five_rows
              false (two_shards no_limits) two_shards_constructed)
    as (Hempty & _ & Hrows & _ & Htotals).
  split; [exact Hempty|]. split; [exact Hrows|exact Htotals].
Defined.

Lemma total_counts_size_t_witness :
  (getTotalRowCount (snd (addJoinedBlock 1 (two_shards no_limits) two_rows false)) < 2 ^ 64)%N
  /\ getTotalRowCount (snd (addJoinedBlock 1 (two_shards no_limits) two_rows false)) = 2%N.
Proof.
  destruct (total_counts_size_t (snd (addJoinedBlock 1 (two_shards no_limits) two_rows false)))
    as (Hbound & _ & Hfits & _).
  split; [exact Hbound|].
  rewrite Hfits; [reflexivity|]. vm_compute. reflexivity.
Defined.

Lemma even_and_odd_shape :
  forall out, out ∈ even_and_odd ->
    equal_rows out /\ columns out = columns (key_value_block [2; 4]%N ["b"; "d"]).
Proof.
  intros out Hout.
  assert (Forall (fun out => equal_rows out
                             /\ columns out = columns (key_value_block [2; 4]%N ["b"; "d"]))
                 even_and_odd) as Hall.
  { apply List.Forall_cons; [split; [repeat constructor|reflexivity]|].
    apply List.Forall_cons; [split; [repeat constructor|reflexivity]|].
    apply List.Forall_nil. }
  exact (proj1 (Forall_forall _ _) Hall out Hout).
Defined.

Lemma reassemble_equal_rows_witness :
  (forall out, out ∈ even_and_odd ->
     equal_rows out /\ columns out = columns (key_value_block [2; 4]%N ["b"; "d"]))
  /\ exists result,
       reassemble even_and_odd = Ok result
       /\ columns result = 2
       /\ equal_rows result
       /\ (1 <= 2 -> rows result = 3).
Proof.
  split; [exact even_and_odd_shape|].
  exact (reassemble_equal_rows (key_value_block [2; 4]%N ["b"; "d"])
           [key_value_block [1]%N ["a"]] even_and_odd_shape).
Defined.

End Instances.
